(** * Coevolution island: a shallow embedding of bingo/CoevolutionIsland.py

    The island drives three populations: solutions, fitness predictors and
    a list of trainers.  The two evolving populations live in [Island]
    objects (bingo/Island.py, not part of the sources at hand), the trainers
    in two parallel Python lists [trainers] and [trainers_true_fitness].

    Conventions of the embedding.
    - Python [int] is [Z]; [//] and [%] are [Z.div] and [Z.modulo] (both
      floor, as in Python) and raise [ZeroDivisionError] on a zero divisor.
    - Python and numpy floats are exact rationals extended with the
      not-a-number sentinel ([Float.t]).  Rounding and infinities are outside
      the model; every comparison with [NaN] is false, every operation on
      [NaN] gives [NaN].
    - A method that mutates [self] is a function from the state record to
      [result] of the new state; exceptions are the [Raise] outcome.
    - The two [while] loops are fuelled; [None] means the fuel ran out.
    - [copy()] is the identity: records are values.  (When the scan of
      [add_new_trainer] keeps its default, the source stores the first
      member of the population itself, not a copy; values cannot tell.)
    - The diagnostic trace ([verbose]) is off. *)

From Stdlib Require Import ZArith QArith Qabs Qround List Bool Lia Lqa.
From Stdlib Require Import Permutation.
Import ListNotations.

Set Implicit Arguments.
Local Open Scope Z_scope.

(** ** Exceptions and the result monad *)

Inductive exn : Type :=
| ZeroDivisionError
| IndexError.

Inductive result (A : Type) : Type :=
| Ok (a : A)
| Raise (e : exn).

Arguments Ok {A} a.
Arguments Raise {A} e.

Definition bind {A B : Type} (m : result A) (k : A -> result B) : result B :=
  match m with
  | Ok a => k a
  | Raise e => Raise e
  end.

Notation "x <- m ;; k" := (bind m (fun x => k))
  (at level 61, m at next level, right associativity).
Notation "' pat <- m ;; k" := (bind m (fun x => match x with pat => k end))
  (at level 61, pat pattern, m at next level, right associativity).

Definition is_ok {A : Type} (m : result A) : bool :=
  match m with Ok _ => true | Raise _ => false end.

(** ** Floats: rationals with a not-a-number sentinel *)

Module Float.

Inductive t : Type :=
| NaN
| Fin (q : Q).

Definition of_Z (z : Z) : t := Fin (inject_Z z).
Definition zero : t := Fin 0%Q.

Definition lift2 (f : Q -> Q -> Q) (a b : t) : t :=
  match a, b with
  | Fin x, Fin y => Fin (f x y)
  | _, _ => NaN
  end.

Definition add : t -> t -> t := lift2 Qplus.
Definition sub : t -> t -> t := lift2 Qminus.
Definition mul : t -> t -> t := lift2 Qmult.
Definition div : t -> t -> t := lift2 Qdiv.

Definition abs (a : t) : t :=
  match a with
  | Fin x => Fin (Qabs x)
  | NaN => NaN
  end.

Definition isnan (a : t) : bool :=
  match a with NaN => true | Fin _ => false end.

Definition is_zero (a : t) : bool :=
  match a with
  | Fin x => Qeq_bool x 0%Q
  | NaN => false
  end.

(** [ltb a b] is Python's [a < b]: false as soon as one side is [NaN]. *)
Definition ltb (a b : t) : bool :=
  match a, b with
  | Fin x, Fin y => negb (Qle_bool y x)
  | _, _ => false
  end.

Definition leb (a b : t) : bool :=
  match a, b with
  | Fin x, Fin y => Qle_bool x y
  | _, _ => false
  end.

(** Same value: both [NaN], or equal rationals. *)
Definition same (a b : t) : bool :=
  match a, b with
  | Fin x, Fin y => Qeq_bool x y
  | NaN, NaN => true
  | _, _ => false
  end.

Definition sum (l : list t) : t := fold_left add l zero.

End Float.

Definition float : Type := Float.t.

(** ** Python primitives *)

(** [a / b] on floats. *)
Definition truediv (a b : float) : result float :=
  if Float.is_zero b then Raise ZeroDivisionError else Ok (Float.div a b).

(** [a // b] on ints. *)
Definition floordiv (a b : Z) : result Z :=
  if (b =? 0)%Z then Raise ZeroDivisionError else Ok (a / b)%Z.

(** [a % b] on ints. *)
Definition pymod (a b : Z) : result Z :=
  if (b =? 0)%Z then Raise ZeroDivisionError else Ok (a mod b)%Z.

Definition len {A : Type} (l : list A) : Z := Z.of_nat (length l).

(** [l[i]] for a Python list: negative indices count from the end. *)
Definition getitem {A : Type} (l : list A) (i : Z) : result A :=
  let j := if (i <? 0)%Z then (i + len l)%Z else i in
  if (j <? 0)%Z then Raise IndexError
  else match nth_error l (Z.to_nat j) with
       | Some a => Ok a
       | None => Raise IndexError
       end.

Fixpoint replace_nth {A : Type} (l : list A) (n : nat) (v : A) : list A :=
  match l, n with
  | [], _ => []
  | _ :: tl, O => v :: tl
  | hd :: tl, S n' => hd :: replace_nth tl n' v
  end.

(** [l[i] = v] for a Python list. *)
Definition setitem {A : Type} (l : list A) (i : Z) (v : A) : result (list A) :=
  let j := if (i <? 0)%Z then (i + len l)%Z else i in
  if ((j <? 0) || (len l <=? j))%Z then Raise IndexError
  else Ok (replace_nth l (Z.to_nat j) v).

(** [i in subset] for a list of ints. *)
Definition mem (i : Z) (subset : list Z) : bool :=
  existsb (Z.eqb i) subset.

(** [enumerate(l)], counting from [start]. *)
Fixpoint enumerate_from {A : Type} (start : Z) (l : list A) : list (Z * A) :=
  match l with
  | [] => []
  | a :: tl => (start, a) :: enumerate_from (start + 1) tl
  end.

Definition enumerate {A : Type} (l : list A) : list (Z * A) :=
  enumerate_from 0 l.

(** [list(range(n))]. *)
Definition range (n : Z) : list Z :=
  map Z.of_nat (seq 0 (Z.to_nat n)).

(** [np.var(l)]: the mean of the squared deviations from the mean; not a
    number for an empty list or as soon as one entry is not a number. *)
Definition np_var (l : list float) : float :=
  match l with
  | [] => Float.NaN
  | _ =>
      let n := Float.of_Z (len l) in
      let mean := Float.div (Float.sum l) n in
      let dev x := let d := Float.sub x mean in Float.mul d d in
      Float.div (Float.sum (map dev l)) n
  end.

(** Keep, respectively drop, the entries of [l] whose position is in
    [subset]: the two comprehensions of [dump_populations]. *)
Definition select_indices {A : Type} (l : list A) (subset : list Z) : list A :=
  map snd (filter (fun p => mem (fst p) subset) (enumerate l)).

Definition remove_indices {A : Type} (l : list A) (subset : list Z) : list A :=
  map snd (filter (fun p => negb (mem (fst p) subset)) (enumerate l)).

(** ** Individuals and population engines *)

(** An individual: an opaque genome and the "fitness is current" flag. *)
Record indv (G : Type) : Type := mkIndv {
  genome : G;
  fit_set : bool
}.

Definition copy {G : Type} (i : indv G) : indv G := i.

Definition clear_fit_set {G : Type} (i : indv G) : indv G :=
  {| genome := genome i; fit_set := false |}.

(** What the island reads and writes of an [Island]: the ordered
    population, the generation age, the cumulative count of fitness
    evaluations.  [hidden] is whatever else the engine keeps (random state,
    pareto front). *)
Record Island (G X : Type) : Type := mkIsland {
  pop : list (indv G);
  age : Z;
  fitness_evals : Z;
  hidden : X
}.

Definition set_pop {G X : Type} (isl : Island G X) (p : list (indv G))
  : Island G X :=
  {| pop := p; age := age isl; fitness_evals := fitness_evals isl;
     hidden := hidden isl |}.

Definition clear_flags {G X : Type} (isl : Island G X) : Island G X :=
  set_pop isl (map clear_fit_set (pop isl)).

(** Modelled from the spec: [Island.dump_population(subset, with_removal)]
    lives in bingo/Island.py, which is missing.  The spec gives it the
    behaviour the island's own trainer code has: the genomes at the given
    positions (all of them for [None]) are serialised, and with removal they
    are deleted from the population by index membership. *)
Definition island_dump_population {G D X : Type} (dump : indv G -> D)
    (isl : Island G X) (subset : option (list Z)) (with_removal : bool)
  : list D * Island G X :=
  let subset := match subset with
                | None => range (len (pop isl))
                | Some s => s
                end in
  (map dump (select_indices (pop isl) subset),
   if with_removal then set_pop isl (remove_indices (pop isl) subset)
   else isl).

(** Modelled from the spec: [Island.load_population(pop_list, replace)]
    lives in bingo/Island.py, which is missing.  Per the spec it restores
    (replace) or appends to the population from a list of serialised
    genomes. *)
Definition island_load_population {G D X : Type} (load : D -> indv G)
    (isl : Island G X) (pop_list : list D) (replace : bool) : Island G X :=
  set_pop isl ((if replace then [] else pop isl) ++ map load pop_list).

(** The collaborators of the island whose code is elsewhere: the scoring
    capability of a predictor, the exact metric, complexity, the engine
    operations of the two [Island]s and the two gene manipulators. *)
Record Collaborators (GS GP DS DP X : Type) : Type := mkCollab {
  (** [pred.fit_func(sol, fitness_metric, solution_training_data)] *)
  fit_func : GP -> GS -> float;
  (** [fitness_metric.evaluate_fitness(sol, solution_training_data)] *)
  evaluate_fitness : GS -> float;
  (** [sol.complexity()] *)
  complexity : GS -> float;
  (** [Island.generational_step()] on the solution island, run against the
      fitness function currently injected *)
  sol_generational_step :
    (indv GS -> result (float * float)) -> Island GS X -> result (Island GS X);
  (** [Island.update_pareto_front()] on the solution island *)
  sol_update_pareto_front :
    (indv GS -> result (float * float)) -> Island GS X -> result (Island GS X);
  (** [Island.generational_step()] on the predictor island *)
  pred_generational_step :
    (indv GP -> result float) -> Island GP X -> result (Island GP X);
  (** [Island.best_indv()] on the predictor island; it may evaluate
      fitness, hence the new island *)
  pred_best_indv :
    (indv GP -> result float) -> Island GP X
    -> result (indv GP * Island GP X);
  (** [gene_manipulator.dump] and [gene_manipulator.load] *)
  sol_dump : indv GS -> DS;
  sol_load : DS -> indv GS;
  pred_dump : indv GP -> DP;
  pred_load : DP -> indv GP
}.

(** Which bound method is injected as the solution island's
    [fitness_function]. *)
Inductive fitness_function : Type :=
| SolutionFitnessEst
| TrueFitnessPlusComplexity.

(** ** The island's state: the attributes of [self] *)

Record CoevolutionIsland (GS GP X : Type) : Type := mkCoev {
  solution_island : Island GS X;
  predictor_island : Island GP X;
  trainers : list (indv GS);
  trainers_true_fitness : list float;
  best_predictor : indv GP;
  predictor_ratio : float;
  predictor_update_freq : Z;
  trainer_update_freq : Z;
  predictor_to_solution_eval_cost : Z;
  solution_fitness_function : fitness_function
}.

(** ** The methods of [CoevolutionIsland] *)

Section Methods.

Variables GS GP DS DP X : Type.
Variable C : Collaborators GS GP DS DP X.

Let state : Type := CoevolutionIsland GS GP X.

Definition set_solution_island (st : state) (isl : Island GS X) : state :=
  {| solution_island := isl;
     predictor_island := predictor_island st;
     trainers := trainers st;
     trainers_true_fitness := trainers_true_fitness st;
     best_predictor := best_predictor st;
     predictor_ratio := predictor_ratio st;
     predictor_update_freq := predictor_update_freq st;
     trainer_update_freq := trainer_update_freq st;
     predictor_to_solution_eval_cost := predictor_to_solution_eval_cost st;
     solution_fitness_function := solution_fitness_function st |}.

Definition set_predictor_island (st : state) (isl : Island GP X) : state :=
  {| solution_island := solution_island st;
     predictor_island := isl;
     trainers := trainers st;
     trainers_true_fitness := trainers_true_fitness st;
     best_predictor := best_predictor st;
     predictor_ratio := predictor_ratio st;
     predictor_update_freq := predictor_update_freq st;
     trainer_update_freq := trainer_update_freq st;
     predictor_to_solution_eval_cost := predictor_to_solution_eval_cost st;
     solution_fitness_function := solution_fitness_function st |}.

Definition set_trainers (st : state) (t : list (indv GS)) : state :=
  {| solution_island := solution_island st;
     predictor_island := predictor_island st;
     trainers := t;
     trainers_true_fitness := trainers_true_fitness st;
     best_predictor := best_predictor st;
     predictor_ratio := predictor_ratio st;
     predictor_update_freq := predictor_update_freq st;
     trainer_update_freq := trainer_update_freq st;
     predictor_to_solution_eval_cost := predictor_to_solution_eval_cost st;
     solution_fitness_function := solution_fitness_function st |}.

Definition set_trainers_true_fitness (st : state) (f : list float) : state :=
  {| solution_island := solution_island st;
     predictor_island := predictor_island st;
     trainers := trainers st;
     trainers_true_fitness := f;
     best_predictor := best_predictor st;
     predictor_ratio := predictor_ratio st;
     predictor_update_freq := predictor_update_freq st;
     trainer_update_freq := trainer_update_freq st;
     predictor_to_solution_eval_cost := predictor_to_solution_eval_cost st;
     solution_fitness_function := solution_fitness_function st |}.

Definition set_best_predictor (st : state) (b : indv GP) : state :=
  {| solution_island := solution_island st;
     predictor_island := predictor_island st;
     trainers := trainers st;
     trainers_true_fitness := trainers_true_fitness st;
     best_predictor := b;
     predictor_ratio := predictor_ratio st;
     predictor_update_freq := predictor_update_freq st;
     trainer_update_freq := trainer_update_freq st;
     predictor_to_solution_eval_cost := predictor_to_solution_eval_cost st;
     solution_fitness_function := solution_fitness_function st |}.

Definition set_solution_fitness_function (st : state) (f : fitness_function)
  : state :=
  {| solution_island := solution_island st;
     predictor_island := predictor_island st;
     trainers := trainers st;
     trainers_true_fitness := trainers_true_fitness st;
     best_predictor := best_predictor st;
     predictor_ratio := predictor_ratio st;
     predictor_update_freq := predictor_update_freq st;
     trainer_update_freq := trainer_update_freq st;
     predictor_to_solution_eval_cost := predictor_to_solution_eval_cost st;
     solution_fitness_function := f |}.

(** *** Fitness adapters *)

(** [solution_fitness_est]: the score the cached best predictor gives,
    paired with the solution's complexity. *)
Definition solution_fitness_est (st : state) (solution : indv GS)
  : result (float * float) :=
  let fit := fit_func C (genome (best_predictor st)) (genome solution) in
  Ok (fit, complexity C (genome solution)).

(** One turn of the loop of [predictor_fitness]:
    [err += abs(true_fit - predicted_fit)]. *)
Definition accumulate_error (predictor : indv GP) (err : float)
    (entry : indv GS * float) : float :=
  let (train, true_fit) := entry in
  let predicted_fit := fit_func C (genome predictor) (genome train) in
  Float.add err (Float.abs (Float.sub true_fit predicted_fit)).

(** [predictor_fitness]: the accumulated error over
    [zip(trainers, trainers_true_fitness)], divided by [len(trainers)].  It
    reads nothing of [self] but the two trainer lists. *)
Definition predictor_fitness_on (trainers : list (indv GS))
    (trainers_true_fitness : list float) (predictor : indv GP)
  : result float :=
  let err := fold_left (accumulate_error predictor)
               (combine trainers trainers_true_fitness)
               Float.zero in
  truediv err (Float.of_Z (len trainers)).

Definition predictor_fitness (st : state) (predictor : indv GP)
  : result float :=
  predictor_fitness_on (trainers st) (trainers_true_fitness st) predictor.

Definition solution_fitness_true (solution : indv GS) : float :=
  evaluate_fitness C (genome solution).

Definition true_fitness_plus_complexity (solution : indv GS)
  : result (float * float) :=
  Ok (solution_fitness_true solution, complexity C (genome solution)).

(** The function the solution island currently calls. *)
Definition injected_solution_fitness (st : state)
  : indv GS -> result (float * float) :=
  match solution_fitness_function st with
  | SolutionFitnessEst => solution_fitness_est st
  | TrueFitnessPlusComplexity => true_fitness_plus_complexity
  end.

(** *** [add_new_trainer] *)

(** The scores all current predictors give to [sol]. *)
Definition pfit_list (st : state) (sol : indv GS) : list float :=
  map (fun pred => fit_func C (genome pred) (genome sol))
      (pop (predictor_island st)).

(** The variance of [sol]; the [try]/[except] turns a numeric failure into
    the sentinel, which is already what [np_var] returns. *)
Definition variance_of (st : state) (sol : indv GS) : float :=
  np_var (pfit_list st sol).

(** One turn of the scan: [(max_variance, s_best)] is replaced only when
    [variance > max_variance]. *)
Definition scan_step (st : state) (acc : float * indv GS) (sol : indv GS)
  : float * indv GS :=
  let (max_variance, s_best) := acc in
  let variance := variance_of st sol in
  if Float.ltb max_variance variance then (variance, copy sol)
  else (max_variance, s_best).

(** The candidate chosen by the scan, starting from [pop[0]] and the
    threshold [0]. *)
Definition choose_trainer (st : state) : result (indv GS) :=
  s_best <- getitem (pop (solution_island st)) 0 ;;
  Ok (snd (fold_left (scan_step st) (pop (solution_island st))
                     (Float.of_Z 0, s_best))).

(** [location = (solution_island.age // trainer_update_freq)
                % len(trainers)]. *)
Definition trainer_location (st : state) : result Z :=
  q <- floordiv (age (solution_island st)) (trainer_update_freq st) ;;
  pymod q (len (trainers st)).

Definition add_new_trainer (st : state) : result state :=
  s_best <- choose_trainer st ;;
  location <- trainer_location st ;;
  t <- setitem (trainers st) location s_best ;;
  Ok (set_trainers st t).

(** *** [generational_step] *)

Definition current_ratio (st : state) : result float :=
  let p := fitness_evals (predictor_island st) in
  let s := fitness_evals (solution_island st) in
  solution_cost <- truediv (Float.of_Z s)
                     (Float.of_Z (predictor_to_solution_eval_cost st)) ;;
  truediv (Float.of_Z p) (Float.add (Float.of_Z p) solution_cost).

(** The trainer update at the head of the loop body: when the next
    predictor age is a multiple of [trainer_update_freq], a trainer is
    replaced and every predictor's flag is cleared. *)
Definition update_trainers (st : state) : result state :=
  m <- pymod (age (predictor_island st) + 1) (trainer_update_freq st) ;;
  if (m =? 0)%Z then
    st' <- add_new_trainer st ;;
    Ok (set_predictor_island st' (clear_flags (predictor_island st')))
  else Ok st.

(** The predictor step that closes the loop body. *)
Definition predictor_step (st : state) : result state :=
  isl <- pred_generational_step C (predictor_fitness st)
           (predictor_island st) ;;
  Ok (set_predictor_island st isl).

(** The body of the [while] loop. *)
Definition predictor_iteration (st : state) : result state :=
  st1 <- update_trainers st ;;
  predictor_step st1.

(** [while current_ratio < predictor_ratio: ...] *)
Fixpoint evolve_predictors (fuel : nat) (st : state)
  : option (result state) :=
  match fuel with
  | O => None
  | S fuel' =>
      match current_ratio st with
      | Raise e => Some (Raise e)
      | Ok r =>
          if Float.ltb r (predictor_ratio st) then
            match predictor_iteration st with
            | Raise e => Some (Raise e)
            | Ok st' => evolve_predictors fuel' st'
            end
          else Some (Ok st)
      end
  end.

(** The refresh of the cached best predictor: when the next solution age
    is a multiple of [predictor_update_freq], the cache is replaced and
    every solution's flag is cleared. *)
Definition update_best_predictor (st : state) : result state :=
  m <- pymod (age (solution_island st) + 1) (predictor_update_freq st) ;;
  if (m =? 0)%Z then
    ' (best, isl) <- pred_best_indv C (predictor_fitness st)
                       (predictor_island st) ;;
    let st1 := set_best_predictor (set_predictor_island st isl)
                 (copy best) in
    Ok (set_solution_island st1 (clear_flags (solution_island st1)))
  else Ok st.

(** The step of the solution island and the pareto front update. *)
Definition solution_step (st : state) : result state :=
  isl <- sol_generational_step C (injected_solution_fitness st)
           (solution_island st) ;;
  isl' <- sol_update_pareto_front C (injected_solution_fitness st) isl ;;
  Ok (set_solution_island st isl').

Definition generational_step (fuel : nat) (st : state)
  : option (result state) :=
  match evolve_predictors fuel st with
  | None => None
  | Some (Raise e) => Some (Raise e)
  | Some (Ok st1) =>
      Some (st2 <- update_best_predictor st1 ;; solution_step st2)
  end.

(** *** [dump_populations] and [load_populations] *)

Definition dump_populations (st : state)
    (s_subset p_subset t_subset : option (list Z)) (with_removal : bool)
  : (list DS * list DP * list (DS * float)) * state :=
  let (solution_list, sisl) :=
    island_dump_population (sol_dump C) (solution_island st) s_subset
      with_removal in
  let (predictor_list, pisl) :=
    island_dump_population (pred_dump C) (predictor_island st) p_subset
      with_removal in
  let t_subset := match t_subset with
                  | None => range (len (trainers st))
                  | Some s => s
                  end in
  let trainer_list :=
    map (fun e : indv GS * float => (sol_dump C (fst e), snd e))
        (select_indices (combine (trainers st) (trainers_true_fitness st))
                        t_subset) in
  let st1 := set_predictor_island (set_solution_island st sisl) pisl in
  let st2 :=
    if with_removal then
      set_trainers_true_fitness
        (set_trainers st1 (remove_indices (trainers st) t_subset))
        (remove_indices (trainers_true_fitness st) t_subset)
    else st1 in
  ((solution_list, predictor_list, trainer_list), st2).

(** [load_populations] up to its last statement: the three containers are
    restored or extended. *)
Definition load_containers (st : state)
    (pop_lists : list DS * list DP * list (DS * float)) (replace : bool)
  : state :=
  let '(solution_list, predictor_list, trainer_list) := pop_lists in
  let sisl := island_load_population (sol_load C) (solution_island st)
                solution_list replace in
  let pisl := island_load_population (pred_load C) (predictor_island st)
                predictor_list replace in
  let st1 := set_predictor_island (set_solution_island st sisl) pisl in
  let t0 := if replace then [] else trainers st in
  let f0 := if replace then [] else trainers_true_fitness st in
  set_trainers_true_fitness
    (set_trainers st1 (t0 ++ map (fun e => sol_load C (fst e)) trainer_list))
    (f0 ++ map snd trainer_list).

Definition load_populations (st : state)
    (pop_lists : list DS * list DP * list (DS * float)) (replace : bool)
  : result state :=
  let st1 := load_containers st pop_lists replace in
  ' (best, isl) <- pred_best_indv C (predictor_fitness st1)
                     (predictor_island st1) ;;
  Ok (set_best_predictor (set_predictor_island st1 isl) (copy best)).

(** *** [use_true_fitness] *)

Definition use_true_fitness (st : state) : state :=
  let st1 := set_solution_fitness_function st TrueFitnessPlusComplexity in
  set_solution_island st1 (clear_flags (solution_island st1)).

(** *** [__init__] *)

(** The legality test of a drawn trainer: its exact fitness is a number
    and every current predictor scores it with a number. *)
Definition legal_trainer (pisl : Island GP X) (sol : indv GS)
    (true_fitness : float) : bool :=
  fold_left
    (fun legal pred =>
       if Float.isnan (fit_func C (genome pred) (genome sol)) then false
       else legal)
    (pop pisl) (negb (Float.isnan true_fitness)).

(** The rejection loop for one trainer.  [draws] are the values
    [np.random.randint(0, solution_pop_size)] returns, in order; the loop
    has run out of fuel when they are used up.  It returns the accepted
    index, its exact fitness and the draws left. *)
Fixpoint find_legal_trainer (sisl : Island GS X) (pisl : Island GP X)
    (draws : list Z) : option (result (Z * float * list Z)) :=
  match draws with
  | [] => None
  | ind :: rest =>
      match getitem (pop sisl) ind with
      | Raise e => Some (Raise e)
      | Ok sol =>
          let true_fitness := solution_fitness_true sol in
          if legal_trainer pisl sol true_fitness
          then Some (Ok (ind, true_fitness, rest))
          else find_legal_trainer sisl pisl rest
      end
  end.

(** [for _ in range(trainer_pop_size)]: one accepted trainer is appended
    per turn. *)
Fixpoint init_trainers (sisl : Island GS X) (pisl : Island GP X)
    (n : nat) (draws : list Z) (acc : list (indv GS) * list float)
  : option (result (list (indv GS) * list float)) :=
  match n with
  | O => Some (Ok acc)
  | S n' =>
      match find_legal_trainer sisl pisl draws with
      | None => None
      | Some (Raise e) => Some (Raise e)
      | Some (Ok (ind, true_fitness, rest)) =>
          match getitem (pop sisl) ind with
          | Raise e => Some (Raise e)
          | Ok sol =>
              init_trainers sisl pisl n' rest
                (fst acc ++ [copy sol], snd acc ++ [true_fitness])
          end
      end
  end.

(** [__init__], from the two freshly built [Island]s on.  The clamp of the
    predictor manipulator's [max_index] happens inside a collaborator and
    is not part of the state. *)
Definition init (sisl : Island GS X) (pisl : Island GP X)
    (predictor_ratio : float) (predictor_update_freq : Z)
    (trainer_pop_size : Z) (trainer_update_freq : Z) (draws : list Z)
  : option (result state) :=
  match init_trainers sisl pisl (Z.to_nat trainer_pop_size) draws ([], []) with
  | None => None
  | Some (Raise e) => Some (Raise e)
  | Some (Ok (ts, fs)) =>
      Some (' (best, isl) <- pred_best_indv C (predictor_fitness_on ts fs)
                               pisl ;;
            Ok {| solution_island := sisl;
                  predictor_island := isl;
                  trainers := ts;
                  trainers_true_fitness := fs;
                  best_predictor := copy best;
                  predictor_ratio := predictor_ratio;
                  predictor_update_freq := predictor_update_freq;
                  trainer_update_freq := trainer_update_freq;
                  predictor_to_solution_eval_cost := len ts;
                  solution_fitness_function := SolutionFitnessEst |})
  end.

End Methods.

(** ** The mean absolute error, in the words of the specification

    "For each trainer, compute the absolute difference between the
    trainer's stored exact fitness and the predictor's estimate on that
    trainer's genome; return the arithmetic mean over all trainers." *)

Definition absolute_errors (GS GP DS DP X : Type)
    (C : Collaborators GS GP DS DP X) (st : CoevolutionIsland GS GP X)
    (predictor : indv GP) : list float :=
  map (fun e : indv GS * float =>
         Float.abs (Float.sub (snd e)
                      (fit_func C (genome predictor) (genome (fst e)))))
      (combine (trainers st) (trainers_true_fitness st)).

Definition arithmetic_mean (l : list float) : float :=
  Float.div (Float.sum l) (Float.of_Z (len l)).

Definition mean_absolute_error (GS GP DS DP X : Type)
    (C : Collaborators GS GP DS DP X) (st : CoevolutionIsland GS GP X)
    (predictor : indv GP) : float :=
  arithmetic_mean (absolute_errors C st predictor).

(** ** What the predictor loop leaves alone

    [same_frame st st']: the solution island, the stored exact fitness
    values, the configuration and the number of trainers of [st'] are
    those of [st]. *)

Definition same_frame (GS GP X : Type) (st st' : CoevolutionIsland GS GP X)
  : Prop :=
  solution_island st' = solution_island st
  /\ length (trainers st') = length (trainers st)
  /\ trainers_true_fitness st' = trainers_true_fitness st
  /\ predictor_ratio st' = predictor_ratio st
  /\ predictor_update_freq st' = predictor_update_freq st
  /\ trainer_update_freq st' = trainer_update_freq st
  /\ predictor_to_solution_eval_cost st' = predictor_to_solution_eval_cost st
  /\ solution_fitness_function st' = solution_fitness_function st.

(** ** The budget ratio and the predictor loop, in the words of the
    specification

    "currentRatio = predictorEvals / (predictorEvals + solutionEvals /
    costRatio)"; the predictor engine is advanced one generation at a time
    as long as the ratio is strictly below the target. *)

Definition ratio_formula (predictor_evals solution_evals cost_ratio : Z) : Q :=
  (inject_Z predictor_evals
   / (inject_Z predictor_evals
      + inject_Z solution_evals / inject_Z cost_ratio))%Q.

Definition spec_ratio (GS GP X : Type) (st : CoevolutionIsland GS GP X) : Q :=
  ratio_formula (fitness_evals (predictor_island st))
    (fitness_evals (solution_island st))
    (predictor_to_solution_eval_cost st).

(** Neither division of the formula is by zero. *)
Definition ratio_defined (GS GP X : Type) (st : CoevolutionIsland GS GP X)
  : Prop :=
  predictor_to_solution_eval_cost st <> 0
  /\ ~ (inject_Z (fitness_evals (predictor_island st))
        + inject_Z (fitness_evals (solution_island st))
          / inject_Z (predictor_to_solution_eval_cost st) == 0)%Q.

Definition below_target (GS GP X : Type) (st : CoevolutionIsland GS GP X)
  : bool :=
  Float.ltb (Float.Fin (spec_ratio st)) (predictor_ratio st).

(** [predictor_run C st n st']: from [st], exactly [n] predictor
    generations are run, each one entered with the ratio below the target,
    and the ratio at [st'] is not below it. *)
Inductive predictor_run (GS GP DS DP X : Type)
    (C : Collaborators GS GP DS DP X)
  : CoevolutionIsland GS GP X -> nat -> CoevolutionIsland GS GP X -> Prop :=
| run_stop : forall st,
    ratio_defined st -> below_target st = false ->
    predictor_run C st 0 st
| run_step : forall st st1 st2 n,
    ratio_defined st -> below_target st = true ->
    predictor_iteration C st = Ok st1 ->
    predictor_run C st1 n st2 ->
    predictor_run C st (S n) st2.

(** ** States on which a generational step is meant to run

    Both populations and the trainer list are inhabited, the two update
    frequencies and the cost ratio are usable divisors, the evaluation
    counters are non-negative and not both zero, and the target ratio is
    below 1 (a ratio of 1 or more can never be reached). *)

Definition target_below_one (t : float) : Prop :=
  match t with
  | Float.NaN => True
  | Float.Fin q => (q < 1)%Q
  end.

Definition step_ready (GS GP X : Type) (st : CoevolutionIsland GS GP X)
  : Prop :=
  pop (solution_island st) <> []
  /\ pop (predictor_island st) <> []
  /\ trainers st <> []
  /\ trainer_update_freq st <> 0
  /\ predictor_update_freq st <> 0
  /\ 0 < predictor_to_solution_eval_cost st
  /\ 0 <= fitness_evals (predictor_island st)
  /\ 0 <= fitness_evals (solution_island st)
  /\ 0 < fitness_evals (predictor_island st)
         + fitness_evals (solution_island st)
  /\ target_below_one (predictor_ratio st).

(** The number of predictor evaluations from which the ratio is no longer
    below the target. *)
Definition loop_bound (GS GP X : Type) (st : CoevolutionIsland GS GP X) : Z :=
  match predictor_ratio st with
  | Float.NaN => 0
  | Float.Fin t =>
      Qceiling (t * (inject_Z (fitness_evals (solution_island st))
                     / inject_Z (predictor_to_solution_eval_cost st))
                / (1 - t))%Q
  end.

(** ** The engine contract

    What the island needs of the population engine (bingo/Island.py) for a
    generational step to complete: an engine operation returns whenever the
    injected fitness function does, a predictor step performs at least one
    fitness evaluation and keeps the population inhabited. *)

Record engine_contract (GS GP DS DP X : Type)
    (C : Collaborators GS GP DS DP X) : Prop := mkContract {
  pred_step_returns :
    forall f isl,
      pop isl <> [] -> (forall i, is_ok (f i) = true) ->
      exists isl', pred_generational_step C f isl = Ok isl'
                   /\ pop isl' <> []
                   /\ (fitness_evals isl < fitness_evals isl')%Z;
  best_indv_returns :
    forall f isl,
      pop isl <> [] -> (forall i, is_ok (f i) = true) ->
      exists best isl', pred_best_indv C f isl = Ok (best, isl');
  best_indv_keeps_genomes :
    forall f isl best isl',
      pred_best_indv C f isl = Ok (best, isl') ->
      map (@genome GP) (pop isl') = map (@genome GP) (pop isl);
  sol_step_returns :
    forall f isl,
      (forall i, is_ok (f i) = true) ->
      exists isl', sol_generational_step C f isl = Ok isl';
  pareto_returns :
    forall f isl,
      (forall i, is_ok (f i) = true) ->
      exists isl', sol_update_pareto_front C f isl = Ok isl'
}.

(** ** A small concrete engine

    Genomes are integers.  A predictor [p] scores a solution [s] as [p * s],
    except that the solution [13] cannot be scored; the exact fitness of [s]
    is [s].  A generation evaluates every member once and marks it
    current. *)

Module Toy.

Definition fit_func (p s : Z) : float :=
  if (s =? 13)%Z then Float.NaN else Float.of_Z (p * s).

Definition evaluate_fitness (s : Z) : float := Float.of_Z s.

Definition complexity (_ : Z) : float := Float.of_Z 1.

(** Call the fitness function on every member, stopping at the first
    exception. *)
Fixpoint evaluate_all {G V : Type} (f : indv G -> result V)
    (l : list (indv G)) : result (list (indv G)) :=
  match l with
  | [] => Ok []
  | i :: tl =>
      _ <- f i ;;
      tl' <- evaluate_all f tl ;;
      Ok ({| genome := genome i; fit_set := true |} :: tl')
  end.

Definition evaluate_island {G V : Type} (f : indv G -> result V)
    (isl : Island G unit) : result (Island G unit) :=
  p <- evaluate_all f (pop isl) ;;
  Ok {| pop := p; age := age isl;
        fitness_evals := fitness_evals isl + len p; hidden := tt |}.

Definition generational_step {G V : Type} (f : indv G -> result V)
    (isl : Island G unit) : result (Island G unit) :=
  isl' <- evaluate_island f isl ;;
  Ok {| pop := pop isl'; age := age isl' + 1;
        fitness_evals := fitness_evals isl'; hidden := tt |}.

Definition best_indv {G V : Type} (f : indv G -> result V)
    (isl : Island G unit) : result (indv G * Island G unit) :=
  isl' <- evaluate_island f isl ;;
  best <- getitem (pop isl') 0 ;;
  Ok (best, isl').

Definition load (g : Z) : indv Z := {| genome := g; fit_set := false |}.

Definition collab : Collaborators Z Z Z Z unit :=
  mkCollab fit_func evaluate_fitness complexity
    (generational_step (V := float * float))
    (fun _ isl => Ok isl)
    (generational_step (V := float))
    (best_indv (V := float))
    (@genome Z) load (@genome Z) load.

Definition island_of (genomes : list Z) (flag : bool) (age evals : Z)
  : Island Z unit :=
  {| pop := map (fun g => {| genome := g; fit_set := flag |}) genomes;
     age := age; fitness_evals := evals; hidden := tt |}.

(** Two solutions, two predictors, one trainer whose stored exact fitness
    is its own: [evaluate_fitness 7 = 7]. *)
Definition one_trainer : CoevolutionIsland Z Z unit :=
  {| solution_island := island_of [2; 3] true 0 4;
     predictor_island := island_of [1; 2] true 0 4;
     trainers := [{| genome := 7; fit_set := false |}];
     trainers_true_fitness := [Float.of_Z 7];
     best_predictor := {| genome := 9; fit_set := true |};
     predictor_ratio := Float.Fin (1 # 10)%Q;
     predictor_update_freq := 50;
     trainer_update_freq := 50;
     predictor_to_solution_eval_cost := 1;
     solution_fitness_function := SolutionFitnessEst |}.

(** The scheduling scenario: four trainers, a trainer update every 50
    generations; the ages of the two islands are free. *)
Definition scenario (solution_age predictor_age : Z)
  : CoevolutionIsland Z Z unit :=
  {| solution_island := island_of [2; 3] true solution_age 4;
     predictor_island := island_of [1; 2] true predictor_age 4;
     trainers := map load [100; 101; 102; 103];
     trainers_true_fitness := map Float.of_Z [100; 101; 102; 103];
     best_predictor := {| genome := 1; fit_set := true |};
     predictor_ratio := Float.Fin (1 # 10)%Q;
     predictor_update_freq := 50;
     trainer_update_freq := 50;
     predictor_to_solution_eval_cost := 4;
     solution_fitness_function := SolutionFitnessEst |}.

(** A state whose only trainer is the solution no predictor can score. *)
Definition unscorable_trainer : CoevolutionIsland Z Z unit :=
  {| solution_island := island_of [13; 2] true 0 4;
     predictor_island := island_of [1; 2] true 0 4;
     trainers := [load 13];
     trainers_true_fitness := [Float.of_Z 13];
     best_predictor := {| genome := 1; fit_set := true |};
     predictor_ratio := Float.Fin (1 # 10)%Q;
     predictor_update_freq := 50;
     trainer_update_freq := 50;
     predictor_to_solution_eval_cost := 1;
     solution_fitness_function := SolutionFitnessEst |}.

(** The two islands as the constructor finds them: nothing evaluated yet.
    The first solution cannot be scored. *)
Definition fresh_solutions : Island Z unit := island_of [13; 2; 3] false 0 0.
Definition fresh_predictors : Island Z unit := island_of [1; 2] false 0 0.

(** A state whose predictors are behind on the budget (ratio 1/26 against
    a target of 1/10), with a trainer update due, a solution and a trainer
    that no predictor can score. *)
Definition behind : CoevolutionIsland Z Z unit :=
  {| solution_island := island_of [13; 2; 3] true 49 100;
     predictor_island := island_of [1; 2] true 49 1;
     trainers := map load [13; 101; 102; 103];
     trainers_true_fitness := map Float.of_Z [13; 101; 102; 103];
     best_predictor := {| genome := 1; fit_set := true |};
     predictor_ratio := Float.Fin (1 # 10)%Q;
     predictor_update_freq := 50;
     trainer_update_freq := 50;
     predictor_to_solution_eval_cost := 4;
     solution_fitness_function := SolutionFitnessEst |}.

End Toy.

(** ** Further notions used by the properties below *)

(** A trainer as the constructor accepts it: a member of the solution
    population, stored with its own exact fitness, which is a number, and
    scored with a number by every predictor of the given island. *)
Definition legal_pair (GS GP DS DP X : Type)
    (C : Collaborators GS GP DS DP X) (sisl : Island GS X)
    (pisl : Island GP X) (trainer : indv GS) (true_fitness : float) : Prop :=
  In trainer (pop sisl)
  /\ true_fitness = evaluate_fitness C (genome trainer)
  /\ Float.isnan true_fitness = false
  /\ forall pred, In pred (pop pisl) ->
       Float.isnan (fit_func C (genome pred) (genome trainer)) = false.

(** The two trainer lists are in step. *)
Definition in_step (GS GP X : Type) (st : CoevolutionIsland GS GP X) : Prop :=
  length (trainers st) = length (trainers_true_fitness st).

(** Python's [==] on floats: the sentinel equals nothing. *)
Definition float_eqb (a b : float) : bool :=
  match a, b with
  | Float.Fin x, Float.Fin y => Qeq_bool x y
  | _, _ => false
  end.

(** More concrete states. *)
Module Cases.

(** A solution island whose only member no predictor can score. *)
Definition hopeless_solutions : Island Z unit := Toy.island_of [13] false 0 0.

End Cases.

(** A state on which the predictor loop can run: both populations and the
    trainer list inhabited, a usable trainer update frequency, a positive
    cost ratio, and solution evaluations already counted. *)
Definition loop_ready (GS GP X : Type) (st : CoevolutionIsland GS GP X)
  : Prop :=
  pop (solution_island st) <> []
  /\ pop (predictor_island st) <> []
  /\ trainers st <> []
  /\ trainer_update_freq st <> 0
  /\ 0 < predictor_to_solution_eval_cost st
  /\ 0 <= fitness_evals (predictor_island st)
  /\ 0 < fitness_evals (solution_island st).

Module Greedy.

(** [Toy.behind] with a target ratio of 2: more than all the budget for
    the predictors. *)
Definition all_for_predictors : CoevolutionIsland Z Z unit :=
  {| solution_island := solution_island Toy.behind;
     predictor_island := predictor_island Toy.behind;
     trainers := trainers Toy.behind;
     trainers_true_fitness := trainers_true_fitness Toy.behind;
     best_predictor := best_predictor Toy.behind;
     predictor_ratio := Float.Fin 2;
     predictor_update_freq := 50;
     trainer_update_freq := 50;
     predictor_to_solution_eval_cost := 4;
     solution_fitness_function := SolutionFitnessEst |}.

(** A state on which nothing has been evaluated yet. *)
Definition nothing_evaluated : CoevolutionIsland Z Z unit :=
  {| solution_island := Toy.island_of [2; 3] false 0 0;
     predictor_island := Toy.island_of [1; 2] false 0 0;
     trainers := trainers Toy.one_trainer;
     trainers_true_fitness := trainers_true_fitness Toy.one_trainer;
     best_predictor := best_predictor Toy.one_trainer;
     predictor_ratio := Float.Fin (1 # 10)%Q;
     predictor_update_freq := 50;
     trainer_update_freq := 50;
     predictor_to_solution_eval_cost := 1;
     solution_fitness_function := SolutionFitnessEst |}.

End Greedy.

(** * bingo/Util/ProbabilityMassFunction.py

    The weights live in numpy arrays, whose arithmetic never raises: a
    division by zero gives an infinity or nan.  [Np.t] is numpy's float64
    with exact rationals for the finite values (no rounding, no signed
    zero).  Weights that are not numbers (the [TypeError] of
    [_calculate_total_weight]) are excluded by the type of the weights;
    [draw_sample], a call of [np.random.choice], is not modelled. *)

Module Np.

Inductive t : Type :=
| NaN
| PInf
| NInf
| Fin (q : Q).

(** [q < 0] *)
Definition negative (q : Q) : bool := negb (Qle_bool 0 q).

Definition add (a b : t) : t :=
  match a, b with
  | NaN, _ | _, NaN => NaN
  | PInf, NInf | NInf, PInf => NaN
  | PInf, _ | _, PInf => PInf
  | NInf, _ | _, NInf => NInf
  | Fin x, Fin y => Fin (x + y)
  end.

Definition mul (a b : t) : t :=
  match a, b with
  | NaN, _ | _, NaN => NaN
  | Fin x, Fin y => Fin (x * y)
  | Fin x, PInf | PInf, Fin x =>
      if Qeq_bool x 0 then NaN else if negative x then NInf else PInf
  | Fin x, NInf | NInf, Fin x =>
      if Qeq_bool x 0 then NaN else if negative x then PInf else NInf
  | PInf, PInf | NInf, NInf => PInf
  | PInf, NInf | NInf, PInf => NInf
  end.

Definition div (a b : t) : t :=
  match a, b with
  | NaN, _ | _, NaN => NaN
  | Fin x, Fin y =>
      if Qeq_bool y 0
      then if Qeq_bool x 0 then NaN else if negative x then NInf else PInf
      else Fin (x / y)
  | Fin _, PInf | Fin _, NInf => Fin 0
  | PInf, Fin y => if negative y then NInf else PInf
  | NInf, Fin y => if negative y then PInf else NInf
  | PInf, PInf | PInf, NInf | NInf, PInf | NInf, NInf => NaN
  end.

(** [a < b] *)
Definition ltb (a b : t) : bool :=
  match a, b with
  | NaN, _ | _, NaN => false
  | NInf, NInf => false
  | NInf, _ => true
  | _, NInf => false
  | PInf, _ => false
  | Fin _, PInf => true
  | Fin x, Fin y => negb (Qle_bool y x)
  end.

(** [np.sum]; in exact arithmetic the order of the additions is
    immaterial. *)
Fixpoint sum (l : list t) : t :=
  match l with
  | [] => Fin 0
  | x :: tl => add x (sum tl)
  end.

(** [np.minimum]: nan wins. *)
Definition min2 (a b : t) : t :=
  match a, b with
  | NaN, _ | _, NaN => NaN
  | _, _ => if ltb b a then b else a
  end.

(** [np.min] of a non-empty array, given as head and tail. *)
Definition min (x : t) (tl : list t) : t := fold_left min2 tl x.

(** [np.isclose(a, 1.0)] with the default tolerances:
    [|a - 1| <= atol + rtol * |1|], false off the finite values. *)
Definition rtol : Q := 1 # 100000.
Definition atol : Q := 1 # 100000000.

Definition isclose_one (a : t) : bool :=
  match a with
  | Fin q => Qle_bool (Qabs (q - 1)) (atol + rtol * Qabs 1)
  | _ => false
  end.

Definition finite (a : t) : bool :=
  match a with Fin _ => true | _ => false end.

(** The same value: the same non-finite value, or equal rationals. *)
Definition same (a b : t) : Prop :=
  match a, b with
  | Fin x, Fin y => (x == y)%Q
  | NaN, NaN | PInf, PInf | NInf, NInf => True
  | _, _ => False
  end.

End Np.

Module PMF.

(** An argument of [__init__]: omitted ([None]), something with a length
    that is not a string, or anything else. *)
Inductive param (A : Type) : Type :=
| Omitted
| Listlike (l : list A)
| Unsized.

Arguments Omitted {A}.
Arguments Listlike {A} l.
Arguments Unsized {A}.

(** The outcome of a call that can only raise [ValueError]. *)
Inductive built (A : Type) : Type :=
| Done (a : A)
| RaiseValueError.

Arguments Done {A} a.
Arguments RaiseValueError {A}.

Definition and_then {A B : Type} (m : built A) (k : A -> built B) : built B :=
  match m with
  | Done a => k a
  | RaiseValueError => RaiseValueError
  end.

(** The attributes of the object. *)
Record t (A : Type) : Type := mk {
  items : list A;
  total_weight : Np.t;
  normalized_weights : list Np.t
}.

Definition is_init_param_listlike {A : Type} (init_param : param A)
  : built (list A) :=
  match init_param with
  | Listlike l => Done l
  | Omitted | Unsized => RaiseValueError
  end.

Definition get_default_weights {A : Type} (items : list A) : list Np.t :=
  let n_items := len items in
  if 0 <? n_items
  then repeat (Np.Fin (1 / inject_Z n_items)) (length items)
  else [].

Definition is_weights_same_size_as_items {A : Type} (items : list A)
    (weights : list Np.t) : built unit :=
  if len weights =? len items then Done tt else RaiseValueError.

Definition calculate_total_weight (weights : list Np.t) : Np.t :=
  Np.sum weights.

Definition check_valid_weights (normalized_weights : list Np.t)
  : built unit :=
  match normalized_weights with
  | [] => Done tt
  | x :: tl =>
      if negb (Np.isclose_one (Np.sum normalized_weights))
         || Np.ltb (Np.min x tl) (Np.Fin 0)
      then RaiseValueError
      else Done tt
  end.

Definition normalize_weights (weights : list Np.t)
  : built (Np.t * list Np.t) :=
  let total_weight := calculate_total_weight weights in
  let normalized_weights := map (fun w => Np.div w total_weight) weights in
  and_then (check_valid_weights normalized_weights)
    (fun _ => Done (total_weight, normalized_weights)).

(** [__init__] *)
Definition init {A : Type} (items : param A) (weights : param Np.t)
  : built (t A) :=
  let items := match items with Omitted => Listlike [] | p => p end in
  and_then (is_init_param_listlike items) (fun items =>
  let weights := match weights with
                 | Omitted => Listlike (get_default_weights items)
                 | p => p
                 end in
  and_then (is_init_param_listlike weights) (fun weights =>
  and_then (is_weights_same_size_as_items items weights) (fun _ =>
  and_then (normalize_weights weights) (fun tn =>
  Done {| items := items;
          total_weight := fst tn;
          normalized_weights := snd tn |})))).

Definition get_mean_current_weight {A : Type} (self : t A) : Np.t :=
  if len (normalized_weights self) =? 0 then Np.Fin 1
  else Np.div (total_weight self)
         (Np.Fin (inject_Z (len (normalized_weights self)))).

(** What [self.items] is.  [__init__] keeps the very object the caller
    passed (a fresh list when [items] was omitted), and any object with a
    length that is not a string passes its check: a Python list, which has
    an [append] method, or another sized object such as a tuple or an
    array, which has none.  [items] of the record is its content. *)
Inductive container : Type :=
| PyList
| OtherSized.

(** The outcome of [add_item]: the object as the call leaves it, after a
    normal return, after [ValueError] or after [AttributeError]. *)
Inductive mutation (A : Type) : Type :=
| Updated (self : t A)
| Failed (self : t A)
| NoAppend (self : t A).

Arguments Updated {A} self.
Arguments Failed {A} self.
Arguments NoAppend {A} self.

(** [add_item]: [self.items.append] comes first and raises
    [AttributeError] when the stored object has no such method; the
    weights are replaced only if the enlarged weights pass
    [_normalize_weights]. *)
Definition add_item {A : Type} (stored : container) (self : t A)
    (new_item : A) (new_weight : option Np.t) : mutation A :=
  match stored with
  | OtherSized => NoAppend self
  | PyList =>
      let items := items self ++ [new_item] in
      let new_weight := match new_weight with
                        | None => get_mean_current_weight self
                        | Some w => w
                        end in
      let weights :=
        map (Np.mul (total_weight self)) (normalized_weights self)
        ++ [new_weight] in
      match normalize_weights weights with
      | Done (total, normalized) =>
          Updated {| items := items;
                     total_weight := total;
                     normalized_weights := normalized |}
      | RaiseValueError =>
          Failed {| items := items;
                    total_weight := total_weight self;
                    normalized_weights := normalized_weights self |}
      end
  end.

End PMF.

(** The sum of a list of rationals. *)
Fixpoint qsum (l : list Q) : Q :=
  match l with
  | [] => 0
  | x :: tl => x + qsum tl
  end.

(** An object in its intended state: the total weight is a positive
    number, the normalized weights are numbers, none negative, summing to
    1, one per item. *)
Definition pmf_sound (A : Type) (self : PMF.t A) (total : Q)
    (probabilities : list Q) : Prop :=
  PMF.total_weight self = Np.Fin total
  /\ (0 < total)%Q
  /\ PMF.normalized_weights self = map Np.Fin probabilities
  /\ Forall (fun r => 0 <= r)%Q probabilities
  /\ (qsum probabilities == 1)%Q
  /\ length (PMF.items self) = length probabilities.

(** * Properties *)

(** ** The result monad and the Python primitives *)

Lemma bind_ok_inv (A B : Type) (m : result A) (k : A -> result B) (b : B) :
  bind m k = Ok b -> exists a, m = Ok a /\ k a = Ok b.
Proof.
  destruct m as [a | e]; simpl; intros H.
  - exists a. split; [reflexivity | exact H].
  - discriminate H.
Qed.

(** Split a hypothesis [x <- m ;; k = Ok b] into its two halves. *)
Ltac bind_inv H :=
  let a := fresh "a" in
  let Ha := fresh "Hm" in
  apply bind_ok_inv in H; destruct H as (a & Ha & H).

Lemma pymod_ok (a b : Z) : b <> 0 -> pymod a b = Ok (a mod b).
Proof.
  intros Hb. unfold pymod.
  destruct (Z.eqb_spec b 0) as [E | _]; [contradiction | reflexivity].
Qed.

Lemma floordiv_ok (a b : Z) : b <> 0 -> floordiv a b = Ok (a / b).
Proof.
  intros Hb. unfold floordiv.
  destruct (Z.eqb_spec b 0) as [E | _]; [contradiction | reflexivity].
Qed.

Lemma pymod_inv (a b m : Z) : pymod a b = Ok m -> b <> 0 /\ m = a mod b.
Proof.
  unfold pymod. destruct (Z.eqb_spec b 0) as [E | N]; intros H.
  - discriminate H.
  - injection H as <-. split; [exact N | reflexivity].
Qed.

Lemma floordiv_inv (a b q : Z) : floordiv a b = Ok q -> b <> 0 /\ q = a / b.
Proof.
  unfold floordiv. destruct (Z.eqb_spec b 0) as [E | N]; intros H.
  - discriminate H.
  - injection H as <-. split; [exact N | reflexivity].
Qed.

Lemma replace_nth_length (A : Type) (l : list A) (n : nat) (v : A) :
  length (replace_nth l n v) = length l.
Proof.
  revert n. induction l as [| a l IH]; intros [| n]; simpl; auto.
Qed.

Lemma setitem_ok (A : Type) (l : list A) (i : Z) (v : A) :
  0 <= i < len l -> setitem l i v = Ok (replace_nth l (Z.to_nat i) v).
Proof.
  intros [H0 H1]. unfold setitem.
  assert (Hneg : (i <? 0) = false) by (apply Z.ltb_ge; lia).
  assert (Hge : (len l <=? i) = false) by (apply Z.leb_gt; lia).
  rewrite Hneg. cbv zeta. rewrite Hneg, Hge. reflexivity.
Qed.

Lemma getitem_0 (A : Type) (a : A) (l : list A) : getitem (a :: l) 0 = Ok a.
Proof. reflexivity. Qed.

(** ** [add_new_trainer] *)

Section AddNewTrainer.

Variables GS GP DS DP X : Type.
Variable C : Collaborators GS GP DS DP X.

(** What a successful call does: only the trainer list is touched, at the
    one computed location. *)
Lemma add_new_trainer_inv (st st' : CoevolutionIsland GS GP X) :
  add_new_trainer C st = Ok st' ->
  exists s_best location,
    choose_trainer C st = Ok s_best
    /\ trainer_location st = Ok location
    /\ 0 <= location < len (trainers st)
    /\ st' = set_trainers st
               (replace_nth (trainers st) (Z.to_nat location) s_best).
Proof.
  unfold add_new_trainer. intros H.
  bind_inv H. rename a into s_best.
  bind_inv H. rename a into location.
  bind_inv H. rename a into t.
  injection H as <-.
  exists s_best, location.
  assert (Hloc : 0 <= location < len (trainers st)).
  { unfold trainer_location in Hm0. bind_inv Hm0.
    apply pymod_inv in Hm0 as [Hlen ->].
    apply Z.mod_pos_bound. unfold len in *. lia. }
  rewrite (setitem_ok _ _ Hloc) in Hm1. injection Hm1 as <-.
  repeat split; try assumption; lia.
Qed.

(** The parallel list of exact fitness values is never written. *)
Lemma add_new_trainer_true_fitness (st st' : CoevolutionIsland GS GP X) :
  add_new_trainer C st = Ok st' ->
  trainers_true_fitness st' = trainers_true_fitness st.
Proof.
  intros H. apply add_new_trainer_inv in H as (s & loc & _ & _ & _ & ->).
  reflexivity.
Qed.

Lemma add_new_trainer_islands (st st' : CoevolutionIsland GS GP X) :
  add_new_trainer C st = Ok st' ->
  solution_island st' = solution_island st
  /\ predictor_island st' = predictor_island st
  /\ best_predictor st' = best_predictor st.
Proof.
  intros H. apply add_new_trainer_inv in H as (s & loc & _ & _ & _ & ->).
  repeat split.
Qed.

Lemma add_new_trainer_length (st st' : CoevolutionIsland GS GP X) :
  add_new_trainer C st = Ok st' ->
  length (trainers st') = length (trainers st).
Proof.
  intros H. apply add_new_trainer_inv in H as (s & loc & _ & _ & _ & ->).
  simpl. apply replace_nth_length.
Qed.

End AddNewTrainer.

(** C1.  On [Toy.one_trainer] the scan picks the solution [3] (the two
    predictors disagree most on it) and writes it to slot [0]; the exact
    fitness stored for that slot stays [7], the value of the trainer that
    was there, whereas the exact fitness of [3] is [3]: the slot's fitness
    is stale after the call. *)
Theorem C1_add_new_trainer_keeps_old_fitness :
  exists st',
    add_new_trainer Toy.collab Toy.one_trainer = Ok st'
    /\ map (@genome Z) (trainers st') = [3]
    /\ trainers_true_fitness st' = [Float.of_Z 7]
    /\ map (solution_fitness_true Toy.collab) (trainers st') = [Float.of_Z 3]
    /\ Float.same (Float.of_Z 7) (Float.of_Z 3) = false.
Proof.
  eexists. split; [vm_compute; reflexivity |].
  repeat split.
Qed.

Section Scheduler.

Variables GS GP DS DP X : Type.
Variable C : Collaborators GS GP DS DP X.

Lemma choose_trainer_returns (st : CoevolutionIsland GS GP X) :
  pop (solution_island st) <> [] ->
  exists s_best, choose_trainer C st = Ok s_best.
Proof.
  unfold choose_trainer. destruct (pop (solution_island st)) as [| a tl].
  - intros H. contradiction H. reflexivity.
  - intros _. rewrite getitem_0. simpl. eexists. reflexivity.
Qed.

Lemma trainer_location_ok (st : CoevolutionIsland GS GP X) :
  trainer_update_freq st <> 0 -> trainers st <> [] ->
  trainer_location st
  = Ok ((age (solution_island st) / trainer_update_freq st)
        mod len (trainers st)).
Proof.
  intros Hf Ht. unfold trainer_location.
  rewrite (floordiv_ok _ Hf). simpl. apply pymod_ok.
  unfold len. destruct (trainers st); [contradiction Ht; reflexivity |].
  simpl. lia.
Qed.

(** [add_new_trainer] returns on every state with a solution to pick, a
    non-zero update frequency and a slot to write. *)
Lemma add_new_trainer_returns (st : CoevolutionIsland GS GP X) :
  pop (solution_island st) <> [] ->
  trainer_update_freq st <> 0 ->
  trainers st <> [] ->
  exists s_best,
    choose_trainer C st = Ok s_best
    /\ add_new_trainer C st
       = Ok (set_trainers st
               (replace_nth (trainers st)
                  (Z.to_nat ((age (solution_island st)
                              / trainer_update_freq st)
                             mod len (trainers st)))
                  s_best)).
Proof.
  intros Hp Hf Ht.
  destruct (choose_trainer_returns st Hp) as [s_best Hs].
  exists s_best. split; [exact Hs |].
  unfold add_new_trainer. rewrite Hs. simpl.
  rewrite (trainer_location_ok st Hf Ht). simpl.
  rewrite setitem_ok; [reflexivity |].
  apply Z.mod_pos_bound. unfold len.
  destruct (trainers st); [contradiction Ht; reflexivity | simpl; lia].
Qed.

Lemma clear_flags_all_false (G : Type) (isl : Island G X) :
  Forall (fun i => fit_set i = false) (pop (clear_flags isl)).
Proof.
  unfold clear_flags. simpl. apply Forall_forall. intros i Hi.
  apply in_map_iff in Hi as (j & <- & _). reflexivity.
Qed.

Lemma update_trainers_due (st : CoevolutionIsland GS GP X) :
  trainer_update_freq st <> 0 ->
  (age (predictor_island st) + 1) mod trainer_update_freq st = 0 ->
  update_trainers C st
  = (st' <- add_new_trainer C st ;;
     Ok (set_predictor_island st' (clear_flags (predictor_island st')))).
Proof.
  intros Hf Hm. unfold update_trainers.
  rewrite (pymod_ok _ Hf). simpl. rewrite Hm. reflexivity.
Qed.

Lemma update_trainers_not_due (st : CoevolutionIsland GS GP X) :
  trainer_update_freq st <> 0 ->
  (age (predictor_island st) + 1) mod trainer_update_freq st <> 0 ->
  update_trainers C st = Ok st.
Proof.
  intros Hf Hm. unfold update_trainers.
  rewrite (pymod_ok _ Hf). simpl.
  destruct (Z.eqb_spec ((age (predictor_island st) + 1)
                        mod trainer_update_freq st) 0) as [E | _];
    [contradiction | reflexivity].
Qed.

End Scheduler.

(** C6.  With four trainers and a trainer update every 50 generations, the
    scheduler of [generational_step] replaces a trainer exactly when the
    predictor island's age plus one is a multiple of 50 (ages 49, 99, 149,
    199, ...).  The slot written is [(solution age // 50) % 4] for the
    solution island's age at that moment: slot 0, 1, 2, 3 when that age is
    49, 99, 149, 199. *)
Theorem C6_scheduler_slots (GS GP DS DP X : Type)
    (C : Collaborators GS GP DS DP X) (st : CoevolutionIsland GS GP X) :
  trainer_update_freq st = 50 ->
  length (trainers st) = 4%nat ->
  pop (solution_island st) <> [] ->
  let slot := (age (solution_island st) / 50) mod 4 in
  ((age (predictor_island st) + 1) mod 50 <> 0 ->
   update_trainers C st = Ok st)
  /\ (exists s_best,
        choose_trainer C st = Ok s_best
        /\ add_new_trainer C st
           = Ok (set_trainers st
                   (replace_nth (trainers st) (Z.to_nat slot) s_best))
        /\ ((age (predictor_island st) + 1) mod 50 = 0 ->
            update_trainers C st
            = Ok (set_predictor_island
                    (set_trainers st
                       (replace_nth (trainers st) (Z.to_nat slot) s_best))
                    (clear_flags (predictor_island st)))))
  /\ (age (solution_island st) = 49 -> slot = 0)
  /\ (age (solution_island st) = 99 -> slot = 1)
  /\ (age (solution_island st) = 149 -> slot = 2)
  /\ (age (solution_island st) = 199 -> slot = 3).
Proof.
  intros Hf Hlen Hpop slot.
  assert (Hf0 : trainer_update_freq st <> 0) by lia.
  assert (Ht : trainers st <> []).
  { intros E. rewrite E in Hlen. discriminate Hlen. }
  split; [| split].
  - intros Hm. apply update_trainers_not_due; [exact Hf0 |].
    rewrite Hf. exact Hm.
  - destruct (add_new_trainer_returns C st Hpop Hf0 Ht) as (s & Hs & Ha).
    unfold len in Ha. rewrite Hf, Hlen in Ha. change (Z.of_nat 4) with 4 in Ha.
    exists s. split; [exact Hs |]. split; [exact Ha |].
    intros Hm. rewrite update_trainers_due; [| exact Hf0 | rewrite Hf; exact Hm].
    rewrite Ha. reflexivity.
  - subst slot. repeat split; intros ->; reflexivity.
Qed.

Lemma C6_scheduler_slots_witness :
  let st := Toy.scenario 99 49 in
  exists s_best,
    choose_trainer Toy.collab st = Ok s_best
    /\ update_trainers Toy.collab st
       = Ok (set_predictor_island
               (set_trainers st (replace_nth (trainers st) 1 s_best))
               (clear_flags (predictor_island st))).
Proof.
  intros st.
  destruct (@C6_scheduler_slots _ _ _ _ _ Toy.collab st)
    as (_ & (s & Hs & _ & Hu) & _).
  - reflexivity.
  - reflexivity.
  - discriminate.
  - exists s. split; [exact Hs |]. apply Hu. reflexivity.
Defined.

(** C6, the claim as stated fails: at age 49 (both islands) the scheduler
    fires and the trainer written is the one in slot 0, not slot 1. *)
Lemma C6_age_49_writes_slot_0 :
  let st := Toy.scenario 49 49 in
  (age (predictor_island st) + 1) mod trainer_update_freq st = 0
  /\ trainer_location st = Ok 0
  /\ trainer_location st <> Ok 1
  /\ exists st',
       update_trainers Toy.collab st = Ok st'
       /\ map (@genome Z) (trainers st) = [100; 101; 102; 103]
       /\ map (@genome Z) (trainers st') = [3; 101; 102; 103].
Proof.
  cbv zeta. split; [reflexivity |]. split; [reflexivity |].
  split; [discriminate |].
  eexists. split; [vm_compute; reflexivity |]. split; reflexivity.
Qed.

(** ** Clearing of the "fitness is current" flags *)

Section Flags.

Variables GS GP DS DP X : Type.
Variable C : Collaborators GS GP DS DP X.

Lemma update_best_predictor_due (st : CoevolutionIsland GS GP X) :
  predictor_update_freq st <> 0 ->
  (age (solution_island st) + 1) mod predictor_update_freq st = 0 ->
  update_best_predictor C st
  = (' (best, isl) <- pred_best_indv C (predictor_fitness C st)
                        (predictor_island st) ;;
     Ok (set_solution_island
           (set_best_predictor (set_predictor_island st isl) (copy best))
           (clear_flags (solution_island st)))).
Proof.
  intros Hf Hm. unfold update_best_predictor.
  rewrite (pymod_ok _ Hf). simpl. rewrite Hm. reflexivity.
Qed.

Lemma update_best_predictor_not_due (st : CoevolutionIsland GS GP X) :
  predictor_update_freq st <> 0 ->
  (age (solution_island st) + 1) mod predictor_update_freq st <> 0 ->
  update_best_predictor C st = Ok st.
Proof.
  intros Hf Hm. unfold update_best_predictor.
  rewrite (pymod_ok _ Hf). simpl.
  destruct (Z.eqb_spec ((age (solution_island st) + 1)
                        mod predictor_update_freq st) 0) as [E | _];
    [contradiction | reflexivity].
Qed.

Lemma load_populations_inv (st st' : CoevolutionIsland GS GP X)
    (pop_lists : list DS * list DP * list (DS * float)) (replace : bool) :
  load_populations C st pop_lists replace = Ok st' ->
  exists best isl,
    pred_best_indv C
      (predictor_fitness C (load_containers C st pop_lists replace))
      (predictor_island (load_containers C st pop_lists replace))
    = Ok (best, isl)
    /\ st' = set_best_predictor
               (set_predictor_island
                  (load_containers C st pop_lists replace) isl)
               best.
Proof.
  unfold load_populations. intros H. bind_inv H.
  destruct a as [best isl]. injection H as <-.
  exists best, isl. split; [exact Hm | reflexivity].
Qed.

End Flags.

(** The two replacements of the cache side by side.  The scheduled refresh
    of [generational_step] replaces the cached best predictor and then
    clears the flag of every solution, before the solution island is
    stepped.  [load_populations] recomputes the cache as its last statement
    and has no such loop: the solution island it leaves is the one
    [Island.load_population] produced. *)
Theorem C2_scheduled_refresh_clears_solution_flags
    (GS GP DS DP X : Type) (C : Collaborators GS GP DS DP X)
    (st : CoevolutionIsland GS GP X) :
  (forall best isl,
      predictor_update_freq st <> 0 ->
      (age (solution_island st) + 1) mod predictor_update_freq st = 0 ->
      pred_best_indv C (predictor_fitness C st) (predictor_island st)
      = Ok (best, isl) ->
      exists st2,
        update_best_predictor C st = Ok st2
        /\ best_predictor st2 = best
        /\ Forall (fun i => fit_set i = false) (pop (solution_island st2))
        /\ map (@genome GS) (pop (solution_island st2))
           = map (@genome GS) (pop (solution_island st)))
  /\ (forall pop_lists replace st',
        load_populations C st pop_lists replace = Ok st' ->
        solution_island st'
        = island_load_population (sol_load C) (solution_island st)
            (fst (fst pop_lists)) replace).
Proof.
  split.
  - intros best isl Hf Hm Hb. eexists. split.
    + rewrite (update_best_predictor_due C st Hf Hm), Hb. reflexivity.
    + split; [reflexivity |]. split.
      * apply clear_flags_all_false.
      * simpl. rewrite map_map. reflexivity.
  - intros [[sl pl] tl] replace st' H.
    apply load_populations_inv in H as (b & i & _ & ->). reflexivity.
Qed.

Lemma C2_scheduled_refresh_clears_solution_flags_witness :
  exists st2,
    update_best_predictor Toy.collab (Toy.scenario 49 0) = Ok st2
    /\ genome (best_predictor st2) = 1
    /\ Forall (fun i => fit_set i = false) (pop (solution_island st2)).
Proof.
  destruct (@C2_scheduled_refresh_clears_solution_flags _ _ _ _ _
              Toy.collab (Toy.scenario 49 0)) as (Hrefresh & _).
  destruct (Hrefresh {| genome := 1; fit_set := true |}
              (Toy.island_of [1; 2] true 0 6))
    as (st2 & Hu & Hb & Hf & _).
  - discriminate.
  - reflexivity.
  - vm_compute. reflexivity.
  - exists st2. split; [exact Hu |]. split; [| exact Hf].
    rewrite Hb. reflexivity.
Defined.

(** C2.  [load_populations] replaces the cached best predictor without
    the clearing loop that the scheduled refresh of [generational_step] and
    [use_true_fitness] run.  Loading an empty snapshot in append mode, where
    the engine has nothing to load, replaces the cache (genome 9 before,
    the population's best after) while both solutions keep their flag
    set. *)
Lemma C2_load_populations_clears_no_flag :
  exists st',
    load_populations Toy.collab Toy.one_trainer ([], [], []) false = Ok st'
    /\ genome (best_predictor Toy.one_trainer) = 9
    /\ genome (best_predictor st') = 1
    /\ map (@fit_set Z) (pop (solution_island st')) = [true; true].
Proof.
  eexists. split; [vm_compute; reflexivity |]. repeat split.
Qed.

(** C3.  A call of [add_new_trainer] does not touch the predictor island,
    so the predictors keep their flags.  When the scheduler of
    [generational_step] makes the call, it clears the flag of every
    predictor right after it, and the predictor island is stepped from
    that state. *)
Theorem C3_scheduled_trainer_update_clears_predictor_flags
    (GS GP DS DP X : Type) (C : Collaborators GS GP DS DP X)
    (st st' : CoevolutionIsland GS GP X) :
  add_new_trainer C st = Ok st' ->
  predictor_island st' = predictor_island st
  /\ (trainer_update_freq st <> 0 ->
      (age (predictor_island st) + 1) mod trainer_update_freq st = 0 ->
      exists st1,
        update_trainers C st = Ok st1
        /\ trainers st1 = trainers st'
        /\ Forall (fun i => fit_set i = false) (pop (predictor_island st1))
        /\ predictor_iteration C st = predictor_step C st1).
Proof.
  intros Ha. split.
  - apply (add_new_trainer_islands C st Ha).
  - intros Hf Hm. eexists. split.
    + rewrite (update_trainers_due C st Hf Hm), Ha. reflexivity.
    + split; [reflexivity |]. split.
      * apply clear_flags_all_false.
      * unfold predictor_iteration.
        rewrite (update_trainers_due C st Hf Hm), Ha. reflexivity.
Qed.

Lemma C3_scheduled_trainer_update_clears_predictor_flags_witness :
  exists st1,
    update_trainers Toy.collab (Toy.scenario 49 49) = Ok st1
    /\ map (@genome Z) (trainers st1) = [3; 101; 102; 103]
    /\ Forall (fun i => fit_set i = false) (pop (predictor_island st1)).
Proof.
  destruct (@C3_scheduled_trainer_update_clears_predictor_flags _ _ _ _ _
              Toy.collab (Toy.scenario 49 49)
              (set_trainers (Toy.scenario 49 49)
                 ({| genome := 3; fit_set := true |}
                  :: map Toy.load [101; 102; 103])))
    as (_ & H).
  - vm_compute. reflexivity.
  - destruct H as (st1 & Hu & Ht & Hf & _).
    + discriminate.
    + reflexivity.
    + exists st1. split; [exact Hu |]. split; [| exact Hf].
      rewrite Ht. reflexivity.
Defined.

(** C3, the claim as stated fails on a direct call: [add_new_trainer]
    replaces the trainer in slot 0 and both predictors keep their flag
    set. *)
Lemma C3_direct_add_new_trainer_clears_no_flag :
  exists st',
    add_new_trainer Toy.collab Toy.one_trainer = Ok st'
    /\ map (@genome Z) (trainers Toy.one_trainer) = [7]
    /\ map (@genome Z) (trainers st') = [3]
    /\ map (@fit_set Z) (pop (predictor_island st')) = [true; true].
Proof.
  eexists. split; [vm_compute; reflexivity |]. repeat split.
Qed.

(** ** Float arithmetic *)

Lemma ltb_nan_r (a : float) : Float.ltb a Float.NaN = false.
Proof. destruct a; reflexivity. Qed.

Lemma ltb_lt (x y : Q) :
  Float.ltb (Float.Fin x) (Float.Fin y) = true <-> (x < y)%Q.
Proof.
  simpl. rewrite negb_true_iff. split; intros H.
  - apply Qnot_le_lt. intros Hle. apply Qle_bool_iff in Hle. congruence.
  - destruct (Qle_bool y x) eqn:E; [| reflexivity].
    apply Qle_bool_iff in E. exfalso. exact (Qlt_not_le _ _ H E).
Qed.

Lemma add_nan_r (a : float) : Float.add a Float.NaN = Float.NaN.
Proof. destruct a; reflexivity. Qed.

Lemma fold_add_nan (l : list float) :
  fold_left Float.add l Float.NaN = Float.NaN.
Proof. induction l as [| a l IH]; simpl; [reflexivity | exact IH]. Qed.

(** One entry that is not a number poisons the whole sum. *)
Lemma fold_add_poisoned (l : list float) (z : float) :
  existsb Float.isnan l = true -> fold_left Float.add l z = Float.NaN.
Proof.
  revert z. induction l as [| a l IH]; simpl; intros z H.
  - discriminate H.
  - destruct a as [| q]; simpl in H.
    + rewrite add_nan_r. apply fold_add_nan.
    + apply IH. exact H.
Qed.

(** A sum of non-negative numbers is a non-negative number. *)
Lemma fold_add_nonneg (l : list float) (q0 : Q) :
  (0 <= q0)%Q ->
  Forall (fun x => exists q, x = Float.Fin q /\ (0 <= q)%Q) l ->
  exists q, fold_left Float.add l (Float.Fin q0) = Float.Fin q /\ (0 <= q)%Q.
Proof.
  revert q0. induction l as [| a l IH]; simpl; intros q0 H0 Hl.
  - exists q0. split; [reflexivity | exact H0].
  - inversion Hl as [| ? ? (q & -> & Hq) Hl']; subst.
    simpl. apply IH; [| exact Hl'].
    rewrite <- (Qplus_0_r 0). apply Qplus_le_compat; assumption.
Qed.

Lemma of_Z_pos_not_zero (n : Z) :
  n <> 0 -> Float.is_zero (Float.of_Z n) = false.
Proof.
  intros Hn. unfold Float.of_Z, Float.is_zero.
  destruct (Qeq_bool (inject_Z n) 0) eqn:E; [| reflexivity].
  apply Qeq_bool_iff in E. exfalso. apply Hn.
  unfold Qeq in E. simpl in E. lia.
Qed.

Lemma len_nonempty (A : Type) (l : list A) : l <> [] -> 0 < len l.
Proof.
  unfold len. destruct l; [intros H; contradiction H; reflexivity |].
  intros _. simpl. lia.
Qed.

(** ** [predictor_fitness] *)

Section PredictorFitness.

Variables GS GP DS DP X : Type.
Variable C : Collaborators GS GP DS DP X.

(** The loop of [predictor_fitness] adds up the absolute errors, in the
    order of the trainers. *)
Lemma accumulated_error (predictor : indv GP)
    (l : list (indv GS * float)) (z : float) :
  fold_left (accumulate_error C predictor) l z
  = fold_left Float.add
      (map (fun e : indv GS * float =>
              Float.abs (Float.sub (snd e)
                           (fit_func C (genome predictor) (genome (fst e)))))
           l)
      z.
Proof.
  revert z. induction l as [| [train true_fit] l IH]; intros z; simpl.
  - reflexivity.
  - apply IH.
Qed.

Lemma absolute_errors_length (st : CoevolutionIsland GS GP X)
    (predictor : indv GP) :
  length (trainers st) = length (trainers_true_fitness st) ->
  length (absolute_errors C st predictor) = length (trainers st).
Proof.
  intros Hlen. unfold absolute_errors.
  rewrite length_map, length_combine, <- Hlen. apply Nat.min_id.
Qed.

Lemma predictor_fitness_empty (st : CoevolutionIsland GS GP X)
    (predictor : indv GP) :
  trainers st = [] ->
  predictor_fitness C st predictor = Raise ZeroDivisionError.
Proof.
  intros E. unfold predictor_fitness, predictor_fitness_on.
  rewrite E. reflexivity.
Qed.

Lemma predictor_fitness_nonempty (st : CoevolutionIsland GS GP X)
    (predictor : indv GP) :
  trainers st <> [] ->
  predictor_fitness C st predictor
  = Ok (Float.div
          (Float.sum
             (map (fun e : indv GS * float =>
                     Float.abs
                       (Float.sub (snd e)
                          (fit_func C (genome predictor) (genome (fst e)))))
                  (combine (trainers st) (trainers_true_fitness st))))
          (Float.of_Z (len (trainers st)))).
Proof.
  intros Ht. unfold predictor_fitness, predictor_fitness_on, truediv.
  rewrite of_Z_pos_not_zero.
  - rewrite accumulated_error. reflexivity.
  - pose proof (len_nonempty Ht). lia.
Qed.

Lemma predictor_fitness_returns (st : CoevolutionIsland GS GP X) :
  trainers st <> [] ->
  forall predictor, is_ok (predictor_fitness C st predictor) = true.
Proof.
  intros Ht predictor. rewrite (predictor_fitness_nonempty st predictor Ht).
  reflexivity.
Qed.

End PredictorFitness.

(** C7.  For a non-empty trainer set whose two lists have the same length,
    [predictor_fitness] is the arithmetic mean of the absolute errors, one
    term per trainer.  It is at least 0 when every term is a number, and it
    is the not-a-number sentinel as soon as one term is. *)
Theorem C7_predictor_fitness_mean_absolute_error
    (GS GP DS DP X : Type) (C : Collaborators GS GP DS DP X)
    (st : CoevolutionIsland GS GP X) (predictor : indv GP) :
  trainers st <> [] ->
  length (trainers st) = length (trainers_true_fitness st) ->
  predictor_fitness C st predictor
  = Ok (mean_absolute_error C st predictor)
  /\ length (absolute_errors C st predictor) = length (trainers st)
  /\ (existsb Float.isnan (absolute_errors C st predictor) = false ->
      Float.leb Float.zero (mean_absolute_error C st predictor) = true)
  /\ (existsb Float.isnan (absolute_errors C st predictor) = true ->
      mean_absolute_error C st predictor = Float.NaN).
Proof.
  intros Ht Hlen.
  pose proof (absolute_errors_length C st predictor Hlen) as Hn.
  split; [| split; [exact Hn | split]].
  - rewrite (predictor_fitness_nonempty C st predictor Ht).
    unfold mean_absolute_error, arithmetic_mean, len.
    rewrite Hn. reflexivity.
  - intros Hnan.
    unfold mean_absolute_error, arithmetic_mean, Float.sum, Float.zero.
    destruct (fold_add_nonneg (l := absolute_errors C st predictor) (q0 := 0))
      as (q & -> & Hq).
    + apply Qle_refl.
    + apply Forall_forall. intros x Hx.
      assert (Hxn : Float.isnan x = false).
      { destruct (Float.isnan x) eqn:E; [| reflexivity].
        assert (existsb Float.isnan (absolute_errors C st predictor) = true)
          by (apply existsb_exists; exists x; split; assumption).
        congruence. }
      unfold absolute_errors in Hx.
      apply in_map_iff in Hx as (e & <- & _).
      destruct (Float.sub (snd e) (fit_func C (genome predictor)
                                     (genome (fst e)))) as [| d] eqn:Ed;
        simpl in Hxn.
      * discriminate Hxn.
      * exists (Qabs d). split; [reflexivity | apply Qabs_nonneg].
    + simpl. apply Qle_bool_iff.
      apply Qmult_le_0_compat; [exact Hq |].
      apply Qinv_le_0_compat. unfold Qle. simpl. unfold len. lia.
  - intros Hnan. unfold mean_absolute_error, arithmetic_mean, Float.sum.
    rewrite (fold_add_poisoned _ _ Hnan). reflexivity.
Qed.

Lemma C7_predictor_fitness_mean_absolute_error_witness :
  predictor_fitness Toy.collab Toy.one_trainer (Toy.load 2)
  = Ok (mean_absolute_error Toy.collab Toy.one_trainer (Toy.load 2))
  /\ Float.leb Float.zero
       (mean_absolute_error Toy.collab Toy.one_trainer (Toy.load 2)) = true.
Proof.
  destruct (@C7_predictor_fitness_mean_absolute_error _ _ _ _ _
              Toy.collab Toy.one_trainer (Toy.load 2))
    as (Hm & _ & Hpos & _).
  - discriminate.
  - reflexivity.
  - split; [exact Hm | apply Hpos; reflexivity].
Defined.

(** C7, the claim as stated fails: a predictor that cannot score the
    trainer gets the sentinel as its fitness, and the sentinel is not
    greater than or equal to 0. *)
Lemma C7_nan_estimate_is_not_nonnegative :
  fit_func Toy.collab 1 13 = Float.NaN
  /\ predictor_fitness Toy.collab Toy.unscorable_trainer (Toy.load 1)
     = Ok Float.NaN
  /\ Float.leb Float.zero Float.NaN = false.
Proof. repeat split. Qed.

(** ** Selection by index *)

Lemma mem_true_iff (i : Z) (subset : list Z) :
  mem i subset = true <-> In i subset.
Proof.
  unfold mem. rewrite existsb_exists. split.
  - intros (x & Hx & E). apply Z.eqb_eq in E. subst. exact Hx.
  - intros H. exists i. split; [exact H | apply Z.eqb_refl].
Qed.

Lemma mem_range (i n : Z) : mem i (range n) = true <-> 0 <= i < n.
Proof.
  rewrite mem_true_iff. unfold range. rewrite in_map_iff. split.
  - intros (k & <- & Hk). apply in_seq in Hk. lia.
  - intros H. exists (Z.to_nat i). split; [lia | apply in_seq; lia].
Qed.

Lemma enumerate_from_index (A : Type) (l : list A) (start i : Z) (a : A) :
  In (i, a) (enumerate_from start l) -> start <= i < start + len l.
Proof.
  revert start. unfold len.
  induction l as [| b l IH]; simpl; intros start H.
  - contradiction.
  - destruct H as [E | H].
    + injection E as <- _. lia.
    + apply IH in H. lia.
Qed.

Lemma enumerate_from_snd (A : Type) (l : list A) (start : Z) :
  map snd (enumerate_from start l) = l.
Proof.
  revert start. induction l as [| a l IH]; simpl; intros start.
  - reflexivity.
  - rewrite IH. reflexivity.
Qed.

Lemma filter_all (A : Type) (f : A -> bool) (l : list A) :
  (forall x, In x l -> f x = true) -> filter f l = l.
Proof.
  induction l as [| a l IH]; simpl; intros H.
  - reflexivity.
  - rewrite (H a (or_introl eq_refl)), IH; [reflexivity |].
    intros x Hx. apply H. right. exact Hx.
Qed.

Lemma filter_none (A : Type) (f : A -> bool) (l : list A) :
  (forall x, In x l -> f x = false) -> filter f l = [].
Proof.
  induction l as [| a l IH]; simpl; intros H.
  - reflexivity.
  - rewrite (H a (or_introl eq_refl)). apply IH.
    intros x Hx. apply H. right. exact Hx.
Qed.

(** Selecting every position gives the list back. *)
Lemma select_indices_all (A : Type) (l : list A) :
  select_indices l (range (len l)) = l.
Proof.
  unfold select_indices, enumerate. rewrite filter_all.
  - apply enumerate_from_snd.
  - intros [i a] Hi. apply enumerate_from_index in Hi.
    apply mem_range. simpl. lia.
Qed.

(** Removing every position leaves nothing. *)
Lemma remove_indices_all (A : Type) (l : list A) :
  remove_indices l (range (len l)) = [].
Proof.
  unfold remove_indices, enumerate. rewrite filter_none; [reflexivity |].
  intros [i a] Hi. apply enumerate_from_index in Hi.
  apply negb_false_iff, mem_range. simpl. lia.
Qed.

(** ** [dump_populations] and [load_populations] *)

Section Snapshots.

Variables GS GP DS DP X : Type.
Variable C : Collaborators GS GP DS DP X.

Lemma dump_populations_trainers (st : CoevolutionIsland GS GP X)
    (s_subset p_subset t_subset : option (list Z)) (with_removal : bool) :
  let subset := match t_subset with
                | None => range (len (trainers st))
                | Some s => s
                end in
  let st' := snd (dump_populations C st s_subset p_subset t_subset
                    with_removal) in
  trainers st'
  = (if with_removal then remove_indices (trainers st) subset
     else trainers st)
  /\ trainers_true_fitness st'
     = (if with_removal
        then remove_indices (trainers_true_fitness st) subset
        else trainers_true_fitness st).
Proof.
  unfold dump_populations, island_dump_population.
  destruct with_removal; simpl; split; reflexivity.
Qed.

End Snapshots.

(** C10.  [predictor_fitness] returns a value on every state with at least
    one trainer and raises [ZeroDivisionError] on every state with none.
    Such a state is reached by [dump_populations] with removal of all
    trainer indices (the default subset, or all indices spelled out) and by
    [load_populations] replacing the trainers with an empty list. *)
Theorem C10_predictor_fitness_division
    (GS GP DS DP X : Type) (C : Collaborators GS GP DS DP X)
    (st : CoevolutionIsland GS GP X) (predictor : indv GP) :
  (trainers st <> [] ->
   exists v, predictor_fitness C st predictor = Ok v)
  /\ (trainers st = [] ->
      predictor_fitness C st predictor = Raise ZeroDivisionError)
  /\ (forall s_subset p_subset,
        trainers (snd (dump_populations C st s_subset p_subset None true))
        = []
        /\ trainers
             (snd (dump_populations C st s_subset p_subset
                     (Some (range (len (trainers st)))) true))
           = [])
  /\ (forall solution_list predictor_list,
        trainers (load_containers C st (solution_list, predictor_list, [])
                    true) = []
        /\ forall st',
             load_populations C st (solution_list, predictor_list, []) true
             = Ok st' ->
             trainers st' = []).
Proof.
  split; [| split; [| split]].
  - intros Ht. eexists. apply (predictor_fitness_nonempty C st predictor Ht).
  - apply predictor_fitness_empty.
  - intros s_subset p_subset. split.
    + destruct (dump_populations_trainers C st s_subset p_subset None true)
        as [-> _].
      apply remove_indices_all.
    + destruct (dump_populations_trainers C st s_subset p_subset
                  (Some (range (len (trainers st)))) true) as [-> _].
      apply remove_indices_all.
  - intros solution_list predictor_list. split; [reflexivity |].
    intros st' H. apply load_populations_inv in H as (b & i & _ & ->).
    reflexivity.
Qed.

Lemma C10_predictor_fitness_division_witness :
  (exists v,
     predictor_fitness Toy.collab Toy.one_trainer (Toy.load 2) = Ok v)
  /\ predictor_fitness Toy.collab
       (snd (dump_populations Toy.collab Toy.one_trainer None None None true))
       (Toy.load 2)
     = Raise ZeroDivisionError.
Proof.
  split.
  - apply (C10_predictor_fitness_division Toy.collab Toy.one_trainer
             (Toy.load 2)).
    discriminate.
  - apply (C10_predictor_fitness_division Toy.collab
             (snd (dump_populations Toy.collab Toy.one_trainer
                     None None None true))
             (Toy.load 2)).
    reflexivity.
Defined.

(** ** The frame of the predictor loop *)

Section Frame.

Variables GS GP DS DP X : Type.
Variable C : Collaborators GS GP DS DP X.

Lemma same_frame_refl (st : CoevolutionIsland GS GP X) : same_frame st st.
Proof. repeat split. Qed.

Lemma same_frame_trans (st1 st2 st3 : CoevolutionIsland GS GP X) :
  same_frame st1 st2 -> same_frame st2 st3 -> same_frame st1 st3.
Proof.
  unfold same_frame.
  intros (A1 & A2 & A3 & A4 & A5 & A6 & A7 & A8)
         (B1 & B2 & B3 & B4 & B5 & B6 & B7 & B8).
  repeat split; congruence.
Qed.

Lemma add_new_trainer_frame (st st' : CoevolutionIsland GS GP X) :
  add_new_trainer C st = Ok st' -> same_frame st st'.
Proof.
  intros H. apply add_new_trainer_inv in H as (s & loc & _ & _ & _ & ->).
  unfold same_frame. simpl. rewrite replace_nth_length. repeat split.
Qed.

Lemma update_trainers_frame (st st' : CoevolutionIsland GS GP X) :
  update_trainers C st = Ok st' -> same_frame st st'.
Proof.
  unfold update_trainers. intros H. bind_inv H.
  destruct (a =? 0).
  - bind_inv H. injection H as <-.
    apply add_new_trainer_frame in Hm0. exact Hm0.
  - injection H as <-. apply same_frame_refl.
Qed.

Lemma predictor_step_frame (st st' : CoevolutionIsland GS GP X) :
  predictor_step C st = Ok st' ->
  same_frame st st' /\ trainers st' = trainers st.
Proof.
  unfold predictor_step. intros H. bind_inv H. injection H as <-.
  unfold same_frame. repeat split.
Qed.

Lemma predictor_iteration_frame (st st' : CoevolutionIsland GS GP X) :
  predictor_iteration C st = Ok st' -> same_frame st st'.
Proof.
  unfold predictor_iteration. intros H. bind_inv H.
  apply update_trainers_frame in Hm.
  apply predictor_step_frame in H as [H _].
  exact (same_frame_trans Hm H).
Qed.

Lemma evolve_predictors_frame (fuel : nat)
    (st st' : CoevolutionIsland GS GP X) :
  evolve_predictors C fuel st = Some (Ok st') -> same_frame st st'.
Proof.
  revert st. induction fuel as [| fuel IH]; simpl; intros st H.
  - discriminate H.
  - destruct (current_ratio st) as [r | e]; [| discriminate H].
    destruct (Float.ltb r (predictor_ratio st)).
    + destruct (predictor_iteration C st) as [st1 | e] eqn:E;
        [| discriminate H].
      apply predictor_iteration_frame in E. apply IH in H.
      exact (same_frame_trans E H).
    + injection H as <-. apply same_frame_refl.
Qed.

Lemma update_best_predictor_trainers (st st' : CoevolutionIsland GS GP X) :
  update_best_predictor C st = Ok st' ->
  trainers st' = trainers st
  /\ trainers_true_fitness st' = trainers_true_fitness st.
Proof.
  unfold update_best_predictor. intros H. bind_inv H.
  destruct (a =? 0).
  - bind_inv H. destruct a0 as [best isl]. injection H as <-.
    split; reflexivity.
  - injection H as <-. split; reflexivity.
Qed.

Lemma solution_step_trainers (st st' : CoevolutionIsland GS GP X) :
  solution_step C st = Ok st' ->
  trainers st' = trainers st
  /\ trainers_true_fitness st' = trainers_true_fitness st.
Proof.
  unfold solution_step. intros H. bind_inv H. bind_inv H.
  injection H as <-. split; reflexivity.
Qed.

Lemma generational_step_inv (fuel : nat)
    (st st' : CoevolutionIsland GS GP X) :
  generational_step C fuel st = Some (Ok st') ->
  exists st1 st2,
    evolve_predictors C fuel st = Some (Ok st1)
    /\ update_best_predictor C st1 = Ok st2
    /\ solution_step C st2 = Ok st'.
Proof.
  unfold generational_step. intros H.
  destruct (evolve_predictors C fuel st) as [[st1 | e] |];
    [| discriminate H | discriminate H].
  injection H as H. bind_inv H.
  exists st1, a. repeat split; assumption.
Qed.

Lemma generational_step_length (fuel : nat)
    (st st' : CoevolutionIsland GS GP X) :
  generational_step C fuel st = Some (Ok st') ->
  length (trainers st') = length (trainers st)
  /\ length (trainers_true_fitness st')
     = length (trainers_true_fitness st).
Proof.
  intros H. apply generational_step_inv in H as (st1 & st2 & H1 & H2 & H3).
  apply evolve_predictors_frame in H1 as (_ & L1 & F1 & _).
  apply update_best_predictor_trainers in H2 as [L2 F2].
  apply solution_step_trainers in H3 as [L3 F3].
  split; congruence.
Qed.

(** Each turn of the construction loop appends one trainer and one exact
    fitness. *)
Lemma init_trainers_length (sisl : Island GS X) (pisl : Island GP X)
    (n : nat) (draws : list Z) (acc : list (indv GS) * list float)
    (ts : list (indv GS)) (fs : list float) :
  init_trainers C sisl pisl n draws acc = Some (Ok (ts, fs)) ->
  length ts = (length (fst acc) + n)%nat
  /\ length fs = (length (snd acc) + n)%nat.
Proof.
  revert draws acc. induction n as [| n IH]; simpl; intros draws acc H.
  - injection H as ->. simpl. split; lia.
  - destruct (find_legal_trainer C sisl pisl draws)
      as [[[[ind true_fitness] rest] | e] |];
      [| discriminate H | discriminate H].
    destruct (getitem (pop sisl) ind) as [sol | e]; [| discriminate H].
    apply IH in H. simpl in H. rewrite !length_app in H. simpl in H. lia.
Qed.

Lemma init_inv (sisl : Island GS X) (pisl : Island GP X)
    (ratio : float) (p_freq size t_freq : Z) (draws : list Z)
    (st : CoevolutionIsland GS GP X) :
  init C sisl pisl ratio p_freq size t_freq draws = Some (Ok st) ->
  length (trainers st) = Z.to_nat size
  /\ length (trainers_true_fitness st) = Z.to_nat size
  /\ predictor_to_solution_eval_cost st = len (trainers st).
Proof.
  unfold init. intros H.
  destruct (init_trainers C sisl pisl (Z.to_nat size) draws ([], []))
    as [[[ts fs] | e] |] eqn:E; [| discriminate H | discriminate H].
  injection H as H. bind_inv H. destruct a as [best isl].
  injection H as <-. simpl.
  apply init_trainers_length in E as [E1 E2]. simpl in E1, E2.
  repeat split; assumption.
Qed.

End Frame.

(** C8.  Construction leaves exactly [trainer_pop_size] trainers.
    [add_new_trainer], [generational_step] and [dump_populations] without
    removal keep that number.  [dump_populations] with removal deletes the
    trainers at the dumped positions, and [load_populations] leaves as many
    trainers as the snapshot holds, on top of the old ones in append
    mode. *)
Theorem C8_trainer_set_length
    (GS GP DS DP X : Type) (C : Collaborators GS GP DS DP X) :
  (forall sisl pisl ratio p_freq size t_freq draws st,
      0 <= size ->
      init C sisl pisl ratio p_freq size t_freq draws = Some (Ok st) ->
      len (trainers st) = size)
  /\ (forall st st',
        add_new_trainer C st = Ok st' ->
        length (trainers st') = length (trainers st))
  /\ (forall fuel st st',
        generational_step C fuel st = Some (Ok st') ->
        length (trainers st') = length (trainers st))
  /\ (forall st s_subset p_subset t_subset,
        trainers (snd (dump_populations C st s_subset p_subset t_subset
                         false))
        = trainers st)
  /\ (forall st s_subset p_subset t_subset,
        trainers (snd (dump_populations C st s_subset p_subset
                         (Some t_subset) true))
        = remove_indices (trainers st) t_subset)
  /\ (forall st solution_list predictor_list trainer_list replace st',
        load_populations C st (solution_list, predictor_list, trainer_list)
          replace = Ok st' ->
        length (trainers st')
        = ((if replace then 0 else length (trainers st))
           + length trainer_list)%nat).
Proof.
  repeat apply conj.
  - intros sisl pisl ratio p_freq size t_freq draws st Hsize H.
    apply init_inv in H as (H & _). unfold len. rewrite H. lia.
  - intros st st'. apply add_new_trainer_length.
  - intros fuel st st' H. apply (generational_step_length C fuel st H).
  - intros st s_subset p_subset t_subset.
    apply (dump_populations_trainers C st s_subset p_subset t_subset false).
  - intros st s_subset p_subset t_subset.
    apply (dump_populations_trainers C st s_subset p_subset (Some t_subset)
             true).
  - intros st sl pl tl replace st' H.
    apply load_populations_inv in H as (b & i & _ & ->). simpl.
    rewrite length_app, length_map. destruct replace; reflexivity.
Qed.

Lemma C8_trainer_set_length_witness :
  (exists st,
     init Toy.collab Toy.fresh_solutions Toy.fresh_predictors
       (Float.Fin (1 # 10)%Q) 50 2 50 [0; 1; 2] = Some (Ok st)
     /\ len (trainers st) = 2)
  /\ (exists st',
        add_new_trainer Toy.collab (Toy.scenario 0 0) = Ok st'
        /\ length (trainers st') = 4%nat).
Proof.
  pose proof (@C8_trainer_set_length _ _ _ _ _ Toy.collab)
    as (Hinit & Hadd & _).
  split.
  - eexists. split.
    + vm_compute. reflexivity.
    + apply (Hinit Toy.fresh_solutions Toy.fresh_predictors
               (Float.Fin (1 # 10)%Q) 50 2 50 [0; 1; 2]);
        [lia | vm_compute; reflexivity].
  - eexists. split.
    + vm_compute. reflexivity.
    + rewrite (Hadd (Toy.scenario 0 0)); [reflexivity |].
      vm_compute. reflexivity.
Defined.

(** C8, the claim as stated fails: dumping with removal of the trainers at
    positions 1 and 3 leaves two of the four trainers, and loading a
    snapshot with one trainer leaves one. *)
Lemma C8_removal_and_load_change_length :
  let st := Toy.scenario 0 0 in
  length (trainers st) = 4%nat
  /\ map (@genome Z)
       (trainers (snd (dump_populations Toy.collab st (Some []) (Some [])
                         (Some [1; 3]) true)))
     = [100; 102]
  /\ exists st',
       load_populations Toy.collab st ([2; 3], [1; 2], [(7, Float.of_Z 7)])
         true = Ok st'
       /\ map (@genome Z) (trainers st') = [7].
Proof.
  cbv zeta. split; [reflexivity |]. split; [reflexivity |].
  eexists. split; [vm_compute; reflexivity | reflexivity].
Qed.

(** ** The concrete engine honours the contract *)

Lemma evaluate_all_returns (G V : Type) (f : indv G -> result V)
    (l : list (indv G)) :
  (forall i, is_ok (f i) = true) ->
  exists l', Toy.evaluate_all f l = Ok l' /\ length l' = length l.
Proof.
  intros Hf. induction l as [| i l (l' & IH & Hlen)]; simpl.
  - exists []. split; reflexivity.
  - specialize (Hf i). destruct (f i) as [v | e]; [| discriminate Hf].
    simpl. rewrite IH. simpl. eexists. split; [reflexivity |].
    simpl. rewrite Hlen. reflexivity.
Qed.

Lemma evaluate_all_genomes (G V : Type) (f : indv G -> result V)
    (l l' : list (indv G)) :
  Toy.evaluate_all f l = Ok l' -> map (@genome G) l' = map (@genome G) l.
Proof.
  revert l'. induction l as [| i l IH]; simpl; intros l' H.
  - injection H as <-. reflexivity.
  - bind_inv H. bind_inv H. injection H as <-.
    simpl. rewrite (IH _ Hm0). reflexivity.
Qed.

Lemma evaluate_island_returns (G V : Type) (f : indv G -> result V)
    (isl : Island G unit) :
  (forall i, is_ok (f i) = true) ->
  exists isl',
    Toy.evaluate_island f isl = Ok isl'
    /\ length (pop isl') = length (pop isl)
    /\ fitness_evals isl' = fitness_evals isl + len (pop isl).
Proof.
  intros Hf. unfold Toy.evaluate_island.
  destruct (evaluate_all_returns f (pop isl) Hf) as (l' & -> & Hlen).
  simpl. eexists. split; [reflexivity |]. simpl.
  split; [exact Hlen |]. unfold len. rewrite Hlen. reflexivity.
Qed.

Lemma length_nonempty (A : Type) (l l' : list A) :
  length l' = length l -> l <> [] -> l' <> [].
Proof.
  intros Hlen Hl E. subst l'. destruct l; [contradiction Hl; reflexivity |].
  discriminate Hlen.
Qed.

Lemma toy_contract : engine_contract Toy.collab.
Proof.
  constructor; simpl.
  - intros f isl Hpop Hf. unfold Toy.generational_step.
    destruct (evaluate_island_returns f isl Hf) as (isl' & -> & Hlen & He).
    simpl. eexists. split; [reflexivity |]. simpl. split.
    + exact (length_nonempty Hlen Hpop).
    + rewrite He. pose proof (len_nonempty Hpop). lia.
  - intros f isl Hpop Hf. unfold Toy.best_indv.
    destruct (evaluate_island_returns f isl Hf) as (isl' & -> & Hlen & _).
    simpl. pose proof (length_nonempty Hlen Hpop) as Hne.
    destruct (pop isl') as [| b tl] eqn:E; [contradiction Hne; reflexivity |].
    rewrite getitem_0. simpl. eexists. eexists. reflexivity.
  - intros f isl best isl' H. unfold Toy.best_indv in H.
    bind_inv H. bind_inv H. injection H as _ <-.
    unfold Toy.evaluate_island in Hm. bind_inv Hm. injection Hm as <-.
    simpl. apply (evaluate_all_genomes _ _ Hm1).
  - intros f isl Hf. unfold Toy.generational_step.
    destruct (evaluate_island_returns f isl Hf) as (isl' & -> & _).
    simpl. eexists. reflexivity.
  - intros f isl _. eexists. reflexivity.
Qed.

(** ** The dump and load round trip *)

Lemma combine_fst (A B : Type) (l : list A) (l' : list B) :
  length l = length l' -> map fst (combine l l') = l.
Proof.
  revert l'. induction l as [| a l IH]; intros [| b l'] H; simpl in *;
    try reflexivity; try discriminate H.
  rewrite IH; [reflexivity | lia].
Qed.

Lemma combine_snd (A B : Type) (l : list A) (l' : list B) :
  length l = length l' -> map snd (combine l l') = l'.
Proof.
  revert l'. induction l as [| a l IH]; intros [| b l'] H; simpl in *;
    try reflexivity; try discriminate H.
  rewrite IH; [reflexivity | lia].
Qed.

Section RoundTrip.

Variables GS GP DS DP X : Type.
Variable C : Collaborators GS GP DS DP X.

Lemma set_islands_same (st : CoevolutionIsland GS GP X) :
  set_predictor_island (set_solution_island st (solution_island st))
    (predictor_island st) = st.
Proof. destruct st. reflexivity. Qed.

Lemma dump_all_keeps_state (st : CoevolutionIsland GS GP X) :
  snd (dump_populations C st None None None false) = st.
Proof.
  unfold dump_populations, island_dump_population. simpl.
  apply set_islands_same.
Qed.

Lemma dump_all_snapshot (st : CoevolutionIsland GS GP X) :
  length (trainers st) = length (trainers_true_fitness st) ->
  fst (dump_populations C st None None None false)
  = (map (sol_dump C) (pop (solution_island st)),
     map (pred_dump C) (pop (predictor_island st)),
     map (fun e : indv GS * float => (sol_dump C (fst e), snd e))
         (combine (trainers st) (trainers_true_fitness st))).
Proof.
  intros Hlen. unfold dump_populations, island_dump_population. simpl.
  rewrite !select_indices_all.
  replace (len (trainers st))
    with (len (combine (trainers st) (trainers_true_fitness st))).
  - rewrite select_indices_all. reflexivity.
  - unfold len. rewrite length_combine, <- Hlen, Nat.min_id. reflexivity.
Qed.

End RoundTrip.

(** C4.  For a state with at least one trainer and at least one predictor
    whose two trainer lists have the same length: dumping everything
    without removal leaves the state as it is, and loading the snapshot
    with [replace=True], into the dumped island or into any other, returns
    a state with the dumped state's solution genomes, predictor genomes,
    trainer genomes and stored exact fitness values, in the same order.
    The cached best predictor of the result is what [best_indv] returns on
    the restored predictor island, whatever the two caches were before.
    (The gene manipulators are assumed to round-trip genomes and the engine
    to honour its contract.) *)
Theorem C4_dump_load_round_trip
    (GS GP DS DP X : Type) (C : Collaborators GS GP DS DP X)
    (st target : CoevolutionIsland GS GP X) :
  engine_contract C ->
  (forall i, genome (sol_load C (sol_dump C i)) = genome i) ->
  (forall i, genome (pred_load C (pred_dump C i)) = genome i) ->
  length (trainers st) = length (trainers_true_fitness st) ->
  trainers st <> [] ->
  pop (predictor_island st) <> [] ->
  let dumped := dump_populations C st None None None false in
  let restored := load_containers C target (fst dumped) true in
  snd dumped = st
  /\ exists st' best isl,
       load_populations C target (fst dumped) true = Ok st'
       /\ pred_best_indv C (predictor_fitness C restored)
            (predictor_island restored) = Ok (best, isl)
       /\ best_predictor st' = best
       /\ map (@genome GS) (pop (solution_island st'))
          = map (@genome GS) (pop (solution_island st))
       /\ map (@genome GP) (pop (predictor_island st'))
          = map (@genome GP) (pop (predictor_island st))
       /\ map (@genome GS) (trainers st') = map (@genome GS) (trainers st)
       /\ trainers_true_fitness st' = trainers_true_fitness st.
Proof.
  intros HC Hs Hp Hlen Ht Hpop dumped restored.
  assert (Hst : snd dumped = st) by apply dump_all_keeps_state.
  split; [exact Hst |].
  assert (Hsol : map (@genome GS) (pop (solution_island restored))
                 = map (@genome GS) (pop (solution_island st))).
  { subst restored dumped. rewrite (dump_all_snapshot C st Hlen). simpl.
    rewrite !map_map. apply map_ext. exact Hs. }
  assert (Hpred : map (@genome GP) (pop (predictor_island restored))
                  = map (@genome GP) (pop (predictor_island st))).
  { subst restored dumped. rewrite (dump_all_snapshot C st Hlen). simpl.
    rewrite !map_map. apply map_ext. exact Hp. }
  assert (Htr : map (@genome GS) (trainers restored)
                = map (@genome GS) (trainers st)).
  { subst restored dumped. rewrite (dump_all_snapshot C st Hlen). simpl.
    rewrite !map_map. simpl.
    rewrite <- (combine_fst _ _ Hlen) at 2. rewrite map_map.
    apply map_ext. intros e. apply Hs. }
  assert (Hfit : trainers_true_fitness restored = trainers_true_fitness st).
  { subst restored dumped. rewrite (dump_all_snapshot C st Hlen). simpl.
    rewrite map_map. simpl. apply (combine_snd _ _ Hlen). }
  assert (Htne : trainers restored <> []).
  { intros E. rewrite E in Htr. destruct (trainers st);
      [contradiction Ht; reflexivity | discriminate Htr]. }
  assert (Hpne : pop (predictor_island restored) <> []).
  { intros E. rewrite E in Hpred. destruct (pop (predictor_island st));
      [contradiction Hpop; reflexivity | discriminate Hpred]. }
  destruct (best_indv_returns HC (predictor_fitness C restored)
              (predictor_island restored) Hpne
              (predictor_fitness_returns C restored Htne))
    as (best & isl & Hbest).
  exists (set_best_predictor (set_predictor_island restored isl) best),
    best, isl.
  split.
  { unfold load_populations. fold dumped. fold restored.
    rewrite Hbest. reflexivity. }
  split; [exact Hbest |]. split; [reflexivity |].
  split; [exact Hsol |]. split.
  { simpl. rewrite (best_indv_keeps_genomes HC _ _ Hbest). exact Hpred. }
  split; [exact Htr | exact Hfit].
Qed.

Lemma C4_dump_load_round_trip_witness :
  let st := Toy.one_trainer in
  let target := Toy.scenario 7 7 in
  let dumped := dump_populations Toy.collab st None None None false in
  exists st',
    load_populations Toy.collab target (fst dumped) true = Ok st'
    /\ map (@genome Z) (pop (solution_island st')) = [2; 3]
    /\ map (@genome Z) (pop (predictor_island st')) = [1; 2]
    /\ map (@genome Z) (trainers st') = [7]
    /\ trainers_true_fitness st' = [Float.of_Z 7]
    /\ map (@genome Z) (trainers target) = [100; 101; 102; 103]
    /\ genome (best_predictor st) = 9
    /\ genome (best_predictor st') = 1.
Proof.
  intros st target dumped.
  destruct (@C4_dump_load_round_trip _ _ _ _ _ Toy.collab st target)
    as (_ & st' & best & isl & Hload & Hbest & Hb & Hsol & Hpred & Htr & Hfit).
  - exact toy_contract.
  - reflexivity.
  - reflexivity.
  - reflexivity.
  - discriminate.
  - discriminate.
  - exists st'. split; [exact Hload |].
    split; [exact Hsol |]. split; [exact Hpred |].
    split; [exact Htr |]. split; [exact Hfit |].
    split; [reflexivity |]. split; [reflexivity |].
    rewrite Hb. vm_compute in Hbest. injection Hbest as <- _. reflexivity.
Defined.

(** C4, the claim as stated fails on a state without trainers.  Removing
    every trainer of [Toy.one_trainer] ([dump_populations] with empty
    solution and predictor subsets, all trainers and removal) leaves two
    solutions, two predictors and no trainer; the round trip on that state
    raises [ZeroDivisionError] when the cache is recomputed, because
    [predictor_fitness] divides by the number of trainers. *)
Lemma C4_round_trip_raises_without_trainers :
  let st := snd (dump_populations Toy.collab Toy.one_trainer
                   (Some []) (Some []) None true) in
  let dumped := dump_populations Toy.collab st None None None false in
  map (@genome Z) (pop (solution_island st)) = [2; 3]
  /\ map (@genome Z) (pop (predictor_island st)) = [1; 2]
  /\ trainers st = []
  /\ trainers_true_fitness st = []
  /\ snd dumped = st
  /\ load_populations Toy.collab (snd dumped) (fst dumped) true
     = Raise ZeroDivisionError.
Proof.
  vm_compute. repeat split.
Qed.

(** ** The budget ratio *)

Lemma is_zero_of_Z (n : Z) : Float.is_zero (Float.of_Z n) = (n =? 0).
Proof.
  destruct (Z.eqb_spec n 0) as [-> | Hn].
  - reflexivity.
  - apply of_Z_pos_not_zero. exact Hn.
Qed.

Section Ratio.

Variables GS GP X : Type.

Lemma current_ratio_defined (st : CoevolutionIsland GS GP X) :
  ratio_defined st -> current_ratio st = Ok (Float.Fin (spec_ratio st)).
Proof.
  intros [Hc Hd]. unfold current_ratio, truediv.
  rewrite is_zero_of_Z.
  destruct (Z.eqb_spec (predictor_to_solution_eval_cost st) 0) as [E | _];
    [contradiction |].
  simpl.
  destruct (Qeq_bool _ 0) eqn:E.
  - apply Qeq_bool_iff in E. contradiction.
  - reflexivity.
Qed.

Lemma current_ratio_inv (st : CoevolutionIsland GS GP X) (r : float) :
  current_ratio st = Ok r ->
  ratio_defined st /\ r = Float.Fin (spec_ratio st).
Proof.
  unfold current_ratio, truediv. rewrite is_zero_of_Z.
  destruct (Z.eqb_spec (predictor_to_solution_eval_cost st) 0) as [E | Hc];
    [discriminate |].
  simpl.
  destruct (Qeq_bool _ 0) eqn:E; [discriminate |].
  intros H. injection H as <-. split; [| reflexivity].
  split; [exact Hc |]. apply Qeq_bool_neq. exact E.
Qed.

(** When the formula divides by zero the call raises. *)
Lemma current_ratio_undefined (st : CoevolutionIsland GS GP X) :
  ~ ratio_defined st -> current_ratio st = Raise ZeroDivisionError.
Proof.
  intros Hn. destruct (current_ratio st) as [r | e] eqn:E.
  - apply current_ratio_inv in E as [Hd _]. contradiction.
  - revert E. unfold current_ratio, truediv.
    repeat match goal with
           | |- context [if ?b then _ else _] => destruct b; simpl
           end; congruence.
Qed.

End Ratio.

(** ** The predictor loop against its specification *)

Section PredictorLoop.

Variables GS GP DS DP X : Type.
Variable C : Collaborators GS GP DS DP X.

Lemma evolve_predictors_run (fuel : nat)
    (st st' : CoevolutionIsland GS GP X) :
  evolve_predictors C fuel st = Some (Ok st') ->
  exists n, (n < fuel)%nat /\ predictor_run C st n st'.
Proof.
  revert st. induction fuel as [| fuel IH]; simpl; intros st H.
  - discriminate H.
  - destruct (current_ratio st) as [r | e] eqn:Er; [| discriminate H].
    apply current_ratio_inv in Er as [Hd ->].
    fold (below_target st) in H.
    destruct (below_target st) eqn:Eb.
    + destruct (predictor_iteration C st) as [st1 | e] eqn:E;
        [| discriminate H].
      apply IH in H as (n & Hn & Hrun).
      exists (S n). split; [lia |].
      exact (run_step Hd Eb E Hrun).
    + injection H as <-. exists 0%nat. split; [lia |].
      exact (run_stop C Hd Eb).
Qed.

Lemma run_evolve_predictors (n : nat) (st st' : CoevolutionIsland GS GP X) :
  predictor_run C st n st' ->
  forall fuel, (n < fuel)%nat -> evolve_predictors C fuel st = Some (Ok st').
Proof.
  induction 1 as [st Hd Eb | st st1 st2 n Hd Eb E Hrun IH];
    intros [| fuel] Hfuel; try lia; simpl;
    rewrite (current_ratio_defined Hd); fold (below_target st); rewrite Eb.
  - reflexivity.
  - rewrite E. apply IH. lia.
Qed.

Lemma predictor_iteration_inv (st st1 : CoevolutionIsland GS GP X) :
  predictor_iteration C st = Ok st1 ->
  exists st0 isl,
    update_trainers C st = Ok st0
    /\ pred_generational_step C (predictor_fitness C st0)
         (predictor_island st0) = Ok isl
    /\ st1 = set_predictor_island st0 isl.
Proof.
  unfold predictor_iteration, predictor_step. intros H.
  bind_inv H. bind_inv H. injection H as <-.
  exists a, a0. repeat split; assumption.
Qed.

Lemma solution_step_inv (st st2 : CoevolutionIsland GS GP X) :
  solution_step C st = Ok st2 ->
  exists isl isl',
    sol_generational_step C (injected_solution_fitness C st)
      (solution_island st) = Ok isl
    /\ sol_update_pareto_front C (injected_solution_fitness C st) isl
       = Ok isl'
    /\ st2 = set_solution_island st isl'.
Proof.
  unfold solution_step. intros H.
  bind_inv H. bind_inv H. injection H as <-.
  exists a, a0. repeat split; assumption.
Qed.

End PredictorLoop.

(** C5.  [generational_step] computes the ratio by the formula (and raises
    [ZeroDivisionError] where the formula divides by zero), with the cost
    ratio fixed at construction to the number of trainers; it runs
    the predictor engine one generation at a time, testing the recomputed
    ratio before each one, exactly as long as the ratio is strictly below
    the target; then, after the possible refresh of the cache, it runs the
    solution engine for exactly one generation. *)
Theorem C5_generational_step_schedule
    (GS GP DS DP X : Type) (C : Collaborators GS GP DS DP X)
    (st st' : CoevolutionIsland GS GP X) :
  (ratio_defined st ->
   current_ratio st
   = Ok (Float.Fin
           (ratio_formula (fitness_evals (predictor_island st))
              (fitness_evals (solution_island st))
              (predictor_to_solution_eval_cost st))))
  /\ (~ ratio_defined st -> current_ratio st = Raise ZeroDivisionError)
  /\ (forall sisl pisl ratio p_freq size t_freq draws,
        init C sisl pisl ratio p_freq size t_freq draws = Some (Ok st) ->
        predictor_to_solution_eval_cost st = len (trainers st))
  /\ ((exists fuel, generational_step C fuel st = Some (Ok st'))
      <-> (exists n st1 st2,
             predictor_run C st n st1
             /\ update_best_predictor C st1 = Ok st2
             /\ solution_step C st2 = Ok st'))
  /\ (forall st1,
        predictor_iteration C st = Ok st1 ->
        exists st0 isl,
          update_trainers C st = Ok st0
          /\ pred_generational_step C (predictor_fitness C st0)
               (predictor_island st0) = Ok isl
          /\ predictor_island st1 = isl
          /\ solution_island st1 = solution_island st
          /\ predictor_to_solution_eval_cost st1
             = predictor_to_solution_eval_cost st)
  /\ (forall st2,
        solution_step C st = Ok st2 ->
        exists isl,
          sol_generational_step C (injected_solution_fitness C st)
            (solution_island st) = Ok isl
          /\ sol_update_pareto_front C (injected_solution_fitness C st) isl
             = Ok (solution_island st2)
          /\ predictor_island st2 = predictor_island st).
Proof.
  split; [| split; [| split; [| split; [| split]]]].
  - apply current_ratio_defined.
  - apply current_ratio_undefined.
  - intros sisl pisl ratio p_freq size t_freq draws H.
    apply init_inv in H as (_ & _ & H). exact H.
  - split.
    + intros (fuel & H).
      apply generational_step_inv in H as (st1 & st2 & H1 & H2 & H3).
      apply evolve_predictors_run in H1 as (n & _ & Hrun).
      exists n, st1, st2. repeat split; assumption.
    + intros (n & st1 & st2 & Hrun & H2 & H3).
      exists (S n). unfold generational_step.
      rewrite (run_evolve_predictors Hrun (fuel := S n)); [| lia].
      rewrite H2. simpl. rewrite H3. reflexivity.
  - intros st1 H.
    pose proof (predictor_iteration_frame C st H) as (Hs & _ & _ & _ & _ & _ & Hc & _).
    apply predictor_iteration_inv in H as (st0 & isl & H0 & H1 & ->).
    exists st0, isl. repeat split; assumption.
  - intros st2 H. apply solution_step_inv in H as (isl & isl' & H1 & H2 & ->).
    exists isl. repeat split; assumption.
Qed.

Lemma C5_generational_step_schedule_witness :
  exists st',
    generational_step Toy.collab 2 Toy.behind = Some (Ok st')
    /\ age (solution_island st') = 50
    /\ exists n st1 st2,
         predictor_run Toy.collab Toy.behind n st1
         /\ update_best_predictor Toy.collab st1 = Ok st2
         /\ solution_step Toy.collab st2 = Ok st'.
Proof.
  assert (Hstep : exists st',
             generational_step Toy.collab 2 Toy.behind = Some (Ok st')
             /\ age (solution_island st') = 50).
  { eexists. split; [vm_compute; reflexivity | reflexivity]. }
  destruct Hstep as (st' & Hstep & Hage).
  exists st'. split; [exact Hstep |]. split; [exact Hage |].
  apply (@C5_generational_step_schedule _ _ _ _ _ Toy.collab Toy.behind st').
  exists 2%nat. exact Hstep.
Defined.

(** ** Scores that are not a number *)

Lemma sub_nan_r (a : float) : Float.sub a Float.NaN = Float.NaN.
Proof. destruct a; reflexivity. Qed.

(** The variance of scores one of which is the sentinel is the sentinel. *)
Lemma np_var_nan (l : list float) :
  existsb Float.isnan l = true -> np_var l = Float.NaN.
Proof.
  intros H. destruct l as [| a tl]; [discriminate H |].
  unfold np_var. cbv zeta. unfold Float.sum.
  rewrite !(fold_add_poisoned _ Float.zero H).
  change (Float.div Float.NaN (Float.of_Z (len (a :: tl)))) with Float.NaN.
  simpl map. rewrite sub_nan_r. simpl fold_left.
  rewrite fold_add_nan. reflexivity.
Qed.

Section Disqualification.

Variables GS GP DS DP X : Type.
Variable C : Collaborators GS GP DS DP X.

(** A candidate whose variance does not beat the running maximum leaves
    the scan where it was; an undefined variance never beats it. *)
Lemma scan_step_keeps (st : CoevolutionIsland GS GP X)
    (acc : float * indv GS) (sol : indv GS) :
  Float.ltb (fst acc) (variance_of C st sol) = false ->
  scan_step C st acc sol = acc.
Proof.
  destruct acc as [max_variance s_best]. simpl. intros H.
  unfold scan_step. rewrite H. reflexivity.
Qed.

Lemma scan_step_nan (st : CoevolutionIsland GS GP X)
    (acc : float * indv GS) (sol : indv GS) :
  variance_of C st sol = Float.NaN -> scan_step C st acc sol = acc.
Proof.
  intros H. apply scan_step_keeps. rewrite H. apply ltb_nan_r.
Qed.

Lemma scan_default (st : CoevolutionIsland GS GP X)
    (l : list (indv GS)) (acc : float * indv GS) :
  (forall sol, In sol l ->
               Float.ltb (fst acc) (variance_of C st sol) = false) ->
  fold_left (scan_step C st) l acc = acc.
Proof.
  induction l as [| sol l IH]; simpl; intros H.
  - reflexivity.
  - rewrite scan_step_keeps by (apply H; left; reflexivity).
    apply IH. intros s Hs. apply H. right. exact Hs.
Qed.

(** If no candidate has a variance above 0, the first member is chosen. *)
Lemma choose_trainer_default (st : CoevolutionIsland GS GP X)
    (first : indv GS) (rest : list (indv GS)) :
  pop (solution_island st) = first :: rest ->
  (forall sol, In sol (pop (solution_island st)) ->
               Float.ltb (Float.of_Z 0) (variance_of C st sol) = false) ->
  choose_trainer C st = Ok first.
Proof.
  intros Hpop H. unfold choose_trainer. rewrite Hpop at 1.
  rewrite getitem_0. simpl. rewrite scan_default; [reflexivity |].
  exact H.
Qed.

End Disqualification.

(** ** A generational step returns *)

Lemma ratio_bound (p k t : Q) :
  (0 < p + k -> t < 1 -> p / (p + k) < t -> p < t * k / (1 - t))%Q.
Proof.
  intros Hd Ht H.
  assert (Hp : (p < t * (p + k))%Q).
  { apply (Qmult_lt_r _ _ (p + k) Hd) in H.
    assert (E : (p / (p + k) * (p + k) == p)%Q).
    { field. intros E. rewrite E in Hd. apply (Qlt_irrefl 0). exact Hd. }
    rewrite E in H. exact H. }
  apply Qlt_shift_div_l; [lra |]. nra.
Qed.

Lemma inject_Z_pos (c : Z) : 0 < c -> (0 < inject_Z c)%Q.
Proof. intros H. unfold Qlt. simpl. lia. Qed.

Lemma inject_Z_nonneg (s : Z) : 0 <= s -> (0 <= inject_Z s)%Q.
Proof. intros H. unfold Qle. simpl. lia. Qed.

Lemma cost_share_nonneg (s c : Z) :
  0 <= s -> 0 < c -> (0 <= inject_Z s / inject_Z c)%Q.
Proof.
  intros Hs Hc. apply Qle_shift_div_l.
  - apply inject_Z_pos. exact Hc.
  - rewrite Qmult_0_l. apply inject_Z_nonneg. exact Hs.
Qed.

Lemma denominator_pos (p s c : Z) :
  0 <= p -> 0 <= s -> 0 < p + s -> 0 < c ->
  (0 < inject_Z p + inject_Z s / inject_Z c)%Q.
Proof.
  intros Hp Hs Hps Hc.
  pose proof (inject_Z_pos Hc) as Hc'.
  destruct (Z.eq_dec p 0) as [-> | Hp0].
  - rewrite Qplus_0_l. apply Qlt_shift_div_l; [exact Hc' |].
    rewrite Qmult_0_l. apply inject_Z_pos. lia.
  - assert (Hp' : (0 < inject_Z p)%Q) by (apply inject_Z_pos; lia).
    pose proof (cost_share_nonneg Hs Hc). lra.
Qed.

Section Returns.

Variables GS GP DS DP X : Type.
Variable C : Collaborators GS GP DS DP X.
Hypothesis HC : engine_contract C.

Lemma step_ready_ratio_defined (st : CoevolutionIsland GS GP X) :
  step_ready st -> ratio_defined st.
Proof.
  intros (_ & _ & _ & _ & _ & Hc & Hp & Hs & Hps & _).
  split; [lia |]. intros E.
  pose proof (denominator_pos Hp Hs Hps Hc) as H.
  rewrite E in H. exact (Qlt_irrefl 0 H).
Qed.

(** The loop is entered only below [loop_bound]. *)
Lemma below_target_bound (st : CoevolutionIsland GS GP X) :
  step_ready st -> below_target st = true ->
  fitness_evals (predictor_island st) < loop_bound st.
Proof.
  intros (_ & _ & _ & _ & _ & Hc & Hp & Hs & Hps & Ht).
  unfold below_target, loop_bound.
  destruct (predictor_ratio st) as [| t]; [rewrite ltb_nan_r; discriminate |].
  intros H. apply ltb_lt in H. simpl in Ht.
  rewrite Zlt_Qlt. eapply Qlt_le_trans; [| apply Qle_ceiling].
  apply ratio_bound; [| exact Ht | exact H].
  apply denominator_pos; assumption.
Qed.

Lemma loop_bound_frame (st st' : CoevolutionIsland GS GP X) :
  same_frame st st' -> loop_bound st' = loop_bound st.
Proof.
  intros (Hs & _ & _ & Hr & _ & _ & Hc & _). unfold loop_bound.
  rewrite Hs, Hr, Hc. reflexivity.
Qed.

Lemma update_trainers_returns (st : CoevolutionIsland GS GP X) :
  step_ready st ->
  exists st0,
    update_trainers C st = Ok st0
    /\ same_frame st st0
    /\ trainers st0 <> []
    /\ pop (predictor_island st0) <> []
    /\ fitness_evals (predictor_island st0)
       = fitness_evals (predictor_island st).
Proof.
  intros (Hsp & Hpp & Ht & Htf & _).
  destruct (Z.eq_dec ((age (predictor_island st) + 1)
                      mod trainer_update_freq st) 0) as [Hdue | Hnot].
  - destruct (add_new_trainer_returns C st Hsp Htf Ht) as (s & _ & Ha).
    rewrite (update_trainers_due C st Htf Hdue), Ha. simpl.
    eexists. split; [reflexivity |].
    pose proof (add_new_trainer_frame C st Ha) as Hframe.
    split; [exact Hframe |]. simpl. repeat split.
    + apply (length_nonempty (l := trainers st));
        [apply replace_nth_length | exact Ht].
    + apply (length_nonempty (l := pop (predictor_island st)));
        [apply length_map | exact Hpp].
  - rewrite (update_trainers_not_due C st Htf Hnot).
    exists st. split; [reflexivity |]. split; [apply same_frame_refl |].
    repeat split; assumption.
Qed.

Lemma predictor_iteration_returns (st : CoevolutionIsland GS GP X) :
  step_ready st ->
  exists st1,
    predictor_iteration C st = Ok st1
    /\ step_ready st1
    /\ same_frame st st1
    /\ fitness_evals (predictor_island st)
       < fitness_evals (predictor_island st1).
Proof.
  intros Hready.
  destruct (update_trainers_returns Hready)
    as (st0 & Hu & Hframe & Ht0 & Hp0 & He0).
  destruct (pred_step_returns HC (predictor_fitness C st0)
              (predictor_island st0) Hp0
              (predictor_fitness_returns C st0 Ht0))
    as (isl & Hstep & Hpop & Hevals).
  exists (set_predictor_island st0 isl).
  unfold predictor_iteration, predictor_step. rewrite Hu. simpl.
  rewrite Hstep. simpl. split; [reflexivity |].
  destruct Hready as (Hsp & Hpp & Ht & Htf & Hpf & Hc & Hp & Hs & Hps & Hr).
  pose proof Hframe as (Fs & Fl & Ff & Fr & Fp & Ft & Fc & Fm).
  split; [| split].
  - unfold step_ready. simpl. rewrite Fs, Fr, Fp, Ft, Fc.
    repeat split; try assumption; lia.
  - unfold same_frame. simpl. repeat split; assumption.
  - simpl. lia.
Qed.

Lemma evolve_predictors_returns (fuel : nat)
    (st : CoevolutionIsland GS GP X) :
  step_ready st ->
  (Z.to_nat (loop_bound st - fitness_evals (predictor_island st)) < fuel)%nat ->
  exists st', evolve_predictors C fuel st = Some (Ok st') /\ step_ready st'.
Proof.
  revert st. induction fuel as [| fuel IH]; intros st Hready Hfuel.
  - lia.
  - simpl. rewrite (current_ratio_defined (step_ready_ratio_defined Hready)).
    fold (below_target st).
    destruct (below_target st) eqn:Eb.
    + pose proof (below_target_bound Hready Eb) as Hb.
      destruct (predictor_iteration_returns Hready)
        as (st1 & -> & Hready1 & Hframe & Hevals).
      apply IH; [exact Hready1 |].
      rewrite (loop_bound_frame Hframe). lia.
    + exists st. split; [reflexivity | exact Hready].
Qed.

Lemma injected_solution_fitness_returns (st : CoevolutionIsland GS GP X) :
  forall i, is_ok (injected_solution_fitness C st i) = true.
Proof.
  intros i. unfold injected_solution_fitness.
  destruct (solution_fitness_function st); reflexivity.
Qed.

Lemma update_best_predictor_returns (st : CoevolutionIsland GS GP X) :
  step_ready st -> exists st2, update_best_predictor C st = Ok st2.
Proof.
  intros (_ & Hpp & Ht & _ & Hpf & _).
  destruct (Z.eq_dec ((age (solution_island st) + 1)
                      mod predictor_update_freq st) 0) as [Hdue | Hnot].
  - destruct (best_indv_returns HC (predictor_fitness C st)
                (predictor_island st) Hpp
                (predictor_fitness_returns C st Ht))
      as (best & isl & Hb).
    rewrite (update_best_predictor_due C st Hpf Hdue), Hb.
    eexists. reflexivity.
  - rewrite (update_best_predictor_not_due C st Hpf Hnot).
    eexists. reflexivity.
Qed.

Lemma solution_step_returns (st : CoevolutionIsland GS GP X) :
  exists st', solution_step C st = Ok st'.
Proof.
  unfold solution_step.
  destruct (sol_step_returns HC (injected_solution_fitness C st)
              (solution_island st) (injected_solution_fitness_returns st))
    as (isl & ->).
  destruct (pareto_returns HC (injected_solution_fitness C st) isl
              (injected_solution_fitness_returns st))
    as (isl' & Hp).
  simpl. rewrite Hp. eexists. reflexivity.
Qed.

Lemma generational_step_returns (st : CoevolutionIsland GS GP X) :
  step_ready st ->
  exists fuel st', generational_step C fuel st = Some (Ok st').
Proof.
  intros Hready.
  set (fuel := S (Z.to_nat (loop_bound st
                            - fitness_evals (predictor_island st)))).
  destruct (evolve_predictors_returns (fuel := fuel) Hready)
    as (st1 & He & Hready1); [subst fuel; lia |].
  destruct (update_best_predictor_returns Hready1) as (st2 & H2).
  destruct (solution_step_returns st2) as (st' & H3).
  exists fuel, st'. unfold generational_step.
  rewrite He, H2. simpl. rewrite H3. reflexivity.
Qed.

End Returns.

(** C9.  On a state ready for a step, with an engine that honours its
    contract, [add_new_trainer] and [generational_step] return whatever the
    predictors score, the sentinel included: the scoring function is
    arbitrary here.  In the scan a sentinel among a candidate's scores
    makes its variance the sentinel, a sentinel variance leaves the running
    maximum and the chosen candidate as they are, and if no candidate has a
    variance above 0 the first member of the population is chosen. *)
Theorem C9_nan_scores_never_raise
    (GS GP DS DP X : Type) (C : Collaborators GS GP DS DP X)
    (st : CoevolutionIsland GS GP X) :
  engine_contract C ->
  step_ready st ->
  (exists st', add_new_trainer C st = Ok st')
  /\ (exists fuel st', generational_step C fuel st = Some (Ok st'))
  /\ (forall sol,
        existsb Float.isnan (pfit_list C st sol) = true ->
        variance_of C st sol = Float.NaN)
  /\ (forall acc sol,
        variance_of C st sol = Float.NaN -> scan_step C st acc sol = acc)
  /\ ((forall sol,
         In sol (pop (solution_island st)) ->
         Float.ltb (Float.of_Z 0) (variance_of C st sol) = false) ->
      exists first rest,
        pop (solution_island st) = first :: rest
        /\ choose_trainer C st = Ok first).
Proof.
  intros HC Hready.
  pose proof Hready as (Hsp & _ & Ht & Htf & _).
  split; [| split; [| split; [| split]]].
  - destruct (add_new_trainer_returns C st Hsp Htf Ht) as (s & _ & Ha).
    eexists. exact Ha.
  - apply (generational_step_returns HC Hready).
  - intros sol H. unfold variance_of. apply np_var_nan. exact H.
  - intros acc sol H. apply scan_step_nan. exact H.
  - intros H. destruct (pop (solution_island st)) as [| first rest] eqn:E;
      [contradiction Hsp; reflexivity |].
    exists first, rest. split; [reflexivity |].
    apply (choose_trainer_default C st E). rewrite E. exact H.
Qed.

Lemma toy_behind_ready : step_ready Toy.behind.
Proof.
  unfold step_ready. simpl.
  repeat split; try discriminate; try lia.
Qed.

Lemma C9_nan_scores_never_raise_witness :
  fit_func Toy.collab 1 13 = Float.NaN
  /\ (exists st', add_new_trainer Toy.collab Toy.behind = Ok st')
  /\ (exists fuel st',
        generational_step Toy.collab fuel Toy.behind = Some (Ok st'))
  /\ variance_of Toy.collab Toy.behind (Toy.load 13) = Float.NaN.
Proof.
  destruct (@C9_nan_scores_never_raise _ _ _ _ _ Toy.collab Toy.behind
              toy_contract toy_behind_ready)
    as (Ha & Hg & Hv & _).
  split; [reflexivity |]. split; [exact Ha |]. split; [exact Hg |].
  apply Hv. reflexivity.
Defined.

(** * Further properties of the island *)

(** ** Construction *)

Lemma getitem_In (A : Type) (l : list A) (i : Z) (a : A) :
  getitem l i = Ok a -> In a l.
Proof.
  unfold getitem. destruct (_ <? 0); [discriminate |].
  destruct (nth_error l _) as [b |] eqn:E; [| discriminate].
  intros H. injection H as <-. exact (nth_error_In _ _ E).
Qed.

Lemma getitem_in_range (A : Type) (l : list A) (i : Z) :
  0 <= i < len l -> exists a, getitem l i = Ok a.
Proof.
  intros [H0 H1]. unfold getitem.
  assert (Hneg : (i <? 0) = false) by (apply Z.ltb_ge; lia).
  rewrite Hneg. cbv zeta. rewrite Hneg.
  destruct (nth_error l (Z.to_nat i)) as [a |] eqn:E.
  - exists a. reflexivity.
  - apply nth_error_None in E. unfold len in H1. lia.
Qed.

Section Construction.

Variables GS GP DS DP X : Type.
Variable C : Collaborators GS GP DS DP X.

(** The loop over the predictors only ever lowers the flag. *)
Lemma legal_trainer_fold (sol : indv GS) (l : list (indv GP)) (b : bool) :
  fold_left
    (fun legal pred =>
       if Float.isnan (fit_func C (genome pred) (genome sol)) then false
       else legal)
    l b
  = b && forallb
           (fun pred =>
              negb (Float.isnan (fit_func C (genome pred) (genome sol))))
           l.
Proof.
  revert b. induction l as [| pred l IH]; intros b; simpl.
  - rewrite andb_true_r. reflexivity.
  - rewrite IH.
    destruct (Float.isnan (fit_func C (genome pred) (genome sol))); simpl.
    + rewrite andb_false_r. reflexivity.
    + reflexivity.
Qed.

Lemma legal_trainer_true (pisl : Island GP X) (sol : indv GS)
    (true_fitness : float) :
  legal_trainer C pisl sol true_fitness = true <->
  Float.isnan true_fitness = false
  /\ forall pred, In pred (pop pisl) ->
       Float.isnan (fit_func C (genome pred) (genome sol)) = false.
Proof.
  unfold legal_trainer. rewrite legal_trainer_fold, andb_true_iff,
    negb_true_iff, forallb_forall.
  split; intros [H1 H2]; (split; [exact H1 |]); intros pred Hp.
  - apply negb_true_iff. apply H2. exact Hp.
  - apply negb_true_iff. apply H2. exact Hp.
Qed.

Lemma find_legal_trainer_inv (sisl : Island GS X) (pisl : Island GP X)
    (draws rest : list Z) (ind : Z) (true_fitness : float) :
  find_legal_trainer C sisl pisl draws = Some (Ok (ind, true_fitness, rest)) ->
  exists sol,
    getitem (pop sisl) ind = Ok sol
    /\ true_fitness = solution_fitness_true C sol
    /\ legal_trainer C pisl sol true_fitness = true.
Proof.
  induction draws as [| d draws IH]; simpl; intros H.
  - discriminate H.
  - destruct (getitem (pop sisl) d) as [sol | e] eqn:E; [| discriminate H].
    destruct (legal_trainer C pisl sol (solution_fitness_true C sol)) eqn:L.
    + injection H as <- <- <-. exists sol. repeat split; assumption.
    + apply IH. exact H.
Qed.

Lemma init_trainers_legal (sisl : Island GS X) (pisl : Island GP X)
    (n : nat) (draws : list Z) (acc : list (indv GS) * list float)
    (ts : list (indv GS)) (fs : list float) :
  Forall2 (legal_pair C sisl pisl) (fst acc) (snd acc) ->
  init_trainers C sisl pisl n draws acc = Some (Ok (ts, fs)) ->
  Forall2 (legal_pair C sisl pisl) ts fs.
Proof.
  revert draws acc. induction n as [| n IH]; simpl; intros draws acc Hacc H.
  - injection H as ->. exact Hacc.
  - destruct (find_legal_trainer C sisl pisl draws)
      as [[[[ind true_fitness] rest] | e] |] eqn:F;
      [| discriminate H | discriminate H].
    apply find_legal_trainer_inv in F as (sol & Hget & Hfit & Hlegal).
    rewrite Hget in H. apply IH in H; [exact H |]. simpl.
    apply Forall2_app; [exact Hacc |].
    constructor; [| constructor].
    apply legal_trainer_true in Hlegal as [Hnan Hpred].
    unfold legal_pair, copy. repeat split.
    + exact (getitem_In _ _ Hget).
    + exact Hfit.
    + exact Hnan.
    + exact Hpred.
Qed.

Lemma init_state (sisl : Island GS X) (pisl : Island GP X)
    (ratio : float) (p_freq size t_freq : Z) (draws : list Z)
    (st : CoevolutionIsland GS GP X) :
  init C sisl pisl ratio p_freq size t_freq draws = Some (Ok st) ->
  init_trainers C sisl pisl (Z.to_nat size) draws ([], [])
  = Some (Ok (trainers st, trainers_true_fitness st))
  /\ solution_island st = sisl
  /\ predictor_ratio st = ratio
  /\ predictor_update_freq st = p_freq
  /\ trainer_update_freq st = t_freq
  /\ solution_fitness_function st = SolutionFitnessEst.
Proof.
  unfold init. intros H.
  destruct (init_trainers C sisl pisl (Z.to_nat size) draws ([], []))
    as [[[ts fs] | e] |] eqn:E; [| discriminate H | discriminate H].
  injection H as H. bind_inv H. destruct a as [best isl].
  injection H as <-. repeat split.
Qed.

(** No legal member: the rejection loop uses up any supply of draws. *)
Lemma find_legal_trainer_starves (sisl : Island GS X) (pisl : Island GP X)
    (draws : list Z) :
  (forall sol, In sol (pop sisl) ->
               legal_trainer C pisl sol (solution_fitness_true C sol) = false) ->
  Forall (fun ind => 0 <= ind < len (pop sisl)) draws ->
  find_legal_trainer C sisl pisl draws = None.
Proof.
  intros Hnone. induction 1 as [| d draws Hd _ IH]; simpl.
  - reflexivity.
  - destruct (getitem_in_range (pop sisl) Hd) as (sol & Hget).
    rewrite Hget, (Hnone sol (getitem_In _ _ Hget)). exact IH.
Qed.

End Construction.

(** X1.  Every trainer the constructor accepts is a member of the initial
    solution population, is stored with its own exact fitness, that
    fitness is a number, and every predictor of the initial predictor
    population scores it with a number. *)
Theorem init_trainers_are_legal
    (GS GP DS DP X : Type) (C : Collaborators GS GP DS DP X)
    (sisl : Island GS X) (pisl : Island GP X)
    (ratio : float) (p_freq size t_freq : Z) (draws : list Z)
    (st : CoevolutionIsland GS GP X) :
  init C sisl pisl ratio p_freq size t_freq draws = Some (Ok st) ->
  Forall2 (legal_pair C sisl pisl) (trainers st) (trainers_true_fitness st).
Proof.
  intros H. apply init_state in H as (H & _).
  eapply init_trainers_legal; [| exact H]. constructor.
Qed.

Lemma init_trainers_are_legal_witness :
  exists st,
    init Toy.collab Toy.fresh_solutions Toy.fresh_predictors
      (Float.Fin (1 # 10)%Q) 50 2 50 [0; 1; 2] = Some (Ok st)
    /\ map (@genome Z) (trainers st) = [2; 3]
    /\ Forall2 (legal_pair Toy.collab Toy.fresh_solutions
                  Toy.fresh_predictors)
         (trainers st) (trainers_true_fitness st).
Proof.
  eexists. split; [vm_compute; reflexivity |]. split; [reflexivity |].
  apply (@init_trainers_are_legal _ _ _ _ _ Toy.collab Toy.fresh_solutions
           Toy.fresh_predictors (Float.Fin (1 # 10)%Q) 50 2 50 [0; 1; 2]).
  vm_compute. reflexivity.
Defined.

(** X3.  When no member of the solution population is a legal trainer and
    at least one trainer is asked for, the constructor never gets past its
    rejection loop: whatever in-range indices are drawn, and however many,
    it is still drawing. *)
Theorem init_without_legal_member_never_returns
    (GS GP DS DP X : Type) (C : Collaborators GS GP DS DP X)
    (sisl : Island GS X) (pisl : Island GP X)
    (ratio : float) (p_freq size t_freq : Z) (draws : list Z) :
  (forall sol, In sol (pop sisl) ->
               legal_trainer C pisl sol (solution_fitness_true C sol) = false) ->
  0 < size ->
  Forall (fun ind => 0 <= ind < len (pop sisl)) draws ->
  init C sisl pisl ratio p_freq size t_freq draws = None.
Proof.
  intros Hnone Hsize Hdraws. unfold init.
  destruct (Z.to_nat size) as [| n] eqn:E; [lia |].
  simpl. rewrite (find_legal_trainer_starves C sisl pisl Hnone Hdraws).
  reflexivity.
Qed.

Lemma init_without_legal_member_never_returns_witness :
  init Toy.collab Cases.hopeless_solutions Toy.fresh_predictors
    (Float.Fin (1 # 10)%Q) 50 1 50 [0; 0; 0; 0] = None.
Proof.
  apply init_without_legal_member_never_returns.
  - intros sol [<- | []]. reflexivity.
  - lia.
  - repeat (apply Forall_cons; [unfold len; simpl; lia |]). apply Forall_nil.
Defined.

(** ** More on [predictor_fitness] *)

Lemma Forall2_combine (A B : Type) (P : A -> B -> Prop)
    (l : list A) (l' : list B) :
  Forall2 P l l' -> Forall (fun e => P (fst e) (snd e)) (combine l l').
Proof.
  induction 1 as [| a b l l' H _ IH]; simpl; constructor; assumption.
Qed.

Lemma Forall2_length_eq (A B : Type) (P : A -> B -> Prop)
    (l : list A) (l' : list B) :
  Forall2 P l l' -> length l = length l'.
Proof. induction 1; simpl; congruence. Qed.

Lemma fold_add_fin_inv (l : list float) (z : float) (q : Q) :
  fold_left Float.add l z = Float.Fin q -> existsb Float.isnan l = false.
Proof.
  intros H. destruct (existsb Float.isnan l) eqn:E; [| reflexivity].
  rewrite (fold_add_poisoned _ z E) in H. discriminate H.
Qed.

Lemma Qabs_zero (x : Q) : (Qabs x == 0 <-> x == 0)%Q.
Proof.
  split; intros H.
  - revert H. apply Qabs_case; intros Hx H; lra.
  - rewrite H. reflexivity.
Qed.

(** A sum of non-negative numbers is 0 exactly when every summand is. *)
Lemma fold_add_zero_iff (l : list float) (q0 : Q) :
  (0 <= q0)%Q ->
  Forall (fun x => exists e, x = Float.Fin e /\ (0 <= e)%Q) l ->
  exists q,
    fold_left Float.add l (Float.Fin q0) = Float.Fin q
    /\ (0 <= q)%Q
    /\ ((q == 0)%Q <->
        (q0 == 0)%Q /\ Forall (fun x => Float.same x Float.zero = true) l).
Proof.
  revert q0. induction l as [| a l IH]; simpl; intros q0 H0 Hl.
  - exists q0. split; [reflexivity |]. split; [exact H0 |].
    split; [intros H; split; [exact H | constructor] | intros [H _]; exact H].
  - inversion Hl as [| ? ? (e & -> & He) Hl']; subst. simpl.
    destruct (IH (q0 + e)%Q) as (q & Hq & Hpos & Hiff); [lra | exact Hl' |].
    exists q. split; [exact Hq |]. split; [exact Hpos |].
    rewrite Hiff. split.
    + intros [Hsum Hall]. split; [lra |].
      constructor; [| exact Hall]. simpl. apply Qeq_bool_iff. lra.
    + intros [Hq0 Hall]. inversion Hall as [| ? ? Ha Hall']; subst.
      simpl in Ha. apply Qeq_bool_iff in Ha. split; [lra | exact Hall'].
Qed.

Lemma mean_of_fin (q : Q) (n : Z) :
  0 < n -> (0 <= q)%Q ->
  Float.div (Float.Fin q) (Float.of_Z n) = Float.Fin (q / inject_Z n)
  /\ (0 <= q / inject_Z n)%Q
  /\ ((q / inject_Z n == 0)%Q <-> (q == 0)%Q).
Proof.
  intros Hn Hq. pose proof (inject_Z_pos Hn) as Hn'.
  split; [reflexivity |]. split.
  - apply Qle_shift_div_l; [exact Hn' | lra].
  - split; intros H.
    + assert (E : (q == q / inject_Z n * inject_Z n)%Q) by (field; lra).
      rewrite E, H. ring.
    + rewrite H. unfold Qdiv. ring.
Qed.

Section PredictorFitnessMore.

Variables GS GP DS DP X : Type.
Variable C : Collaborators GS GP DS DP X.

(** The absolute error on one pair is a number exactly when the stored
    fitness and the estimate both are. *)
Lemma absolute_error_fin (predictor : indv GP) (e : indv GS * float) :
  forall x,
    Float.abs (Float.sub (snd e)
                 (fit_func C (genome predictor) (genome (fst e))))
    = Float.Fin x ->
    exists a b,
      snd e = Float.Fin a
      /\ fit_func C (genome predictor) (genome (fst e)) = Float.Fin b
      /\ x = Qabs (a - b).
Proof.
  intros x. destruct (snd e) as [| a]; [discriminate |].
  destruct (fit_func C (genome predictor) (genome (fst e))) as [| b];
    [discriminate |].
  simpl. intros H. injection H as <-. exists a, b. repeat split.
Qed.

End PredictorFitnessMore.

(** X2.  Right after construction with at least one trainer, the fitness
    of every predictor of the initial predictor population is not the
    sentinel, and it is at least 0.  This is for fitness values and scores
    that are finite or the sentinel, the values of [Float.t]: the
    constructor tests [isnan] only, so an infinite exact fitness scored
    with an infinite estimate would pass it and give the sentinel here. *)
Theorem initial_predictor_fitness_is_a_number
    (GS GP DS DP X : Type) (C : Collaborators GS GP DS DP X)
    (sisl : Island GS X) (pisl : Island GP X)
    (ratio : float) (p_freq size t_freq : Z) (draws : list Z)
    (st : CoevolutionIsland GS GP X) (pred : indv GP) :
  init C sisl pisl ratio p_freq size t_freq draws = Some (Ok st) ->
  0 < size ->
  In pred (pop pisl) ->
  exists q, predictor_fitness C st pred = Ok (Float.Fin q) /\ (0 <= q)%Q.
Proof.
  intros Hinit Hsize Hpred.
  pose proof (init_inv C sisl pisl ratio p_freq size t_freq draws Hinit)
    as (Hlen & _).
  assert (Ht : trainers st <> []).
  { intros E. rewrite E in Hlen. simpl in Hlen. lia. }
  assert (Hlegal : Forall (fun e => legal_pair C sisl pisl (fst e) (snd e))
                     (combine (trainers st) (trainers_true_fitness st))).
  { apply Forall2_combine. apply init_state in Hinit as (Hinit & _).
    eapply init_trainers_legal; [| exact Hinit]. constructor. }
  rewrite (predictor_fitness_nonempty C st pred Ht).
  unfold Float.sum, Float.zero.
  destruct (fold_add_nonneg
              (l := map (fun e : indv GS * float =>
                           Float.abs
                             (Float.sub (snd e)
                                (fit_func C (genome pred) (genome (fst e)))))
                        (combine (trainers st) (trainers_true_fitness st)))
              (q0 := 0)) as (q & -> & Hq).
  - apply Qle_refl.
  - apply Forall_forall. intros x Hx.
    apply in_map_iff in Hx as (e & <- & He).
    rewrite Forall_forall in Hlegal.
    destruct (Hlegal e He) as (_ & _ & Hnan & Hscore).
    specialize (Hscore pred Hpred).
    destruct (snd e) as [| a]; [discriminate Hnan |].
    destruct (fit_func C (genome pred) (genome (fst e))) as [| b];
      [discriminate Hscore |].
    exists (Qabs (a - b)). split; [reflexivity | apply Qabs_nonneg].
  - destruct (mean_of_fin (q := q) (len_nonempty Ht) Hq) as (-> & Hpos & _).
    eexists. split; [reflexivity | exact Hpos].
Qed.

Lemma initial_predictor_fitness_is_a_number_witness :
  exists st q,
    init Toy.collab Toy.fresh_solutions Toy.fresh_predictors
      (Float.Fin (1 # 10)%Q) 50 2 50 [0; 1; 2] = Some (Ok st)
    /\ predictor_fitness Toy.collab st (Toy.load 2) = Ok (Float.Fin q)
    /\ (0 <= q)%Q.
Proof.
  eexists.
  assert (Hinit : init Toy.collab Toy.fresh_solutions Toy.fresh_predictors
                    (Float.Fin (1 # 10)%Q) 50 2 50 [0; 1; 2] = Some (Ok _))
    by (vm_compute; reflexivity).
  destruct (@initial_predictor_fitness_is_a_number _ _ _ _ _ Toy.collab
              _ _ _ _ _ _ _ _ (Toy.load 2) Hinit) as (q & Hq & Hpos).
  - lia.
  - right. left. reflexivity.
  - exists q. split; [exact Hinit |]. split; assumption.
Defined.

(** X4.  The fitness of a predictor is 0 exactly when its estimate equals
    the stored fitness on every (trainer, stored fitness) pair; on a
    non-empty trainer list.  This is in real arithmetic on values that are
    finite or the sentinel, the values of [Float.t]: two infinite values
    compare equal while their difference is the sentinel, and a mean can
    underflow to 0. *)
Theorem predictor_fitness_zero_iff_exact
    (GS GP DS DP X : Type) (C : Collaborators GS GP DS DP X)
    (st : CoevolutionIsland GS GP X) (predictor : indv GP) :
  trainers st <> [] ->
  exists v,
    predictor_fitness C st predictor = Ok v
    /\ (Float.same v Float.zero = true <->
        Forall (fun e : indv GS * float =>
                  float_eqb (fit_func C (genome predictor) (genome (fst e)))
                    (snd e) = true)
               (combine (trainers st) (trainers_true_fitness st))).
Proof.
  intros Ht. eexists. split;
    [apply (predictor_fitness_nonempty C st predictor Ht) |].
  set (errs := map (fun e : indv GS * float =>
                      Float.abs
                        (Float.sub (snd e)
                           (fit_func C (genome predictor) (genome (fst e)))))
                   (combine (trainers st) (trainers_true_fitness st))).
  pose proof (len_nonempty Ht) as Hn.
  assert (Hfin : existsb Float.isnan errs = false ->
                 Forall (fun x => exists e, x = Float.Fin e /\ (0 <= e)%Q)
                        errs).
  { intros Hnan. apply Forall_forall. intros x Hx.
    destruct x as [| q].
    - assert (existsb Float.isnan errs = true)
        by (apply existsb_exists; exists Float.NaN; split;
            [exact Hx | reflexivity]).
      congruence.
    - exists q. split; [reflexivity |].
      subst errs. apply in_map_iff in Hx as (e & Hx & _).
      apply absolute_error_fin in Hx as (a & b & _ & _ & ->).
      apply Qabs_nonneg. }
  split.
  - intros Hzero. unfold Float.sum, Float.zero in Hzero.
    destruct (fold_left Float.add errs (Float.Fin 0)) as [| s] eqn:Es;
      [discriminate Hzero |].
    pose proof (Hfin (fold_add_fin_inv _ _ Es)) as Hall.
    destruct (fold_add_zero_iff (q0 := 0) (Qle_refl 0) Hall)
      as (s' & Es' & Hpos & Hiff).
    rewrite Es in Es'. injection Es' as <-.
    destruct (mean_of_fin (q := s) Hn Hpos) as (Hdiv & _ & Hq).
    rewrite Hdiv in Hzero. simpl in Hzero. apply Qeq_bool_iff in Hzero.
    apply Hq, Hiff in Hzero as [_ Hzero].
    apply Forall_forall. intros e He.
    rewrite Forall_forall in Hzero.
    assert (Hin : In (Float.abs
                        (Float.sub (snd e)
                           (fit_func C (genome predictor) (genome (fst e)))))
                     errs).
    { subst errs. apply in_map_iff. exists e. split; [reflexivity | exact He]. }
    specialize (Hzero _ Hin).
    destruct (Float.abs _) as [| x] eqn:Ex; [discriminate Hzero |].
    apply absolute_error_fin in Ex as (a & b & -> & -> & ->).
    unfold Float.same, Float.zero in Hzero.
    apply Qeq_bool_iff in Hzero. apply (proj1 (Qabs_zero _)) in Hzero.
    unfold float_eqb. apply Qeq_bool_iff. lra.
  - intros Hexact.
    assert (Hzero : Forall (fun x => exists e, x = Float.Fin e /\ (e == 0)%Q)
                           errs).
    { apply Forall_forall. intros x Hx. subst errs.
      apply in_map_iff in Hx as (e & <- & He).
      rewrite Forall_forall in Hexact. specialize (Hexact e He).
      destruct (fit_func C (genome predictor) (genome (fst e))) as [| b];
        [discriminate Hexact |].
      destruct (snd e) as [| a]; [discriminate Hexact |].
      simpl in Hexact. apply Qeq_bool_iff in Hexact.
      exists (Qabs (a - b)). split; [reflexivity |].
      apply Qabs_zero. lra. }
    assert (Hall : Forall (fun x => exists e, x = Float.Fin e /\ (0 <= e)%Q)
                          errs).
    { eapply Forall_impl; [| exact Hzero].
      intros x (e & -> & He). exists e. split; [reflexivity | lra]. }
    destruct (fold_add_zero_iff (q0 := 0) (Qle_refl 0) Hall)
      as (s & Es & Hpos & Hiff).
    unfold Float.sum, Float.zero. rewrite Es.
    destruct (mean_of_fin (q := s) Hn Hpos) as (-> & _ & Hq).
    simpl. apply Qeq_bool_iff, Hq, Hiff. split; [reflexivity |].
    eapply Forall_impl; [| exact Hzero].
    intros x (e & -> & He). simpl. apply Qeq_bool_iff. exact He.
Qed.

Lemma predictor_fitness_zero_iff_exact_witness :
  (exists v,
     predictor_fitness Toy.collab Toy.one_trainer (Toy.load 1) = Ok v
     /\ Float.same v Float.zero = true)
  /\ (exists v,
        predictor_fitness Toy.collab Toy.one_trainer (Toy.load 2) = Ok v
        /\ Float.same v Float.zero = false).
Proof.
  split.
  - destruct (@predictor_fitness_zero_iff_exact _ _ _ _ _ Toy.collab
                Toy.one_trainer (Toy.load 1)) as (v & Hv & Hiff);
      [discriminate |].
    exists v. split; [exact Hv |]. apply Hiff.
    repeat constructor.
  - destruct (@predictor_fitness_zero_iff_exact _ _ _ _ _ Toy.collab
                Toy.one_trainer (Toy.load 2)) as (v & Hv & Hiff);
      [discriminate |].
    exists v. split; [exact Hv |].
    destruct (Float.same v Float.zero); [| reflexivity].
    pose proof (proj1 Hiff eq_refl) as H.
    inversion H as [| ? ? Hhead _]. discriminate Hhead.
Defined.

(** ** The two trainer lists stay in step *)

Lemma filter_index_length (A B : Type) (f : Z -> bool)
    (l : list A) (l' : list B) (start : Z) :
  length l = length l' ->
  length (filter (fun p => f (fst p)) (enumerate_from start l))
  = length (filter (fun p => f (fst p)) (enumerate_from start l')).
Proof.
  revert l' start. induction l as [| a l IH]; intros [| b l'] start H;
    simpl in *; try reflexivity; try discriminate H.
  destruct (f start); simpl; rewrite (IH l' (start + 1)); try reflexivity; lia.
Qed.

Lemma remove_indices_length_eq (A B : Type) (l : list A) (l' : list B)
    (subset : list Z) :
  length l = length l' ->
  length (remove_indices l subset) = length (remove_indices l' subset).
Proof.
  intros H. unfold remove_indices, enumerate. rewrite !length_map.
  apply (filter_index_length (fun i => negb (mem i subset)) l l' 0 H).
Qed.

(** X5.  The list of trainers and the list of their stored fitness values
    have the same length after construction, and every method keeps them
    so: [add_new_trainer], [generational_step], [dump_populations] with or
    without removal, [load_populations] in both modes and
    [use_true_fitness]. *)
Theorem trainer_lists_stay_in_step
    (GS GP DS DP X : Type) (C : Collaborators GS GP DS DP X) :
  (forall sisl pisl ratio p_freq size t_freq draws st,
      init C sisl pisl ratio p_freq size t_freq draws = Some (Ok st) ->
      in_step st)
  /\ (forall st st',
        in_step st -> add_new_trainer C st = Ok st' -> in_step st')
  /\ (forall fuel st st',
        in_step st -> generational_step C fuel st = Some (Ok st') ->
        in_step st')
  /\ (forall st s_subset p_subset t_subset with_removal,
        in_step st ->
        in_step (snd (dump_populations C st s_subset p_subset t_subset
                        with_removal)))
  /\ (forall st pop_lists replace st',
        in_step st -> load_populations C st pop_lists replace = Ok st' ->
        in_step st')
  /\ (forall st : CoevolutionIsland GS GP X,
        in_step st -> in_step (use_true_fitness st)).
Proof.
  unfold in_step. repeat apply conj.
  - intros sisl pisl ratio p_freq size t_freq draws st H.
    apply init_inv in H as (H1 & H2 & _). congruence.
  - intros st st' Hin H.
    rewrite (add_new_trainer_length C st H),
      (add_new_trainer_true_fitness C st H). exact Hin.
  - intros fuel st st' Hin H.
    apply generational_step_length in H as [H1 H2]. congruence.
  - intros st s_subset p_subset t_subset with_removal Hin.
    destruct (dump_populations_trainers C st s_subset p_subset t_subset
                with_removal) as [-> ->].
    destruct with_removal; [| exact Hin].
    apply remove_indices_length_eq. exact Hin.
  - intros st [[sl pl] tl] replace st' Hin H.
    apply load_populations_inv in H as (b & i & _ & ->). simpl.
    rewrite !length_app, !length_map. destruct replace; simpl; lia.
  - intros st Hin. exact Hin.
Qed.

Lemma trainer_lists_stay_in_step_witness :
  let st' := snd (dump_populations Toy.collab (Toy.scenario 0 0)
                    None None (Some [1; 3; 7]) true) in
  length (trainers st') = 2%nat /\ in_step st'.
Proof.
  cbv zeta. split; [reflexivity |].
  apply (@trainer_lists_stay_in_step _ _ _ _ _ Toy.collab).
  reflexivity.
Defined.

(** ** Errors of [add_new_trainer] *)

(** X6.  [add_new_trainer] raises [IndexError] on an empty solution
    population; otherwise it raises [ZeroDivisionError] when the trainer
    update frequency is 0 or there is no trainer; otherwise it returns.  It
    returns in no other case. *)
Theorem add_new_trainer_errors
    (GS GP DS DP X : Type) (C : Collaborators GS GP DS DP X)
    (st : CoevolutionIsland GS GP X) :
  (pop (solution_island st) = [] -> add_new_trainer C st = Raise IndexError)
  /\ (pop (solution_island st) <> [] ->
      trainer_update_freq st = 0 \/ trainers st = [] ->
      add_new_trainer C st = Raise ZeroDivisionError)
  /\ ((exists st', add_new_trainer C st = Ok st') <->
      pop (solution_island st) <> []
      /\ trainer_update_freq st <> 0
      /\ trainers st <> []).
Proof.
  split; [| split].
  - intros E. unfold add_new_trainer, choose_trainer. rewrite E. reflexivity.
  - intros Hp Hz.
    destruct (choose_trainer_returns C st Hp) as (s & Hs).
    unfold add_new_trainer. rewrite Hs. simpl.
    unfold trainer_location, floordiv, pymod.
    destruct Hz as [Hf | Ht].
    + rewrite Hf. reflexivity.
    + destruct (trainer_update_freq st =? 0); [reflexivity |].
      simpl. rewrite Ht. reflexivity.
  - split.
    + intros (st' & H).
      apply add_new_trainer_inv in H as (s & loc & Hs & Hloc & Hrange & _).
      split; [| split].
      * intros E. unfold choose_trainer in Hs. rewrite E in Hs.
        discriminate Hs.
      * intros E. unfold trainer_location, floordiv in Hloc.
        rewrite E in Hloc. discriminate Hloc.
      * intros E. rewrite E in Hrange. unfold len in Hrange. simpl in Hrange.
        lia.
    + intros (Hp & Hf & Ht).
      destruct (add_new_trainer_returns C st Hp Hf Ht) as (s & _ & H).
      eexists. exact H.
Qed.

Lemma add_new_trainer_errors_witness :
  add_new_trainer Toy.collab
    (set_solution_island Toy.one_trainer (Toy.island_of [] true 0 0))
  = Raise IndexError
  /\ add_new_trainer Toy.collab (set_trainers Toy.one_trainer [])
     = Raise ZeroDivisionError.
Proof.
  split.
  - apply (@add_new_trainer_errors _ _ _ _ _ Toy.collab
             (set_solution_island Toy.one_trainer
                (Toy.island_of [] true 0 0))).
    reflexivity.
  - apply (@add_new_trainer_errors _ _ _ _ _ Toy.collab
             (set_trainers Toy.one_trainer [])).
    + discriminate.
    + right. reflexivity.
Defined.

(** ** The candidate chosen by [add_new_trainer] *)

Lemma ltb_false_iff (a b : Q) :
  Float.ltb (Float.Fin a) (Float.Fin b) = false <-> (b <= a)%Q.
Proof.
  simpl. rewrite negb_false_iff. apply Qle_bool_iff.
Qed.

Lemma mul_self_nonneg (d : float) (e : Q) :
  Float.mul d d = Float.Fin e -> (0 <= e)%Q.
Proof.
  destruct d as [| x]; simpl; intros H; [discriminate H |].
  injection H as <-. nra.
Qed.

(** A variance that is a number is not negative. *)
Lemma np_var_nonneg (l : list float) (v : Q) :
  np_var l = Float.Fin v -> (0 <= v)%Q.
Proof.
  destruct l as [| a tl]; [discriminate |].
  unfold np_var. cbv zeta.
  set (mean := Float.div (Float.sum (a :: tl)) (Float.of_Z (len (a :: tl)))).
  set (devs := map (fun x => Float.mul (Float.sub x mean) (Float.sub x mean))
                   (a :: tl)).
  unfold Float.sum at 1. unfold Float.zero.
  destruct (fold_left Float.add devs (Float.Fin 0)) as [| s] eqn:Es;
    [discriminate |].
  assert (Hall : Forall (fun x => exists e, x = Float.Fin e /\ (0 <= e)%Q)
                        devs).
  { apply Forall_forall. intros x Hx. destruct x as [| e].
    - assert (existsb Float.isnan devs = true)
        by (apply existsb_exists; exists Float.NaN; split;
            [exact Hx | reflexivity]).
      rewrite (fold_add_fin_inv _ _ Es) in H. discriminate H.
    - exists e. split; [reflexivity |].
      subst devs. apply in_map_iff in Hx as (x & Hx & _).
      exact (mul_self_nonneg _ Hx). }
  destruct (fold_add_nonneg (q0 := 0) (Qle_refl 0) Hall) as (s' & Es' & Hs).
  rewrite Es in Es'. injection Es' as <-.
  assert (Hn : 0 < len (a :: tl)) by (unfold len; simpl; lia).
  destruct (mean_of_fin (q := s) Hn Hs) as (-> & Hpos & _).
  intros H. injection H as <-. exact Hpos.
Qed.

Section Choice.

Variables GS GP DS DP X : Type.
Variable C : Collaborators GS GP DS DP X.
Variable st : CoevolutionIsland GS GP X.

(** What the scan has when it ends: a running maximum no candidate beats,
    and either the pair it started from or a candidate whose variance is
    that maximum. *)
Lemma scan_maximal (l : list (indv GS)) (m : Q) (s : indv GS) :
  exists m',
    fst (fold_left (scan_step C st) l (Float.Fin m, s)) = Float.Fin m'
    /\ (m <= m')%Q
    /\ (forall sol, In sol l ->
                    Float.ltb (Float.Fin m') (variance_of C st sol) = false)
    /\ (fold_left (scan_step C st) l (Float.Fin m, s) = (Float.Fin m, s)
        \/ (In (snd (fold_left (scan_step C st) l (Float.Fin m, s))) l
            /\ variance_of C st
                 (snd (fold_left (scan_step C st) l (Float.Fin m, s)))
               = Float.Fin m'
            /\ (m < m')%Q)).
Proof.
  revert m s. induction l as [| sol l IH]; intros m s.
  - exists m. simpl. split; [reflexivity |]. split; [apply Qle_refl |].
    split; [intros sol [] | left; reflexivity].
  - cbn [fold_left].
    assert (Estep : scan_step C st (Float.Fin m, s) sol
                    = if Float.ltb (Float.Fin m) (variance_of C st sol)
                      then (variance_of C st sol, sol)
                      else (Float.Fin m, s)) by reflexivity.
    rewrite Estep. clear Estep.
    destruct (Float.ltb (Float.Fin m) (variance_of C st sol)) eqn:E.
    + destruct (variance_of C st sol) as [| w] eqn:Ew;
        [rewrite ltb_nan_r in E; discriminate E |].
      apply ltb_lt in E.
      change (@pair float (indv GS) (Float.Fin w) sol)
        with (@pair Float.t (indv GS) (Float.Fin w) sol).
      destruct (IH w sol) as (m' & Hfst & Hle & Hall & Hcase).
      exists m'. split; [exact Hfst |]. split; [lra |]. split.
      * intros x [<- | Hx]; [| exact (Hall x Hx)].
        rewrite Ew. apply ltb_false_iff. exact Hle.
      * right. destruct Hcase as [Hsame | (Hin & Hvar & Hlt)].
        -- rewrite Hsame in Hfst. rewrite !Hsame. simpl in Hfst |- *.
           injection Hfst as <-.
           split; [left; reflexivity |]. split; [exact Ew | exact E].
        -- split; [right; exact Hin |]. split; [exact Hvar | lra].
    + destruct (IH m s) as (m' & Hfst & Hle & Hall & Hcase).
      exists m'. split; [exact Hfst |]. split; [exact Hle |]. split.
      * intros x [<- | Hx]; [| exact (Hall x Hx)].
        destruct (variance_of C st sol) as [| w]; [apply ltb_nan_r |].
        apply ltb_false_iff. apply ltb_false_iff in E. lra.
      * destruct Hcase as [Hsame | (Hin & Hvar & Hlt)].
        -- left. exact Hsame.
        -- right. split; [right; exact Hin |]. split; assumption.
Qed.

End Choice.

(** X7.  The candidate [add_new_trainer] picks is a member of the solution
    population, no member has a strictly larger variance than it, and if
    some member has a variance above 0 then so has the candidate picked. *)
Theorem chosen_trainer_maximizes_variance
    (GS GP DS DP X : Type) (C : Collaborators GS GP DS DP X)
    (st : CoevolutionIsland GS GP X) (s_best : indv GS) :
  choose_trainer C st = Ok s_best ->
  In s_best (pop (solution_island st))
  /\ (forall sol, In sol (pop (solution_island st)) ->
        Float.ltb (variance_of C st s_best) (variance_of C st sol) = false)
  /\ ((exists sol, In sol (pop (solution_island st))
                   /\ Float.ltb (Float.of_Z 0) (variance_of C st sol) = true) ->
      Float.ltb (Float.of_Z 0) (variance_of C st s_best) = true).
Proof.
  unfold choose_trainer. intros H. bind_inv H. rename a into first.
  injection H as <-.
  pose proof (getitem_In _ _ Hm) as Hfirst.
  destruct (scan_maximal C st (pop (solution_island st)) 0 first)
    as (m & Hfst & Hle & Hall & Hcase).
  change (Float.of_Z 0) with (Float.Fin 0).
  destruct Hcase as [Hsame | (Hin & Hvar & Hlt)].
  - rewrite Hsame in Hfst. rewrite !Hsame. cbn [fst snd] in Hfst |- *.
    injection Hfst as <-.
    split; [exact Hfirst |]. split.
    + intros sol Hsol. specialize (Hall sol Hsol).
      destruct (variance_of C st first) as [| v] eqn:Ev; [reflexivity |].
      destruct (variance_of C st sol) as [| w]; [reflexivity |].
      apply ltb_false_iff. apply ltb_false_iff in Hall.
      pose proof (np_var_nonneg _ Ev). lra.
    + intros (sol & Hsol & Hpos).
      change (Float.of_Z 0) with (Float.Fin 0) in Hpos.
      rewrite (Hall sol Hsol) in Hpos. discriminate Hpos.
  - split; [exact Hin |]. split.
    + intros sol Hsol. rewrite Hvar. exact (Hall sol Hsol).
    + intros _. rewrite Hvar. apply ltb_lt. exact Hlt.
Qed.

Lemma chosen_trainer_maximizes_variance_witness :
  exists s_best,
    choose_trainer Toy.collab Toy.behind = Ok s_best
    /\ genome s_best = 3
    /\ forall sol, In sol (pop (solution_island Toy.behind)) ->
         Float.ltb (variance_of Toy.collab Toy.behind s_best)
           (variance_of Toy.collab Toy.behind sol) = false.
Proof.
  eexists. split; [vm_compute; reflexivity |]. split; [reflexivity |].
  apply (@chosen_trainer_maximizes_variance _ _ _ _ _ Toy.collab Toy.behind).
  vm_compute. reflexivity.
Defined.

(** ** The slot written by [add_new_trainer] *)

Lemma nth_error_replace_nth_same (A : Type) (l : list A) (n : nat) (v : A) :
  (n < length l)%nat -> nth_error (replace_nth l n v) n = Some v.
Proof.
  revert n. induction l as [| a l IH]; intros [| n] H; simpl in *;
    try lia; [reflexivity |].
  apply IH. lia.
Qed.

Lemma nth_error_replace_nth_other (A : Type) (l : list A) (n i : nat)
    (v : A) :
  i <> n -> nth_error (replace_nth l n v) i = nth_error l i.
Proof.
  revert n i. induction l as [| a l IH]; intros [| n] [| i] H; simpl;
    try reflexivity; try contradiction.
  apply IH. intros E. apply H. rewrite E. reflexivity.
Qed.

(** X8.  A successful [add_new_trainer] writes the chosen candidate to
    the slot [(solution age // trainer_update_freq) % len(trainers)] and
    changes nothing else: every other trainer, the stored fitness values,
    both islands and the cached best predictor are as before. *)
Theorem add_new_trainer_writes_one_slot
    (GS GP DS DP X : Type) (C : Collaborators GS GP DS DP X)
    (st st' : CoevolutionIsland GS GP X) :
  add_new_trainer C st = Ok st' ->
  exists s_best slot,
    choose_trainer C st = Ok s_best
    /\ slot = (age (solution_island st) / trainer_update_freq st)
              mod len (trainers st)
    /\ 0 <= slot < len (trainers st)
    /\ nth_error (trainers st') (Z.to_nat slot) = Some s_best
    /\ (forall i, i <> Z.to_nat slot ->
                  nth_error (trainers st') i = nth_error (trainers st) i)
    /\ length (trainers st') = length (trainers st)
    /\ trainers_true_fitness st' = trainers_true_fitness st
    /\ solution_island st' = solution_island st
    /\ predictor_island st' = predictor_island st
    /\ best_predictor st' = best_predictor st.
Proof.
  intros H.
  apply add_new_trainer_inv in H as (s & slot & Hs & Hloc & Hrange & ->).
  exists s, slot. split; [exact Hs |].
  assert (Hslot : slot = (age (solution_island st) / trainer_update_freq st)
                         mod len (trainers st)).
  { unfold trainer_location in Hloc. bind_inv Hloc.
    apply floordiv_inv in Hm as [_ ->].
    apply pymod_inv in Hloc as [_ ->]. reflexivity. }
  split; [exact Hslot |]. split; [exact Hrange |]. simpl.
  split; [apply nth_error_replace_nth_same; unfold len in Hrange; lia |].
  split; [intros i Hi; apply nth_error_replace_nth_other; exact Hi |].
  split; [apply replace_nth_length |]. repeat split.
Qed.

Lemma add_new_trainer_writes_one_slot_witness :
  exists st',
    add_new_trainer Toy.collab (Toy.scenario 120 0) = Ok st'
    /\ map (@genome Z) (trainers st') = [100; 101; 3; 103].
Proof.
  assert (H : exists st', add_new_trainer Toy.collab (Toy.scenario 120 0)
                          = Ok st')
    by (eexists; vm_compute; reflexivity).
  destruct H as (st' & H). exists st'. split; [exact H |].
  destruct (add_new_trainer_writes_one_slot Toy.collab _ H)
    as (s & slot & Hs & -> & _ & Hnth & Hother & Hlen & _).
  vm_compute in Hs. injection Hs as <-.
  change (Z.to_nat ((age (solution_island (Toy.scenario 120 0))
                     / trainer_update_freq (Toy.scenario 120 0))
                    mod len (trainers (Toy.scenario 120 0))))
    with 2%nat in Hnth, Hother.
  pose proof (Hother 0%nat) as H0. pose proof (Hother 1%nat) as H1.
  pose proof (Hother 3%nat) as H3.
  destruct (trainers st') as [| t0 [| t1 [| t2 [| t3 [| t4 tl]]]]];
    try discriminate Hlen.
  simpl in Hnth, H0, H1, H3.
  injection Hnth as ->. injection (H0 ltac:(lia)) as ->.
  injection (H1 ltac:(lia)) as ->. injection (H3 ltac:(lia)) as ->.
  reflexivity.
Defined.

(** X9.  The slot moves round the ring: with a non-zero update frequency
    and at least one trainer the slot is a valid position; a solution age
    larger by the update frequency gives the next slot, cyclically, and an
    age larger by frequency times number of trainers gives the same slot
    again. *)
Theorem trainer_slot_cycles
    (GS GP X : Type) (st st' : CoevolutionIsland GS GP X) :
  trainer_update_freq st <> 0 ->
  trainers st <> [] ->
  trainer_update_freq st' = trainer_update_freq st ->
  length (trainers st') = length (trainers st) ->
  exists slot,
    trainer_location st = Ok slot
    /\ 0 <= slot < len (trainers st)
    /\ (age (solution_island st')
        = age (solution_island st) + trainer_update_freq st ->
        trainer_location st' = Ok ((slot + 1) mod len (trainers st)))
    /\ (age (solution_island st')
        = age (solution_island st)
          + trainer_update_freq st * len (trainers st) ->
        trainer_location st' = Ok slot).
Proof.
  intros Hf Ht Hf' Hlen.
  pose proof (len_nonempty Ht) as Hn.
  assert (Ht' : trainers st' <> []).
  { intros E. rewrite E in Hlen. destruct (trainers st);
      [contradiction Ht; reflexivity | discriminate Hlen]. }
  assert (Hlen' : len (trainers st') = len (trainers st))
    by (unfold len; rewrite Hlen; reflexivity).
  eexists. split; [apply (trainer_location_ok st Hf Ht) |].
  split; [apply Z.mod_pos_bound; exact Hn |]. split; intros Hage.
  - rewrite (trainer_location_ok st'); [| rewrite Hf'; exact Hf | exact Ht'].
    rewrite Hf', Hlen', Hage. f_equal.
    replace (age (solution_island st) + trainer_update_freq st)
      with (age (solution_island st) + 1 * trainer_update_freq st) by ring.
    rewrite Z.div_add by exact Hf.
    rewrite Zplus_mod_idemp_l. reflexivity.
  - rewrite (trainer_location_ok st'); [| rewrite Hf'; exact Hf | exact Ht'].
    rewrite Hf', Hlen', Hage. f_equal.
    replace (age (solution_island st)
             + trainer_update_freq st * len (trainers st))
      with (age (solution_island st)
            + len (trainers st) * trainer_update_freq st) by ring.
    rewrite Z.div_add by exact Hf.
    replace (age (solution_island st) / trainer_update_freq st
             + len (trainers st))
      with (age (solution_island st) / trainer_update_freq st
            + 1 * len (trainers st)) by ring.
    apply Z_mod_plus_full.
Qed.

Lemma trainer_slot_cycles_witness :
  trainer_location (Toy.scenario 199 0) = Ok 3
  /\ trainer_location (Toy.scenario 249 0) = Ok 0
  /\ trainer_location (Toy.scenario 399 0) = Ok 3.
Proof.
  destruct (@trainer_slot_cycles _ _ _ (Toy.scenario 199 0)
              (Toy.scenario 249 0)) as (slot & Hslot & _ & Hnext & _);
    try reflexivity; try discriminate.
  destruct (@trainer_slot_cycles _ _ _ (Toy.scenario 199 0)
              (Toy.scenario 399 0)) as (slot' & Hslot' & _ & _ & Hsame);
    try reflexivity; try discriminate.
  vm_compute in Hslot. injection Hslot as <-.
  vm_compute in Hslot'. injection Hslot' as <-.
  split; [reflexivity |]. split.
  - rewrite Hnext; reflexivity.
  - rewrite Hsame; reflexivity.
Defined.

(** ** The cached best predictor and the injected fitness function *)

Section Cache.

Variables GS GP DS DP X : Type.
Variable C : Collaborators GS GP DS DP X.

Lemma update_trainers_keeps (st st' : CoevolutionIsland GS GP X) :
  update_trainers C st = Ok st' ->
  best_predictor st' = best_predictor st.
Proof.
  unfold update_trainers. intros H. bind_inv H.
  destruct (a =? 0).
  - bind_inv H. injection H as <-.
    apply add_new_trainer_islands in Hm0 as (_ & _ & Hb). exact Hb.
  - injection H as <-. reflexivity.
Qed.

Lemma predictor_iteration_keeps (st st' : CoevolutionIsland GS GP X) :
  predictor_iteration C st = Ok st' ->
  best_predictor st' = best_predictor st.
Proof.
  intros H. apply predictor_iteration_inv in H as (st0 & isl & H0 & _ & ->).
  simpl. exact (update_trainers_keeps st H0).
Qed.

Lemma evolve_predictors_keeps (fuel : nat)
    (st st' : CoevolutionIsland GS GP X) :
  evolve_predictors C fuel st = Some (Ok st') ->
  best_predictor st' = best_predictor st.
Proof.
  revert st. induction fuel as [| fuel IH]; simpl; intros st H.
  - discriminate H.
  - destruct (current_ratio st) as [r | e]; [| discriminate H].
    destruct (Float.ltb r (predictor_ratio st)).
    + destruct (predictor_iteration C st) as [st1 | e] eqn:E;
        [| discriminate H].
      rewrite (IH _ H). exact (predictor_iteration_keeps st E).
    + injection H as <-. reflexivity.
Qed.

Lemma update_best_predictor_inv (st st' : CoevolutionIsland GS GP X) :
  update_best_predictor C st = Ok st' ->
  predictor_update_freq st <> 0
  /\ ((age (solution_island st) + 1) mod predictor_update_freq st <> 0 ->
      st' = st)
  /\ ((age (solution_island st) + 1) mod predictor_update_freq st = 0 ->
      exists best isl,
        pred_best_indv C (predictor_fitness C st) (predictor_island st)
        = Ok (best, isl)
        /\ st' = set_solution_island
                   (set_best_predictor (set_predictor_island st isl) best)
                   (clear_flags (solution_island st))).
Proof.
  intros H.
  assert (Hf : predictor_update_freq st <> 0).
  { unfold update_best_predictor in H. bind_inv H.
    apply pymod_inv in Hm as [Hf _]. exact Hf. }
  split; [exact Hf |]. split; intros Hdue.
  - rewrite (update_best_predictor_not_due C st Hf Hdue) in H.
    injection H as <-. reflexivity.
  - rewrite (update_best_predictor_due C st Hf Hdue) in H.
    bind_inv H. destruct a as [best isl]. injection H as <-.
    exists best, isl. split; [exact Hm | reflexivity].
Qed.

Lemma solution_step_keeps (st st' : CoevolutionIsland GS GP X) :
  solution_step C st = Ok st' ->
  best_predictor st' = best_predictor st
  /\ predictor_island st' = predictor_island st
  /\ solution_fitness_function st' = solution_fitness_function st.
Proof.
  intros H. apply solution_step_inv in H as (isl & isl' & _ & _ & ->).
  repeat split.
Qed.

Lemma generational_step_mode (fuel : nat)
    (st st' : CoevolutionIsland GS GP X) :
  generational_step C fuel st = Some (Ok st') ->
  exists st2,
    solution_step C st2 = Ok st'
    /\ map (@genome GS) (pop (solution_island st2))
       = map (@genome GS) (pop (solution_island st))
    /\ solution_fitness_function st2 = solution_fitness_function st
    /\ solution_fitness_function st' = solution_fitness_function st.
Proof.
  intros H. apply generational_step_inv in H as (st1 & st2 & H1 & H2 & H3).
  pose proof (evolve_predictors_frame C fuel st H1)
    as (Hs & _ & _ & _ & _ & _ & _ & Hmode).
  assert (Hmode2 : solution_fitness_function st2
                   = solution_fitness_function st1
                   /\ map (@genome GS) (pop (solution_island st2))
                      = map (@genome GS) (pop (solution_island st1))).
  { apply update_best_predictor_inv in H2 as (_ & Hnot & Hdue).
    destruct (Z.eq_dec ((age (solution_island st1) + 1)
                        mod predictor_update_freq st1) 0) as [E | E].
    - destruct (Hdue E) as (best & isl & _ & ->). simpl.
      rewrite map_map. split; reflexivity.
    - rewrite (Hnot E). split; reflexivity. }
  destruct Hmode2 as [Hmode2 Hgen].
  pose proof (solution_step_keeps st2 H3) as (_ & _ & Hmode3).
  exists st2. split; [exact H3 |]. split; [congruence |].
  split; congruence.
Qed.

End Cache.

(** X10.  [generational_step] replaces the cached best predictor only when
    the solution age plus one is a multiple of [predictor_update_freq], and
    then by what [best_indv] returns on the predictor island as the
    predictor loop left it.  Otherwise the cache, and with it the estimate
    [solution_fitness_est] gives for every solution, is what it was,
    however many predictor generations were run. *)
Theorem best_predictor_changes_only_on_schedule
    (GS GP DS DP X : Type) (C : Collaborators GS GP DS DP X)
    (fuel : nat) (st st' : CoevolutionIsland GS GP X) :
  generational_step C fuel st = Some (Ok st') ->
  exists st1,
    evolve_predictors C fuel st = Some (Ok st1)
    /\ best_predictor st1 = best_predictor st
    /\ ((age (solution_island st) + 1) mod predictor_update_freq st <> 0 ->
        best_predictor st' = best_predictor st
        /\ forall sol,
             solution_fitness_est C st' sol = solution_fitness_est C st sol)
    /\ ((age (solution_island st) + 1) mod predictor_update_freq st = 0 ->
        exists best isl,
          pred_best_indv C (predictor_fitness C st1) (predictor_island st1)
          = Ok (best, isl)
          /\ best_predictor st' = best).
Proof.
  intros H. apply generational_step_inv in H as (st1 & st2 & H1 & H2 & H3).
  exists st1. split; [exact H1 |].
  pose proof (evolve_predictors_keeps C fuel st H1) as Hb1.
  split; [exact Hb1 |].
  pose proof (evolve_predictors_frame C fuel st H1)
    as (Hs & _ & _ & _ & Hf & _).
  apply update_best_predictor_inv in H2 as (_ & Hnot & Hdue).
  rewrite Hs, Hf in Hnot, Hdue.
  apply solution_step_keeps in H3 as (Hb3 & _).
  split; intros Hm.
  - rewrite (Hnot Hm) in Hb3.
    assert (Hb : best_predictor st' = best_predictor st) by congruence.
    split; [exact Hb |]. intros sol. unfold solution_fitness_est.
    rewrite Hb. reflexivity.
  - destruct (Hdue Hm) as (best & isl & Hbest & ->).
    exists best, isl. split; [exact Hbest | exact Hb3].
Qed.

Lemma best_predictor_changes_only_on_schedule_witness :
  exists st',
    generational_step Toy.collab 3 (Toy.scenario 10 0) = Some (Ok st')
    /\ best_predictor st' = best_predictor (Toy.scenario 10 0).
Proof.
  assert (H : exists st', generational_step Toy.collab 3 (Toy.scenario 10 0)
                          = Some (Ok st'))
    by (eexists; vm_compute; reflexivity).
  destruct H as (st' & H). exists st'. split; [exact H |].
  destruct (best_predictor_changes_only_on_schedule Toy.collab _ _ H)
    as (st1 & _ & _ & Hnot & _).
  apply Hnot. discriminate.
Defined.

(** X11.  [use_true_fitness] injects the exact metric, paired with the
    complexity, as the solution island's fitness function, clears every
    solution's flag and keeps the genomes; doing it twice is doing it
    once.  No other method changes which function is injected, so after
    [use_true_fitness] every [generational_step] steps the solution island
    with the exact metric. *)
Theorem use_true_fitness_is_one_way
    (GS GP DS DP X : Type) (C : Collaborators GS GP DS DP X)
    (st : CoevolutionIsland GS GP X) :
  (forall sol,
      injected_solution_fitness C (use_true_fitness st) sol
      = Ok (evaluate_fitness C (genome sol), complexity C (genome sol)))
  /\ Forall (fun i => fit_set i = false)
       (pop (solution_island (use_true_fitness st)))
  /\ map (@genome GS) (pop (solution_island (use_true_fitness st)))
     = map (@genome GS) (pop (solution_island st))
  /\ use_true_fitness (use_true_fitness st) = use_true_fitness st
  /\ (forall st',
        add_new_trainer C st = Ok st' ->
        solution_fitness_function st' = solution_fitness_function st)
  /\ (forall s_subset p_subset t_subset with_removal,
        solution_fitness_function
          (snd (dump_populations C st s_subset p_subset t_subset
                  with_removal))
        = solution_fitness_function st)
  /\ (forall pop_lists replace st',
        load_populations C st pop_lists replace = Ok st' ->
        solution_fitness_function st' = solution_fitness_function st)
  /\ (forall fuel st',
        generational_step C fuel st = Some (Ok st') ->
        solution_fitness_function st' = solution_fitness_function st)
  /\ (forall fuel st',
        generational_step C fuel (use_true_fitness st) = Some (Ok st') ->
        exists (st2 : CoevolutionIsland GS GP X) isl,
          sol_generational_step C (true_fitness_plus_complexity C)
            (solution_island st2) = Ok isl
          /\ sol_update_pareto_front C (true_fitness_plus_complexity C) isl
             = Ok (solution_island st')
          /\ map (@genome GS) (pop (solution_island st2))
             = map (@genome GS) (pop (solution_island st))).
Proof.
  repeat apply conj.
  - intros sol. reflexivity.
  - apply clear_flags_all_false.
  - simpl. rewrite map_map. reflexivity.
  - unfold use_true_fitness, clear_flags, set_pop. simpl.
    rewrite map_map. reflexivity.
  - intros st' H. apply add_new_trainer_frame in H. apply H.
  - intros s_subset p_subset t_subset with_removal.
    unfold dump_populations, island_dump_population.
    destruct with_removal; reflexivity.
  - intros [[sl pl] tl] replace st' H.
    apply load_populations_inv in H as (b & i & _ & ->). reflexivity.
  - intros fuel st' H.
    apply generational_step_mode in H as (st2 & _ & _ & _ & H). exact H.
  - intros fuel st' H.
    apply generational_step_mode in H as (st2 & H3 & Hgen & Hmode & _).
    apply solution_step_inv in H3 as (isl & isl' & Hstep & Hfront & ->).
    unfold injected_solution_fitness in Hstep, Hfront.
    rewrite Hmode in Hstep, Hfront. simpl in Hstep, Hfront.
    exists st2, isl. split; [exact Hstep |]. split; [exact Hfront |].
    rewrite Hgen. simpl. rewrite map_map. reflexivity.
Qed.

Lemma use_true_fitness_is_one_way_witness :
  exists st',
    generational_step Toy.collab 2 (use_true_fitness Toy.behind)
    = Some (Ok st')
    /\ solution_fitness_function st' = TrueFitnessPlusComplexity.
Proof.
  assert (H : exists st',
             generational_step Toy.collab 2 (use_true_fitness Toy.behind)
             = Some (Ok st'))
    by (eexists; vm_compute; reflexivity).
  destruct H as (st' & H). exists st'. split; [exact H |].
  destruct (@use_true_fitness_is_one_way _ _ _ _ _ Toy.collab
              (use_true_fitness Toy.behind))
    as (_ & _ & _ & _ & _ & _ & _ & Hmode & _).
  rewrite (Hmode _ _ H). reflexivity.
Defined.

(** ** When [generational_step] does not return *)

Lemma ratio_below_one (p k : Q) :
  (0 <= p -> 0 < k -> p / (p + k) < 1)%Q.
Proof.
  intros Hp Hk. apply Qlt_shift_div_r; lra.
Qed.

Section Divergence.

Variables GS GP DS DP X : Type.
Variable C : Collaborators GS GP DS DP X.
Hypothesis HC : engine_contract C.

Lemma loop_ready_ratio_defined (st : CoevolutionIsland GS GP X) :
  loop_ready st -> ratio_defined st.
Proof.
  intros (_ & _ & _ & _ & Hc & Hp & Hs).
  split; [lia |]. intros E.
  assert (H : (0 < inject_Z (fitness_evals (predictor_island st))
                   + inject_Z (fitness_evals (solution_island st))
                     / inject_Z (predictor_to_solution_eval_cost st))%Q)
    by (apply denominator_pos; lia).
  rewrite E in H. exact (Qlt_irrefl 0 H).
Qed.

(** With a target of 1 or more the loop condition always holds. *)
Lemma loop_ready_below_target (st : CoevolutionIsland GS GP X) (t : Q) :
  loop_ready st -> predictor_ratio st = Float.Fin t -> (1 <= t)%Q ->
  below_target st = true.
Proof.
  intros (_ & _ & _ & _ & Hc & Hp & Hs) Ht Hone.
  unfold below_target. rewrite Ht. apply ltb_lt.
  apply Qlt_le_trans with (y := 1%Q); [| exact Hone].
  unfold spec_ratio, ratio_formula. apply ratio_below_one.
  - apply inject_Z_nonneg. exact Hp.
  - apply Qlt_shift_div_l; [apply inject_Z_pos; exact Hc |].
    rewrite Qmult_0_l. apply inject_Z_pos. exact Hs.
Qed.

Lemma loop_ready_iteration (st : CoevolutionIsland GS GP X) :
  loop_ready st ->
  exists st1,
    predictor_iteration C st = Ok st1
    /\ loop_ready st1
    /\ predictor_ratio st1 = predictor_ratio st.
Proof.
  intros (Hsp & Hpp & Ht & Htf & Hc & Hp & Hs).
  assert (H0 : exists st0,
             update_trainers C st = Ok st0
             /\ same_frame st st0
             /\ trainers st0 <> []
             /\ pop (predictor_island st0) <> []
             /\ fitness_evals (predictor_island st0)
                = fitness_evals (predictor_island st)).
  { destruct (Z.eq_dec ((age (predictor_island st) + 1)
                        mod trainer_update_freq st) 0) as [Hdue | Hnot].
    - destruct (add_new_trainer_returns C st Hsp Htf Ht) as (s & _ & Ha).
      rewrite (update_trainers_due C st Htf Hdue), Ha. simpl.
      eexists. split; [reflexivity |].
      split; [exact (add_new_trainer_frame C st Ha) |]. simpl.
      repeat split.
      + apply (length_nonempty (l := trainers st));
          [apply replace_nth_length | exact Ht].
      + apply (length_nonempty (l := pop (predictor_island st)));
          [apply length_map | exact Hpp].
    - rewrite (update_trainers_not_due C st Htf Hnot).
      exists st. split; [reflexivity |]. split; [apply same_frame_refl |].
      repeat split; assumption. }
  destruct H0 as (st0 & Hu & Hframe & Ht0 & Hp0 & He0).
  destruct (pred_step_returns HC (predictor_fitness C st0)
              (predictor_island st0) Hp0
              (predictor_fitness_returns C st0 Ht0))
    as (isl & Hstep & Hpop & Hevals).
  exists (set_predictor_island st0 isl).
  unfold predictor_iteration, predictor_step. rewrite Hu. simpl.
  rewrite Hstep. simpl. split; [reflexivity |].
  destruct Hframe as (Fs & Fl & Ff & Fr & Fp & Ft & Fc & Fm).
  split; [| exact Fr].
  unfold loop_ready. simpl. rewrite Fs, Ft, Fc.
  repeat split; try assumption; lia.
Qed.

Lemma evolve_predictors_never_stops (fuel : nat)
    (st : CoevolutionIsland GS GP X) (t : Q) :
  loop_ready st -> predictor_ratio st = Float.Fin t -> (1 <= t)%Q ->
  evolve_predictors C fuel st = None.
Proof.
  revert st. induction fuel as [| fuel IH]; intros st Hready Ht Hone.
  - reflexivity.
  - simpl.
    rewrite (current_ratio_defined (loop_ready_ratio_defined Hready)).
    fold (below_target st).
    rewrite (loop_ready_below_target Hready Ht Hone).
    destruct (loop_ready_iteration Hready) as (st1 & -> & Hready1 & Hr).
    apply IH; [exact Hready1 | rewrite Hr; exact Ht | exact Hone].
Qed.

End Divergence.

(** X12.  With a target predictor ratio above 1, [generational_step]
    never leaves its predictor loop: the ratio [p / (p + s / c)] is never
    above 1, so whatever the fuel, the loop is still running.  (For an
    engine that honours its contract, on a state with inhabited
    populations and trainer list, a non-zero trainer update frequency, a
    positive cost ratio and a solution evaluation counted.) *)
Theorem target_above_one_never_returns
    (GS GP DS DP X : Type) (C : Collaborators GS GP DS DP X)
    (st : CoevolutionIsland GS GP X) (t : Q) (fuel : nat) :
  engine_contract C ->
  loop_ready st ->
  predictor_ratio st = Float.Fin t ->
  (1 < t)%Q ->
  generational_step C fuel st = None.
Proof.
  intros HC Hready Ht Hone. unfold generational_step.
  rewrite (evolve_predictors_never_stops HC fuel Hready Ht
             (Qlt_le_weak _ _ Hone)).
  reflexivity.
Qed.

Lemma greedy_loop_ready : loop_ready Greedy.all_for_predictors.
Proof.
  unfold loop_ready. simpl. repeat split; try discriminate; try lia.
Qed.

Lemma target_above_one_never_returns_witness :
  generational_step Toy.collab 1000 Greedy.all_for_predictors = None.
Proof.
  apply (@target_above_one_never_returns _ _ _ _ _ Toy.collab
           Greedy.all_for_predictors 2 1000 toy_contract greedy_loop_ready).
  - reflexivity.
  - reflexivity.
Defined.

(** X13.  The first thing [generational_step] does is compute the ratio.
    With non-negative counters and cost ratio it raises
    [ZeroDivisionError] there exactly when the cost ratio is 0 or no
    evaluation has been counted on either island; in every other case the
    ratio is computed. *)
Theorem generational_step_needs_evaluations
    (GS GP DS DP X : Type) (C : Collaborators GS GP DS DP X)
    (st : CoevolutionIsland GS GP X) :
  0 <= fitness_evals (predictor_island st) ->
  0 <= fitness_evals (solution_island st) ->
  0 <= predictor_to_solution_eval_cost st ->
  (predictor_to_solution_eval_cost st = 0
   \/ (fitness_evals (predictor_island st) = 0
       /\ fitness_evals (solution_island st) = 0) ->
   current_ratio st = Raise ZeroDivisionError
   /\ forall fuel,
        generational_step C (S fuel) st = Some (Raise ZeroDivisionError))
  /\ (predictor_to_solution_eval_cost st <> 0 ->
      fitness_evals (predictor_island st) <> 0
      \/ fitness_evals (solution_island st) <> 0 ->
      current_ratio st = Ok (Float.Fin (spec_ratio st))).
Proof.
  intros Hp Hs Hc. split.
  - intros Hzero.
    assert (Hr : current_ratio st = Raise ZeroDivisionError).
    { apply current_ratio_undefined. intros [Hc0 Hd].
      destruct Hzero as [E | [Ep Es]]; [contradiction |].
      apply Hd. rewrite Ep, Es. unfold Qdiv. ring. }
    split; [exact Hr |]. intros fuel.
    unfold generational_step. simpl. rewrite Hr. reflexivity.
  - intros Hc0 Hevals. apply current_ratio_defined.
    split; [exact Hc0 |]. intros E.
    assert (H : (0 < inject_Z (fitness_evals (predictor_island st))
                     + inject_Z (fitness_evals (solution_island st))
                       / inject_Z (predictor_to_solution_eval_cost st))%Q)
      by (apply denominator_pos; lia).
    rewrite E in H. exact (Qlt_irrefl 0 H).
Qed.

Lemma generational_step_needs_evaluations_witness :
  generational_step Toy.collab 5 Greedy.nothing_evaluated
  = Some (Raise ZeroDivisionError).
Proof.
  apply (@generational_step_needs_evaluations _ _ _ _ _ Toy.collab
           Greedy.nothing_evaluated); simpl; lia.
Defined.

(** ** Moving trainers out and back in *)

Lemma filter_partition (A : Type) (f : A -> bool) (l : list A) :
  Permutation (filter f l ++ filter (fun x => negb (f x)) l) l.
Proof.
  induction l as [| a l IH]; simpl.
  - constructor.
  - destruct (f a); simpl.
    + constructor. exact IH.
    + apply Permutation_sym, Permutation_cons_app, Permutation_sym. exact IH.
Qed.

(** Every entry is either selected or left, once. *)
Lemma select_remove_partition (A : Type) (l : list A) (subset : list Z) :
  Permutation (select_indices l subset ++ remove_indices l subset) l.
Proof.
  unfold select_indices, remove_indices. rewrite <- map_app.
  rewrite <- (enumerate_from_snd l 0) at 3. apply Permutation_map.
  apply (filter_partition (fun p => mem (fst p) subset) (enumerate l)).
Qed.

Lemma filter_index_combine (A B : Type) (f : Z -> bool)
    (a : list A) (b : list B) (start : Z) :
  map snd (filter (fun p => f (fst p)) (enumerate_from start (combine a b)))
  = combine
      (map snd (filter (fun p => f (fst p)) (enumerate_from start a)))
      (map snd (filter (fun p => f (fst p)) (enumerate_from start b))).
Proof.
  revert b start. induction a as [| x a IH]; intros [| y b] start; simpl;
    try reflexivity.
  - destruct (map snd _); reflexivity.
  - destruct (f start); simpl; rewrite IH; reflexivity.
Qed.

Lemma remove_indices_combine (A B : Type) (a : list A) (b : list B)
    (subset : list Z) :
  remove_indices (combine a b) subset
  = combine (remove_indices a subset) (remove_indices b subset).
Proof.
  apply (filter_index_combine (fun i => negb (mem i subset)) a b 0).
Qed.

Lemma combine_app_same (A B : Type) (a b : list A) (c d : list B) :
  length a = length c ->
  combine (a ++ b) (c ++ d) = combine a c ++ combine b d.
Proof.
  revert c. induction a as [| x a IH]; intros [| y c] H; simpl in *;
    try reflexivity; try discriminate H.
  rewrite IH; [reflexivity | lia].
Qed.

Lemma combine_map_fst (A B A' : Type) (g : A -> A') (a : list A)
    (b : list B) :
  combine (map g a) b = map (fun e => (g (fst e), snd e)) (combine a b).
Proof.
  revert b. induction a as [| x a IH]; intros [| y b]; simpl;
    try reflexivity.
  rewrite IH. reflexivity.
Qed.

Lemma combine_of_maps (A B D : Type) (f : A -> B) (g : A -> D)
    (l : list A) :
  combine (map f l) (map g l) = map (fun e => (f e, g e)) l.
Proof.
  induction l as [| x l IH]; simpl; [reflexivity |].
  rewrite IH. reflexivity.
Qed.

Section Migration.

Variables GS GP DS DP X : Type.
Variable C : Collaborators GS GP DS DP X.

Lemma dump_populations_trainer_list (st : CoevolutionIsland GS GP X)
    (s_subset p_subset t_subset : option (list Z)) (with_removal : bool) :
  snd (fst (dump_populations C st s_subset p_subset t_subset with_removal))
  = map (fun e : indv GS * float => (sol_dump C (fst e), snd e))
        (select_indices (combine (trainers st) (trainers_true_fitness st))
           (match t_subset with
            | None => range (len (trainers st))
            | Some s => s
            end)).
Proof.
  unfold dump_populations, island_dump_population.
  destruct with_removal; reflexivity.
Qed.

End Migration.

(** X14.  Dumping any subset of the trainers with removal and loading the
    snapshot back in append mode gives the trainer set back up to order:
    the same (genome, stored fitness) pairs, each as often as before, the
    kept ones first.  (The gene manipulator is assumed to round-trip
    genomes and the two trainer lists to be in step.) *)
Theorem trainers_survive_migration
    (GS GP DS DP X : Type) (C : Collaborators GS GP DS DP X)
    (st : CoevolutionIsland GS GP X)
    (s_subset p_subset t_subset : option (list Z)) :
  in_step st ->
  (forall i, genome (sol_load C (sol_dump C i)) = genome i) ->
  let dumped := dump_populations C st s_subset p_subset t_subset true in
  let back := load_containers C (snd dumped) (fst dumped) false in
  Permutation
    (combine (map (@genome GS) (trainers back)) (trainers_true_fitness back))
    (combine (map (@genome GS) (trainers st)) (trainers_true_fitness st))
  /\ in_step back.
Proof.
  intros Hin Hrt dumped back.
  set (subset := match t_subset with
                 | None => range (len (trainers st))
                 | Some s => s
                 end).
  set (pairs := combine (trainers st) (trainers_true_fitness st)).
  assert (Htl : snd (fst dumped)
                = map (fun e : indv GS * float => (sol_dump C (fst e), snd e))
                      (select_indices pairs subset))
    by apply dump_populations_trainer_list.
  destruct (dump_populations_trainers C st s_subset p_subset t_subset true)
    as [Hts Hfs].
  fold dumped in Hts, Hfs. fold subset in Hts, Hfs. cbv zeta in Hts, Hfs.
  assert (Hback : trainers back
                  = remove_indices (trainers st) subset
                    ++ map (fun e => sol_load C (sol_dump C (fst e)))
                         (select_indices pairs subset)
                  /\ trainers_true_fitness back
                     = remove_indices (trainers_true_fitness st) subset
                       ++ map snd (select_indices pairs subset)).
  { subst back. clearbody dumped.
    destruct (fst dumped) as [[sl pl] tl] eqn:E.
    simpl in Htl. subst tl. simpl. rewrite Hts, Hfs, !map_map. simpl.
    split; reflexivity. }
  destruct Hback as [Hb1 Hb2].
  pose proof (remove_indices_length_eq (trainers st)
                (trainers_true_fitness st) subset Hin) as Hkept.
  unfold in_step. rewrite Hb1, Hb2. split.
  - rewrite map_app, combine_app_same by (rewrite length_map; exact Hkept).
    rewrite combine_map_fst, <- remove_indices_combine. fold pairs.
    rewrite map_map, combine_of_maps.
    rewrite (combine_map_fst (@genome GS) (trainers st)
               (trainers_true_fitness st)). fold pairs.
    rewrite (map_ext (fun e : indv GS * float =>
                        (genome (sol_load C (sol_dump C (fst e))), snd e))
                     (fun e => (genome (fst e), snd e)))
      by (intros e; rewrite Hrt; reflexivity).
    rewrite <- map_app. apply Permutation_map.
    eapply Permutation_trans; [apply Permutation_app_comm |].
    apply select_remove_partition.
  - rewrite !length_app, !length_map, Hkept. reflexivity.
Qed.

Lemma trainers_survive_migration_witness :
  let dumped := dump_populations Toy.collab (Toy.scenario 0 0)
                  (Some []) (Some []) (Some [0; 2; 2]) true in
  let back := load_containers Toy.collab (snd dumped) (fst dumped) false in
  map (@genome Z) (trainers (snd dumped)) = [101; 103]
  /\ map (@genome Z) (trainers back) = [101; 103; 100; 102]
  /\ Permutation
       (combine (map (@genome Z) (trainers back))
          (trainers_true_fitness back))
       (combine (map (@genome Z) (trainers (Toy.scenario 0 0)))
          (trainers_true_fitness (Toy.scenario 0 0))).
Proof.
  cbv zeta. split; [reflexivity |]. split; [reflexivity |].
  apply (@trainers_survive_migration _ _ _ _ _ Toy.collab (Toy.scenario 0 0)
           (Some []) (Some []) (Some [0; 2; 2])).
  - reflexivity.
  - intros i. reflexivity.
Defined.

(** X15.  Positions are matched by membership, not by indexing: a subset
    that names no position of the trainer list (negative numbers included)
    dumps no trainer and, even with removal, removes none, without any
    error. *)
Theorem dump_ignores_foreign_positions
    (GS GP DS DP X : Type) (C : Collaborators GS GP DS DP X)
    (st : CoevolutionIsland GS GP X)
    (s_subset p_subset : option (list Z)) (t_subset : list Z)
    (with_removal : bool) :
  in_step st ->
  (forall i, In i t_subset -> i < 0 \/ len (trainers st) <= i) ->
  let dumped := dump_populations C st s_subset p_subset (Some t_subset)
                  with_removal in
  snd (fst dumped) = []
  /\ trainers (snd dumped) = trainers st
  /\ trainers_true_fitness (snd dumped) = trainers_true_fitness st.
Proof.
  intros Hin Hout dumped.
  assert (Hmem : forall (A : Type) (l : list A) (p : Z * A),
             len l <= len (trainers st) ->
             In p (enumerate l) -> mem (fst p) t_subset = false).
  { intros A l [i a] Hl Hp. apply enumerate_from_index in Hp. simpl.
    destruct (mem i t_subset) eqn:E; [| reflexivity].
    apply mem_true_iff, Hout in E. lia. }
  assert (Hlen : len (trainers_true_fitness st) <= len (trainers st))
    by (unfold len; rewrite Hin; lia).
  subst dumped. split; [| split].
  - rewrite dump_populations_trainer_list.
    unfold select_indices. rewrite filter_none; [reflexivity |].
    intros p Hp. apply (Hmem _ _ p) in Hp; [exact Hp |].
    unfold len. rewrite length_combine. lia.
  - destruct (dump_populations_trainers C st s_subset p_subset
                (Some t_subset) with_removal) as [-> _].
    destruct with_removal; [| reflexivity].
    unfold remove_indices. rewrite filter_all; [apply enumerate_from_snd |].
    intros p Hp. apply (Hmem _ _ p) in Hp; [| lia]. rewrite Hp. reflexivity.
  - destruct (dump_populations_trainers C st s_subset p_subset
                (Some t_subset) with_removal) as [_ ->].
    destruct with_removal; [| reflexivity].
    unfold remove_indices. rewrite filter_all; [apply enumerate_from_snd |].
    intros p Hp. apply (Hmem _ _ p) in Hp; [| exact Hlen].
    rewrite Hp. reflexivity.
Qed.

Lemma dump_ignores_foreign_positions_witness :
  let dumped := dump_populations Toy.collab (Toy.scenario 0 0)
                  None None (Some [-1; 4; 17]) true in
  snd (fst dumped) = []
  /\ trainers (snd dumped) = trainers (Toy.scenario 0 0).
Proof.
  destruct (@dump_ignores_foreign_positions _ _ _ _ _ Toy.collab
              (Toy.scenario 0 0) None None [-1; 4; 17] true)
    as (H1 & H2 & _).
  - reflexivity.
  - intros i [<- | [<- | [<- | []]]]; unfold len; simpl; lia.
  - split; assumption.
Defined.

(** ** How many predictor generations a step can take *)

Section Budget.

Variables GS GP DS DP X : Type.
Variable C : Collaborators GS GP DS DP X.
Hypothesis HC : engine_contract C.


End Budget.



(** * Properties of the probability mass function *)

(** ** Sums, minima and closeness on finite values *)

Lemma np_sum_fin (qs : list Q) :
  Np.sum (map Np.Fin qs) = Np.Fin (qsum qs).
Proof.
  induction qs as [| q qs IH]; simpl; [reflexivity |].
  rewrite IH. reflexivity.
Qed.

Lemma qsum_app (a b : list Q) : (qsum (a ++ b) == qsum a + qsum b)%Q.
Proof.
  induction a as [| x a IH]; simpl; [ring |]. rewrite IH. ring.
Qed.

Lemma qsum_scale (k : Q) (l : list Q) :
  (qsum (map (Qmult k) l) == k * qsum l)%Q.
Proof.
  induction l as [| x l IH]; simpl; [ring |]. rewrite IH. ring.
Qed.

Lemma qsum_div (t : Q) (l : list Q) :
  (qsum (map (fun q => (q / t)%Q) l) == qsum l / t)%Q.
Proof.
  induction l as [| x l IH]; simpl.
  - unfold Qdiv. ring.
  - rewrite IH. unfold Qdiv. ring.
Qed.

Lemma qsum_repeat (q : Q) (n : nat) :
  (qsum (repeat q n) == inject_Z (Z.of_nat n) * q)%Q.
Proof.
  induction n as [| n IH].
  - simpl. ring.
  - cbn [repeat qsum]. rewrite IH, Nat2Z.inj_succ. unfold Z.succ.
    rewrite inject_Z_plus. ring.
Qed.

Lemma qsum_nonneg (l : list Q) :
  Forall (fun r => 0 <= r)%Q l -> (0 <= qsum l)%Q.
Proof.
  induction 1 as [| x l Hx _ IH]; simpl; [apply Qle_refl | lra].
Qed.

Lemma isclose_one_exact (q : Q) : (q == 1)%Q -> Np.isclose_one (Np.Fin q) = true.
Proof.
  intros H. unfold Np.isclose_one. apply Qle_bool_iff.
  assert (E : (Qabs (q - 1) == 0)%Q) by (apply Qabs_zero; lra).
  rewrite E. discriminate.
Qed.

Lemma np_ltb_zero (m : Q) :
  Np.ltb (Np.Fin m) (Np.Fin 0) = true <-> (m < 0)%Q.
Proof.
  simpl. rewrite negb_true_iff. split; intros H.
  - apply Qnot_le_lt. intros Hle. apply Qle_bool_iff in Hle. congruence.
  - destruct (Qle_bool 0 m) eqn:E; [| reflexivity].
    apply Qle_bool_iff in E. lra.
Qed.

(** The minimum of finite values is negative exactly when one of them
    is. *)
Lemma np_min_fin (rs : list Q) (a : Q) :
  exists m,
    fold_left Np.min2 (map Np.Fin rs) (Np.Fin a) = Np.Fin m
    /\ ((m < 0)%Q <-> (a < 0)%Q \/ Exists (fun r => r < 0)%Q rs).
Proof.
  revert a. induction rs as [| r rs IH]; intros a; simpl.
  - exists a. split; [reflexivity |]. split; [intros H; left; exact H |].
    intros [H | H]; [exact H | inversion H].
  - destruct (Qle_bool a r) eqn:E; simpl.
    + apply Qle_bool_iff in E.
      destruct (IH a) as (m & Hm & Hiff). exists m. split; [exact Hm |].
      rewrite Hiff. split.
      * intros [H | H]; [left; exact H | right; right; exact H].
      * intros [H | H]; [left; exact H |].
        inversion H as [? ? Hr | ? ? Hrs]; subst;
          [left; lra | right; exact Hrs].
    + assert (Hlt : (r < a)%Q).
      { apply Qnot_le_lt. intros Hle. apply Qle_bool_iff in Hle.
        congruence. }
      destruct (IH r) as (m & Hm & Hiff). exists m. split; [exact Hm |].
      rewrite Hiff. split.
      * intros [H | H]; [right; left; exact H | right; right; exact H].
      * intros [H | H]; [left; lra |].
        inversion H as [? ? Hr | ? ? Hrs]; subst;
          [left; exact Hr | right; exact Hrs].
Qed.

(** ** [_normalize_weights] on finite weights *)

Lemma np_div_fin (q t : Q) :
  ~ (t == 0)%Q -> Np.div (Np.Fin q) (Np.Fin t) = Np.Fin (q / t).
Proof.
  intros Ht. simpl. destruct (Qeq_bool t 0) eqn:E; [| reflexivity].
  apply Qeq_bool_iff in E. contradiction.
Qed.

Lemma np_div_by_zero (q t : Q) :
  (t == 0)%Q -> Np.finite (Np.div (Np.Fin q) (Np.Fin t)) = false.
Proof.
  intros Ht. simpl. apply Qeq_bool_iff in Ht. rewrite Ht.
  destruct (Qeq_bool q 0); [reflexivity |].
  destruct (Np.negative q); reflexivity.
Qed.

Lemma np_add_not_finite (a b : Np.t) :
  Np.finite a = false -> Np.finite (Np.add a b) = false.
Proof.
  destruct a, b; simpl; intros H; try reflexivity; discriminate H.
Qed.

Lemma check_valid_accepts (rs : list Q) :
  (qsum rs == 1)%Q -> Forall (fun r => 0 <= r)%Q rs ->
  PMF.check_valid_weights (map Np.Fin rs) = PMF.Done tt.
Proof.
  intros Hsum Hpos. destruct rs as [| r rs]; [reflexivity |].
  cbn [map]. unfold PMF.check_valid_weights.
  change (Np.Fin r :: map Np.Fin rs) with (map Np.Fin (r :: rs)).
  rewrite np_sum_fin, (isclose_one_exact Hsum). cbn [negb orb].
  unfold Np.min. destruct (np_min_fin rs r) as (m & -> & Hiff).
  destruct (Np.ltb (Np.Fin m) (Np.Fin 0)) eqn:E; [| reflexivity].
  apply np_ltb_zero, Hiff in E. exfalso.
  inversion Hpos as [| ? ? Hr Hrs]; subst.
  destruct E as [E | E]; [lra |].
  apply Exists_exists in E as (x & Hx & Hneg).
  rewrite Forall_forall in Hrs. specialize (Hrs x Hx). lra.
Qed.

Lemma check_valid_refuses_negative (rs : list Q) :
  Exists (fun r => r < 0)%Q rs ->
  PMF.check_valid_weights (map Np.Fin rs) = PMF.RaiseValueError.
Proof.
  intros Hneg. destruct rs as [| r rs]; [inversion Hneg |].
  cbn [map]. unfold PMF.check_valid_weights.
  unfold Np.min. destruct (np_min_fin rs r) as (m & -> & Hiff).
  assert (E : Np.ltb (Np.Fin m) (Np.Fin 0) = true).
  { apply np_ltb_zero, Hiff.
    inversion Hneg as [? ? Hr | ? ? Hrs]; subst;
      [left; exact Hr | right; exact Hrs]. }
  rewrite E, orb_true_r. reflexivity.
Qed.

Lemma check_valid_refuses_not_finite (x : Np.t) (tl : list Np.t) :
  Np.finite x = false ->
  PMF.check_valid_weights (x :: tl) = PMF.RaiseValueError.
Proof.
  intros Hx. unfold PMF.check_valid_weights. cbn [Np.sum].
  pose proof (@np_add_not_finite x (Np.sum tl) Hx) as Hnf.
  destruct (Np.add x (Np.sum tl)); try reflexivity. discriminate Hnf.
Qed.

(** Finite weights whose total is not 0 and whose shares are not negative
    pass, and the result is the total and the shares. *)
Lemma normalize_accepts (qs : list Q) :
  ~ (qsum qs == 0)%Q ->
  Forall (fun q => 0 <= q / qsum qs)%Q qs ->
  PMF.normalize_weights (map Np.Fin qs)
  = PMF.Done (Np.Fin (qsum qs),
              map Np.Fin (map (fun q => (q / qsum qs)%Q) qs)).
Proof.
  intros Ht Hall. unfold PMF.normalize_weights, PMF.calculate_total_weight.
  cbv zeta. rewrite np_sum_fin, !map_map.
  rewrite (map_ext (fun q => Np.div (Np.Fin q) (Np.Fin (qsum qs)))
                   (fun q => Np.Fin (q / qsum qs)))
    by (intros q; apply np_div_fin; exact Ht).
  rewrite <- (map_map (fun q => (q / qsum qs)%Q) Np.Fin).
  rewrite check_valid_accepts; [reflexivity | |].
  - rewrite qsum_div. field. exact Ht.
  - apply Forall_map. exact Hall.
Qed.

(** Finite weights whose total is 0, or one of whose shares is negative,
    are refused. *)
Lemma normalize_refuses (qs : list Q) :
  qs <> [] ->
  (qsum qs == 0)%Q \/ Exists (fun q => q / qsum qs < 0)%Q qs ->
  PMF.normalize_weights (map Np.Fin qs) = PMF.RaiseValueError.
Proof.
  intros Hne Hbad. unfold PMF.normalize_weights, PMF.calculate_total_weight.
  cbv zeta. rewrite np_sum_fin, !map_map.
  destruct (Qeq_dec (qsum qs) 0) as [Hz | Hnz].
  - destruct qs as [| q qs']; [contradiction Hne; reflexivity |].
    remember (qsum (q :: qs')) as t eqn:Et. cbn [map].
    rewrite (@check_valid_refuses_not_finite _ _ (@np_div_by_zero q t Hz)).
    reflexivity.
  - destruct Hbad as [Hz | Hneg]; [contradiction |].
    rewrite (map_ext (fun q => Np.div (Np.Fin q) (Np.Fin (qsum qs)))
                     (fun q => Np.Fin (q / qsum qs)))
      by (intros q; apply np_div_fin; exact Hnz).
    rewrite <- (map_map (fun q => (q / qsum qs)%Q) Np.Fin).
    rewrite check_valid_refuses_negative; [reflexivity |].
    apply Exists_exists in Hneg as (x & Hx & Hlt). apply Exists_exists.
    exists (x / qsum qs)%Q. split; [| exact Hlt].
    apply in_map_iff. exists x. split; [reflexivity | exact Hx].
Qed.

(** ** Construction of a probability mass function *)

Lemma and_then_done_inv (A B : Type) (m : PMF.built A)
    (k : A -> PMF.built B) (b : B) :
  PMF.and_then m k = PMF.Done b -> exists a, m = PMF.Done a /\ k a = PMF.Done b.
Proof.
  destruct m as [a |]; simpl; intros H; [| discriminate H].
  exists a. split; [reflexivity | exact H].
Qed.

Lemma normalize_length (weights : list Np.t) (total : Np.t)
    (normalized : list Np.t) :
  PMF.normalize_weights weights = PMF.Done (total, normalized) ->
  length normalized = length weights.
Proof.
  unfold PMF.normalize_weights. cbv zeta. intros H.
  apply and_then_done_inv in H as (u & _ & H). injection H as _ <-.
  apply length_map.
Qed.

Lemma same_size_ok (A : Type) (items : list A) (weights : list Np.t) :
  length weights = length items ->
  PMF.is_weights_same_size_as_items items weights = PMF.Done tt.
Proof.
  intros H. unfold PMF.is_weights_same_size_as_items, len.
  rewrite H, Z.eqb_refl. reflexivity.
Qed.

Lemma default_weights_length (A : Type) (items : list A) :
  length (PMF.get_default_weights items) = length items.
Proof.
  unfold PMF.get_default_weights. cbv zeta.
  destruct (0 <? len items) eqn:E.
  - apply repeat_length.
  - apply Z.ltb_ge in E. unfold len in E. destruct items; [reflexivity |].
    simpl in E. lia.
Qed.

(** X17.  The constructor raises [ValueError] when [items] or [weights]
    is not list-like and when the two differ in length (weights given
    without items must be empty); an object that is built has exactly one
    normalized weight per item. *)
Theorem pmf_init_rejects_malformed (A : Type) :
  (forall weights, PMF.init (@PMF.Unsized A) weights = PMF.RaiseValueError)
  /\ (forall items : list A,
        PMF.init (PMF.Listlike items) PMF.Unsized = PMF.RaiseValueError)
  /\ PMF.init (@PMF.Omitted A) PMF.Unsized = PMF.RaiseValueError
  /\ (forall (items : list A) weights,
        length weights <> length items ->
        PMF.init (PMF.Listlike items) (PMF.Listlike weights)
        = PMF.RaiseValueError)
  /\ (forall weights,
        weights <> [] ->
        PMF.init (@PMF.Omitted A) (PMF.Listlike weights)
        = PMF.RaiseValueError)
  /\ (forall (items : PMF.param A) weights self,
        PMF.init items weights = PMF.Done self ->
        length (PMF.normalized_weights self) = length (PMF.items self)).
Proof.
  assert (Hsize : forall (items : list A) weights,
             length weights <> length items ->
             PMF.is_weights_same_size_as_items items weights
             = PMF.RaiseValueError).
  { intros items weights H. unfold PMF.is_weights_same_size_as_items, len.
    destruct (Z.eqb_spec (Z.of_nat (length weights))
                (Z.of_nat (length items))) as [E | _]; [lia | reflexivity]. }
  repeat apply conj.
  - intros weights. reflexivity.
  - intros items. reflexivity.
  - reflexivity.
  - intros items weights H. unfold PMF.init. simpl.
    rewrite (Hsize items weights H). reflexivity.
  - intros weights H. unfold PMF.init. simpl.
    rewrite (Hsize [] weights); [reflexivity |].
    destruct weights; [contradiction H; reflexivity | discriminate].
  - intros items weights self H. unfold PMF.init in H.
    apply and_then_done_inv in H as (l & _ & H).
    apply and_then_done_inv in H as (ws & _ & H).
    apply and_then_done_inv in H as (u & Hsame & H).
    apply and_then_done_inv in H as ([total normalized] & Hn & H).
    injection H as <-. simpl.
    rewrite (normalize_length _ Hn).
    unfold PMF.is_weights_same_size_as_items in Hsame.
    destruct (Z.eqb_spec (len ws) (len l)) as [E | _]; [| discriminate Hsame].
    unfold len in E. lia.
Qed.

Lemma pmf_init_rejects_malformed_witness :
  PMF.init (PMF.Listlike [1; 2; 3]) (PMF.Listlike [Np.Fin 1; Np.Fin 1])
  = PMF.RaiseValueError.
Proof.
  apply (pmf_init_rejects_malformed Z). discriminate.
Defined.

Lemma init_finite (A : Type) (items : list A) (qs : list Q) :
  length qs = length items ->
  PMF.init (PMF.Listlike items) (PMF.Listlike (map Np.Fin qs))
  = PMF.and_then (PMF.normalize_weights (map Np.Fin qs))
      (fun tn => PMF.Done {| PMF.items := items;
                             PMF.total_weight := fst tn;
                             PMF.normalized_weights := snd tn |}).
Proof.
  intros Hlen. unfold PMF.init. simpl.
  rewrite same_size_ok by (rewrite length_map; exact Hlen). reflexivity.
Qed.

Lemma shares_nonneg (qs : list Q) :
  Forall (fun q => 0 <= q)%Q qs -> (0 < qsum qs)%Q ->
  Forall (fun q => 0 <= q / qsum qs)%Q qs.
Proof.
  intros Hall Hpos. eapply Forall_impl; [| exact Hall].
  intros q Hq. apply Qle_shift_div_l; [exact Hpos |].
  rewrite Qmult_0_l. exact Hq.
Qed.

(** X18.  For finite weights, one per item and at least one: the
    constructor raises [ValueError] when the weights sum to 0 or when some
    weight has the opposite sign of the sum; in every other case it builds
    the object whose total weight is the sum and whose normalized weights
    are the weights divided by the sum, which add up to 1.  Weights that
    are all negative are therefore accepted.  Non-negative weights with a
    positive sum give an object in its intended state. *)
Theorem pmf_init_finite_weights (A : Type) (items : list A) (qs : list Q) :
  length qs = length items ->
  qs <> [] ->
  ((qsum qs == 0)%Q \/ Exists (fun q => q / qsum qs < 0)%Q qs ->
   PMF.init (PMF.Listlike items) (PMF.Listlike (map Np.Fin qs))
   = PMF.RaiseValueError)
  /\ (~ (qsum qs == 0)%Q ->
      Forall (fun q => 0 <= q / qsum qs)%Q qs ->
      PMF.init (PMF.Listlike items) (PMF.Listlike (map Np.Fin qs))
      = PMF.Done
          {| PMF.items := items;
             PMF.total_weight := Np.Fin (qsum qs);
             PMF.normalized_weights :=
               map Np.Fin (map (fun q => (q / qsum qs)%Q) qs) |}
      /\ (qsum (map (fun q => (q / qsum qs)%Q) qs) == 1)%Q)
  /\ (Forall (fun q => 0 <= q)%Q qs ->
      (0 < qsum qs)%Q ->
      exists self,
        PMF.init (PMF.Listlike items) (PMF.Listlike (map Np.Fin qs))
        = PMF.Done self
        /\ pmf_sound self (qsum qs) (map (fun q => (q / qsum qs)%Q) qs)).
Proof.
  intros Hlen Hne.
  assert (Hgood : ~ (qsum qs == 0)%Q ->
                  Forall (fun q => 0 <= q / qsum qs)%Q qs ->
                  PMF.init (PMF.Listlike items) (PMF.Listlike (map Np.Fin qs))
                  = PMF.Done
                      {| PMF.items := items;
                         PMF.total_weight := Np.Fin (qsum qs);
                         PMF.normalized_weights :=
                           map Np.Fin (map (fun q => (q / qsum qs)%Q) qs) |}
                  /\ (qsum (map (fun q => (q / qsum qs)%Q) qs) == 1)%Q).
  { intros Ht Hall. split.
    - rewrite (init_finite items qs Hlen), (normalize_accepts Ht Hall).
      reflexivity.
    - rewrite qsum_div. field. exact Ht. }
  split; [| split; [exact Hgood |]].
  - intros Hbad.
    rewrite (init_finite items qs Hlen), (normalize_refuses Hne Hbad).
    reflexivity.
  - intros Hall Hpos.
    assert (Ht : ~ (qsum qs == 0)%Q) by lra.
    pose proof (shares_nonneg Hall Hpos) as Hshares.
    destruct (Hgood Ht Hshares) as [Hinit Hsum].
    eexists. split; [exact Hinit |].
    unfold pmf_sound. simpl.
    split; [reflexivity |]. split; [exact Hpos |]. split; [reflexivity |].
    split; [apply Forall_map; exact Hshares |]. split; [exact Hsum |].
    rewrite length_map. symmetry. exact Hlen.
Qed.

Lemma pmf_init_finite_weights_witness :
  PMF.init (PMF.Listlike [10; 20]) (PMF.Listlike [Np.Fin 1; Np.Fin (-1)])
  = PMF.RaiseValueError
  /\ PMF.init (PMF.Listlike [10; 20])
       (PMF.Listlike [Np.Fin (-1); Np.Fin (-3)])
     = PMF.Done
         {| PMF.items := [10; 20];
            PMF.total_weight := Np.Fin (qsum [-1; -3]%Q);
            PMF.normalized_weights :=
              map Np.Fin
                (map (fun q => (q / qsum [-1; -3])%Q) [-1; -3]%Q) |}.
Proof.
  split.
  - apply (@pmf_init_finite_weights Z [10; 20] [1; -1]%Q);
      [reflexivity | discriminate |].
    left. reflexivity.
  - apply (@pmf_init_finite_weights Z [10; 20] [-1; -3]%Q);
      [reflexivity | discriminate | discriminate |].
    repeat constructor; discriminate.
Defined.

(** X19.  With the weights omitted every item gets the same share.  For no
    items (given empty or omitted) the object is built empty, with total
    weight 0.  For [n > 0] items, in real arithmetic without rounding, the
    object is built, its total weight is 1 and each of its [n] normalized
    weights is [1/n].  (The code's doubles are these values rounded: six
    items give a total one unit in the last place below 1.) *)
Theorem pmf_default_weights_uniform (A : Type) (items : list A) :
  PMF.init (@PMF.Omitted A) PMF.Omitted
  = PMF.Done {| PMF.items := []; PMF.total_weight := Np.Fin 0;
                PMF.normalized_weights := [] |}
  /\ PMF.init (@PMF.Listlike A []) PMF.Omitted
     = PMF.Done {| PMF.items := []; PMF.total_weight := Np.Fin 0;
                   PMF.normalized_weights := [] |}
  /\ (items <> [] ->
      exists self,
        PMF.init (PMF.Listlike items) PMF.Omitted = PMF.Done self
        /\ PMF.items self = items
        /\ Np.same (PMF.total_weight self) (Np.Fin 1)
        /\ length (PMF.normalized_weights self) = length items
        /\ Forall (fun w => Np.same w (Np.Fin (1 / inject_Z (len items))))
             (PMF.normalized_weights self)).
Proof.
  split; [reflexivity |]. split; [reflexivity |]. intros Hne.
  pose proof (len_nonempty Hne) as Hn.
  set (u := (1 / inject_Z (len items))%Q).
  set (qs := repeat u (length items)).
  assert (Hu : (0 < u)%Q).
  { subst u. apply Qlt_shift_div_l; [apply inject_Z_pos; exact Hn |].
    rewrite Qmult_0_l. reflexivity. }
  assert (Hdefault : PMF.get_default_weights items = map Np.Fin qs).
  { unfold PMF.get_default_weights. cbv zeta.
    destruct (Z.ltb_spec 0 (len items)) as [_ | H]; [| lia].
    subst qs. rewrite map_repeat. reflexivity. }
  assert (Hsum : (qsum qs == 1)%Q).
  { subst qs u. rewrite qsum_repeat. fold (len items). field.
    intros E. pose proof (inject_Z_pos Hn) as H. rewrite E in H.
    exact (Qlt_irrefl 0 H). }
  assert (Hall : Forall (fun q => 0 <= q)%Q qs).
  { apply Forall_forall. intros q Hq. apply repeat_spec in Hq. subst q.
    apply Qlt_le_weak. exact Hu. }
  assert (Hlen : length qs = length items) by apply repeat_length.
  assert (Hpos : (0 < qsum qs)%Q) by (rewrite Hsum; reflexivity).
  assert (Ht : ~ (qsum qs == 0)%Q) by lra.
  assert (Hinit : PMF.init (PMF.Listlike items) PMF.Omitted
                  = PMF.init (PMF.Listlike items)
                      (PMF.Listlike (map Np.Fin qs))).
  { unfold PMF.init. simpl. rewrite Hdefault. reflexivity. }
  rewrite Hinit, (init_finite items qs Hlen),
    (normalize_accepts Ht (shares_nonneg Hall Hpos)).
  eexists. split; [reflexivity |]. simpl.
  split; [reflexivity |]. split; [exact Hsum |].
  split; [rewrite !length_map; exact Hlen |].
  apply Forall_forall. intros w Hw.
  apply in_map_iff in Hw as (r & <- & Hr).
  apply in_map_iff in Hr as (q & <- & Hq).
  apply repeat_spec in Hq. subst q. simpl.
  rewrite Hsum. subst u. field.
  intros E. pose proof (inject_Z_pos Hn) as H. rewrite E in H.
  exact (Qlt_irrefl 0 H).
Qed.

Lemma pmf_default_weights_uniform_witness :
  exists self,
    PMF.init (PMF.Listlike [10; 20; 30; 40]) PMF.Omitted = PMF.Done self
    /\ Forall (fun w => Np.same w (Np.Fin (1 # 4)))
         (PMF.normalized_weights self).
Proof.
  destruct (@pmf_default_weights_uniform Z [10; 20; 30; 40])
    as (_ & _ & H).
  destruct H as (self & Hinit & _ & _ & _ & Hall); [discriminate |].
  exists self. split; [exact Hinit |]. exact Hall.
Defined.

(** ** [add_item] *)

Lemma div_neg_pos (a b : Q) : (a < 0 -> 0 < b -> a / b < 0)%Q.
Proof.
  intros Ha Hb. apply Qlt_shift_div_r; [exact Hb |].
  rewrite Qmult_0_l. exact Ha.
Qed.

Lemma div_pos_neg (a b : Q) : (0 < a -> b < 0 -> a / b < 0)%Q.
Proof.
  intros Ha Hb.
  assert (H : (0 < a / - b)%Q).
  { apply Qlt_shift_div_l; [lra |]. rewrite Qmult_0_l. exact Ha. }
  assert (E : (a / b == - (a / - b))%Q) by (field; lra).
  rewrite E. lra.
Qed.

Lemma qsum_pos_exists (l : list Q) :
  Forall (fun r => 0 <= r)%Q l -> (0 < qsum l)%Q ->
  Exists (fun r => 0 < r)%Q l.
Proof.
  induction 1 as [| r l Hr _ IH]; simpl; intros Hpos.
  - exfalso. exact (Qlt_irrefl 0 Hpos).
  - destruct (Qlt_le_dec 0 r) as [H | H].
    + left. exact H.
    + right. apply IH. lra.
Qed.

Section AddItem.

Variable A : Type.
Variable self : PMF.t A.
Variable total : Q.
Variable probabilities : list Q.
Hypothesis Hsound : pmf_sound self total probabilities.

(** [total_weight * normalized_weights], with the new weight appended. *)
Lemma recovered_weights (w : Q) :
  map (Np.mul (PMF.total_weight self)) (PMF.normalized_weights self)
  ++ [Np.Fin w]
  = map Np.Fin (map (Qmult total) probabilities ++ [w]).
Proof.
  destruct Hsound as (Ht & _ & Hn & _). rewrite Ht, Hn.
  rewrite map_app, !map_map. reflexivity.
Qed.

Lemma recovered_total (w : Q) :
  (qsum (map (Qmult total) probabilities ++ [w]) == total + w)%Q.
Proof.
  destruct Hsound as (_ & _ & _ & _ & Hsum & _).
  rewrite qsum_app, qsum_scale, Hsum. simpl. ring.
Qed.

Lemma add_item_accepts (new_item : A) (w : Q) :
  (0 <= w)%Q ->
  let qs := map (Qmult total) probabilities ++ [w] in
  let self' := {| PMF.items := PMF.items self ++ [new_item];
                  PMF.total_weight := Np.Fin (qsum qs);
                  PMF.normalized_weights :=
                    map Np.Fin (map (fun q => (q / qsum qs)%Q) qs) |} in
  PMF.add_item PMF.PyList self new_item (Some (Np.Fin w))
  = PMF.Updated self'
  /\ pmf_sound self' (qsum qs) (map (fun q => (q / qsum qs)%Q) qs).
Proof.
  intros Hw qs self'.
  pose proof (recovered_total w) as Htotal. fold qs in Htotal.
  destruct Hsound as (Ht & Hpos & Hn & Hall & Hsum & Hlen).
  assert (Hqs : Forall (fun q => 0 <= q)%Q qs).
  { subst qs. apply Forall_app. split.
    - apply Forall_map. eapply Forall_impl; [| exact Hall].
      intros r Hr. cbv beta in Hr |- *. apply Qmult_le_0_compat; lra.
    - constructor; [exact Hw | constructor]. }
  assert (Hpos' : (0 < qsum qs)%Q) by lra.
  assert (Ht' : ~ (qsum qs == 0)%Q) by lra.
  pose proof (shares_nonneg Hqs Hpos') as Hshares.
  split.
  - unfold PMF.add_item. cbv beta iota zeta. rewrite (recovered_weights w).
    fold qs. rewrite (normalize_accepts Ht' Hshares). reflexivity.
  - unfold pmf_sound. simpl.
    split; [reflexivity |]. split; [exact Hpos' |]. split; [reflexivity |].
    split; [apply Forall_map; exact Hshares |]. split.
    + rewrite qsum_div. field. exact Ht'.
    + subst qs. rewrite !length_app, !length_map, length_app, length_map.
      simpl. rewrite Hlen. reflexivity.
Qed.

Lemma add_item_refuses (new_item : A) (w : Q) :
  (w < 0)%Q ->
  PMF.add_item PMF.PyList self new_item (Some (Np.Fin w))
  = PMF.Failed {| PMF.items := PMF.items self ++ [new_item];
                  PMF.total_weight := PMF.total_weight self;
                  PMF.normalized_weights := PMF.normalized_weights self |}.
Proof.
  intros Hw.
  pose proof (recovered_total w) as Htotal.
  set (qs := map (Qmult total) probabilities ++ [w]) in *.
  assert (Hne : qs <> []).
  { subst qs. intros E. apply app_eq_nil in E as [_ E]. discriminate E. }
  assert (Hbad : (qsum qs == 0)%Q \/ Exists (fun q => q / qsum qs < 0)%Q qs).
  { destruct Hsound as (_ & Hpos & _ & Hall & Hsum & _).
    destruct (Q_dec (qsum qs) 0) as [[Hlt | Hgt] | Heq].
    - right. subst qs. apply Exists_app. left.
      assert (Hex : Exists (fun r => 0 < r)%Q probabilities)
        by (apply qsum_pos_exists; [exact Hall | lra]).
      apply Exists_exists in Hex as (r & Hr & Hrpos).
      apply Exists_exists. exists (total * r)%Q. split.
      + apply in_map_iff. exists r. split; [reflexivity | exact Hr].
      + apply div_pos_neg; [nra | exact Hlt].
    - right. subst qs. apply Exists_app. right. left.
      apply div_neg_pos; assumption.
    - left. exact Heq. }
  unfold PMF.add_item. cbv beta iota zeta. rewrite (recovered_weights w).
  fold qs. rewrite (normalize_refuses Hne Hbad). reflexivity.
Qed.

Lemma sound_not_empty : probabilities <> [].
Proof.
  destruct Hsound as (_ & _ & _ & _ & Hsum & _). intros E.
  rewrite E in Hsum. simpl in Hsum. discriminate Hsum.
Qed.

Lemma mean_weight :
  PMF.get_mean_current_weight self
  = Np.Fin (total / inject_Z (len probabilities)).
Proof.
  pose proof (len_nonempty sound_not_empty) as Hn.
  destruct Hsound as (Ht & _ & Hnw & _).
  unfold PMF.get_mean_current_weight. rewrite Ht, Hnw.
  assert (Hlen : len (map Np.Fin probabilities) = len probabilities)
    by (unfold len; rewrite length_map; reflexivity).
  rewrite Hlen.
  destruct (Z.eqb_spec (len probabilities) 0) as [E | _]; [lia |].
  apply np_div_fin. intros E. pose proof (inject_Z_pos Hn) as H.
  rewrite E in H. exact (Qlt_irrefl 0 H).
Qed.

End AddItem.

(** X20.  [add_item] with a finite weight, in real arithmetic without
    rounding, on an object in its intended state with total weight [T].
    When the items are kept in a Python list: a weight [w >= 0] appends
    the item, makes the total [T + w] and renormalizes, the old
    probabilities being scaled by [T / (T + w)] and the new item getting
    [w / (T + w)], and the object is again in its intended state; a weight
    [w < 0] raises [ValueError] after the item has been appended, so the
    weights are untouched and the object is left with one more item than
    weights.  When the items are kept in an object without [append] (a
    tuple, an array), the call raises [AttributeError] and changes
    nothing. *)
Theorem pmf_add_item_weight (A : Type) (self : PMF.t A) (total : Q)
    (probabilities : list Q) (new_item : A) (w : Q) :
  pmf_sound self total probabilities ->
  ((0 <= w)%Q ->
   exists self' total',
     PMF.add_item PMF.PyList self new_item (Some (Np.Fin w))
     = PMF.Updated self'
     /\ PMF.items self' = PMF.items self ++ [new_item]
     /\ (total' == total + w)%Q
     /\ pmf_sound self' total'
          (map (fun r => (total * r / total')%Q) probabilities
           ++ [(w / total')%Q]))
  /\ ((w < 0)%Q ->
      exists self',
        PMF.add_item PMF.PyList self new_item (Some (Np.Fin w))
        = PMF.Failed self'
        /\ PMF.items self' = PMF.items self ++ [new_item]
        /\ PMF.total_weight self' = PMF.total_weight self
        /\ PMF.normalized_weights self' = PMF.normalized_weights self
        /\ length (PMF.items self')
           = S (length (PMF.normalized_weights self')))
  /\ PMF.add_item PMF.OtherSized self new_item (Some (Np.Fin w))
     = PMF.NoAppend self.
Proof.
  intros Hsound. split; [| split; [| reflexivity]]; intros Hw.
  - destruct (add_item_accepts Hsound new_item Hw) as [Hadd Hs].
    set (total' := qsum (map (Qmult total) probabilities ++ [w])) in *.
    assert (E : map (fun q => (q / total')%Q)
                  (map (Qmult total) probabilities ++ [w])
                = map (fun r => (total * r / total')%Q) probabilities
                  ++ [(w / total')%Q])
      by (rewrite map_app, map_map; reflexivity).
    eexists. exists total'.
    split; [exact Hadd |]. split; [reflexivity |].
    split; [apply (recovered_total Hsound) |]. rewrite <- E. exact Hs.
  - eexists. split; [apply (add_item_refuses Hsound new_item Hw) |].
    simpl. repeat split.
    destruct Hsound as (_ & _ & Hn & _ & _ & Hlen).
    rewrite length_app, Hn, length_map, Hlen. simpl. lia.
Qed.

Lemma pmf_sound_example :
  pmf_sound {| PMF.items := [10; 20];
               PMF.total_weight := Np.Fin 4;
               PMF.normalized_weights := [Np.Fin (1 # 4); Np.Fin (3 # 4)] |}
    4 [1 # 4; 3 # 4]%Q.
Proof.
  unfold pmf_sound. simpl. repeat split.
  - repeat constructor; discriminate.
Qed.

Lemma pmf_add_item_weight_witness :
  let self := {| PMF.items := [10; 20];
                 PMF.total_weight := Np.Fin 4;
                 PMF.normalized_weights :=
                   [Np.Fin (1 # 4); Np.Fin (3 # 4)] |} in
  (exists self',
     PMF.add_item PMF.PyList self 30 (Some (Np.Fin 4)) = PMF.Updated self'
     /\ PMF.items self' = [10; 20; 30])
  /\ (exists self',
        PMF.add_item PMF.PyList self 30 (Some (Np.Fin (-1)))
        = PMF.Failed self'
        /\ PMF.items self' = [10; 20; 30]
        /\ length (PMF.normalized_weights self') = 2%nat)
  /\ PMF.add_item PMF.OtherSized self 30 (Some (Np.Fin 4))
     = PMF.NoAppend self.
Proof.
  intros self. split; [| split].
  - destruct (@pmf_add_item_weight Z self 4 [1 # 4; 3 # 4]%Q 30 4
                pmf_sound_example) as (Hok & _).
    destruct Hok as (self' & total' & Hadd & Hitems & _); [discriminate |].
    exists self'. split; [exact Hadd | exact Hitems].
  - destruct (@pmf_add_item_weight Z self 4 [1 # 4; 3 # 4]%Q 30 (-1)
                pmf_sound_example) as (_ & Hbad & _).
    destruct Hbad as (self' & Hadd & Hitems & _ & Hn & _); [reflexivity |].
    exists self'. split; [exact Hadd |]. split; [exact Hitems |].
    rewrite Hn. reflexivity.
  - destruct (@pmf_add_item_weight Z self 4 [1 # 4; 3 # 4]%Q 30 4
                pmf_sound_example) as (_ & _ & Hno).
    exact Hno.
Defined.


Lemma mean_share (T n : Q) :
  (0 < T -> 0 < n ->
   T / n / (T + T / n) == 1 / (n + 1)
   /\ forall r, T * r / (T + T / n) == r * (n / (n + 1)))%Q.
Proof.
  intros HT Hn.
  assert (H1 : ~ (n == 0)%Q) by lra.
  assert (H2 : ~ (n + 1 == 0)%Q) by lra.
  assert (H3 : ~ (T == 0)%Q) by lra.
  assert (H4 : ~ (T * n + T == 0)%Q) by nra.
  split; [| intros r]; field; auto.
Qed.


(** X21.  [add_item] without a weight gives the new item the mean of the
    current weights; the items are kept in a Python list and the
    arithmetic is real arithmetic without rounding.  On an object in its
    intended state with [n] items and total weight [T] the call succeeds,
    the total becomes [T + T / n], the new item is drawn with probability
    [1 / (n + 1)] and every old probability is scaled by [n / (n + 1)].
    On an object without weights the item gets weight one and probability
    one.  (The code's doubles are these values rounded.) *)
Theorem pmf_add_item_default_weight (A : Type) (self : PMF.t A)
    (new_item : A) :
  (forall total probabilities,
     pmf_sound self total probabilities ->
     let n := inject_Z (len probabilities) in
     exists self' total',
       PMF.add_item PMF.PyList self new_item None = PMF.Updated self'
       /\ PMF.items self' = PMF.items self ++ [new_item]
       /\ (total' == total + total / n)%Q
       /\ pmf_sound self' total'
            (map (fun r => (total * r / total')%Q) probabilities
             ++ [(total / n / total')%Q])
       /\ (total / n / total' == 1 / (n + 1))%Q
       /\ (forall r, total * r / total' == r * (n / (n + 1)))%Q)
  /\ (PMF.normalized_weights self = [] ->
      exists total' share,
        PMF.add_item PMF.PyList self new_item None
        = PMF.Updated {| PMF.items := PMF.items self ++ [new_item];
                         PMF.total_weight := Np.Fin total';
                         PMF.normalized_weights := [Np.Fin share] |}
        /\ (total' == 1)%Q /\ (share == 1)%Q).
Proof.
  split.
  - intros total probabilities Hsound n.
    pose proof (len_nonempty (sound_not_empty Hsound)) as Hlen.
    pose proof (inject_Z_pos Hlen) as Hn. fold n in Hn.
    assert (Hpos : (0 < total)%Q) by (destruct Hsound as (_ & H & _); exact H).
    assert (Hw : (0 <= total / n)%Q).
    { apply Qle_shift_div_l; [exact Hn |]. rewrite Qmult_0_l. lra. }
    assert (Hsame : PMF.add_item PMF.PyList self new_item None
                    = PMF.add_item PMF.PyList self new_item
                        (Some (Np.Fin (total / n)))).
    { unfold PMF.add_item. rewrite (mean_weight Hsound). reflexivity. }
    destruct (add_item_accepts Hsound new_item Hw) as [Hadd Hs].
    pose proof (recovered_total Hsound (total / n)) as Htotal.
    set (total' := qsum (map (Qmult total) probabilities ++ [(total / n)%Q]))
      in *.
    assert (E : map (fun q => (q / total')%Q)
                  (map (Qmult total) probabilities ++ [(total / n)%Q])
                = map (fun r => (total * r / total')%Q) probabilities
                  ++ [(total / n / total')%Q])
      by (rewrite map_app, map_map; reflexivity).
    destruct (mean_share Hpos Hn) as [Hnew Hold].
    eexists. exists total'.
    split; [rewrite Hsame; exact Hadd |]. split; [reflexivity |].
    split; [exact Htotal |]. split; [rewrite <- E; exact Hs |].
    split; [rewrite Htotal; exact Hnew |].
    intros r. rewrite Htotal. apply Hold.
  - intros Hempty. exists (qsum [1%Q]), (1 / qsum [1%Q])%Q.
    unfold PMF.add_item, PMF.get_mean_current_weight. rewrite Hempty.
    cbn [map app len length Z.of_nat Z.eqb].
    change [Np.Fin 1] with (map Np.Fin [1%Q]).
    rewrite normalize_accepts.
    + split; [reflexivity |]. split; reflexivity.
    + simpl. discriminate.
    + constructor; [simpl; discriminate | constructor].
Qed.

Lemma pmf_add_item_default_weight_witness :
  let self := {| PMF.items := [10; 20];
                 PMF.total_weight := Np.Fin 4;
                 PMF.normalized_weights :=
                   [Np.Fin (1 # 4); Np.Fin (3 # 4)] |} in
  (exists self',
     PMF.add_item PMF.PyList self 30 None = PMF.Updated self'
     /\ PMF.items self' = [10; 20; 30])
  /\ (exists total' share,
        PMF.add_item PMF.PyList (PMF.mk (@nil Z) (Np.Fin 0) []) 30 None
        = PMF.Updated (PMF.mk [30] (Np.Fin total') [Np.Fin share])).
Proof.
  intros self. split.
  - destruct (@pmf_add_item_default_weight Z self 30) as (Hfull & _).
    destruct (Hfull 4%Q [1 # 4; 3 # 4]%Q pmf_sound_example)
      as (self' & total' & Hadd & Hitems & _).
    exists self'. split; [exact Hadd | exact Hitems].
  - destruct (@pmf_add_item_default_weight Z
                (PMF.mk (@nil Z) (Np.Fin 0) []) 30) as (_ & Hempty).
    destruct (Hempty eq_refl) as (total' & share & Hadd & _).
    exists total', share. exact Hadd.
Defined.
